(** * Calendar synchronisation server: a shallow embedding

    The development follows the canonical revision of the service: the
    sliding-window rate limiter ([utils/rateLimiter]), the persistence
    layer ([services/supabaseService]) and the three-phase bidirectional
    engine ([GoogleCalendarSyncService]).

    Asynchronous JavaScript is embedded as a state-and-exception monad over
    an explicit [World]: the wall clock, the rate limiter's timestamp
    buffer, the three database tables, and the chronicle of effects the
    program performed (timer sleeps, HTTP requests, database statements and
    a few log lines).  What the outside answers (HTTP replies, database
    failures, [Math.random], generated keys) is supplied by oracles kept in
    the world and consumed in call order.

    Modelling conventions:
    - numbers are [Z]; [Infinity] (from [Math.min()] of nothing) is [None]
      in an [option Z];
    - [undefined]/[null] is [None]; JavaScript truthiness of strings is
      written out ([truthy]);
    - strings are byte strings and [toLowerCase] folds ASCII letters only;
    - the clock advances only while a timer sleeps, and then by the timer's
      effective delay;
    - [logger] and [performanceMonitor] calls are left out unless listed in
      [LogLine]; a handler that reads [error.message] still evaluates it;
    - the body of a reply of the token endpoint, which the code always
      reads with [response.json()], is JSON or not ([Parsed]); a reply of
      the calendar carries its body as text, read where a request is
      refused, and as the value read where it succeeds. *)

From Stdlib Require Import ZArith List String Ascii Bool Lia.
From Stdlib Require Import Permutation Sorted DecimalString.
Import ListNotations.
Open Scope Z_scope.

Set Implicit Arguments.

(** ** JavaScript primitives *)

Module Js.

Definition lowerChar (c : ascii) : ascii :=
  let n := nat_of_ascii c in
  if (Nat.leb 65 n && Nat.leb n 90)%bool then ascii_of_nat (n + 32) else c.

Fixpoint toLowerCase (s : string) : string :=
  match s with
  | EmptyString => EmptyString
  | String c t => String (lowerChar c) (toLowerCase t)
  end.

(** [hay.includes(needle)] *)
Fixpoint includes (hay needle : string) : bool :=
  String.prefix needle hay
  || match hay with
     | EmptyString => false
     | String _ t => includes t needle
     end.

(** truthiness of a possibly undefined string *)
Definition truthy (o : option string) : bool :=
  match o with
  | Some s => negb (String.eqb s EmptyString)
  | None => false
  end.

(** [a || b] on possibly undefined strings *)
Definition or (a b : option string) : option string :=
  if truthy a then a else b.

(** [a || 'literal'] *)
Definition orElse (a : option string) (b : string) : string :=
  match a with
  | Some s => if String.eqb s EmptyString then b else s
  | None => b
  end.

(** template-literal rendering of an integer *)
Definition show (z : Z) : string := NilZero.string_of_int (Z.to_int z).

(** [Math.min(...l)]; [None] is [Infinity] *)
Fixpoint min (l : list Z) : option Z :=
  match l with
  | [] => None
  | x :: t => match min t with
              | None => Some x
              | Some m => Some (Z.min x m)
              end
  end.

(** [Math.max(floor, x)] where [x] may be [Infinity] *)
Definition max (floor : Z) (x : option Z) : option Z :=
  option_map (Z.max floor) x.

(** The delay a timer really waits: outside [1, 2^31-1] the runtime
    uses 1 ms. *)
Definition timerDelay (d : option Z) : Z :=
  match d with
  | Some d => if (d <? 1) || (2147483647 <? d) then 1 else d
  | None => 1
  end.

(** A time value a [Date] can hold; beyond it the date is invalid and
    [toISOString] throws a [RangeError]. *)
Definition validTime (t : Z) : bool :=
  (-8640000000000000 <=? t) && (t <=? 8640000000000000).

(** [l.slice(0, n)] *)
Definition slice0 {A} (l : list A) (n : Z) : list A :=
  if n <? 0 then firstn (Z.to_nat (Z.of_nat (List.length l) + n)) l
  else firstn (Z.to_nat n) l.

End Js.

(** ** Data model *)

Record Attendee := {
  email : option string;
  displayName : option string;
  responseStatus : option string }.

Record EventTime := {
  dateTime : option string;
  date : option string }.

(** An entry of the remote calendar, as the listing and the insertion
    return it. *)
Record GoogleEvent := {
  g_id : string;
  g_status : option string;
  g_summary : option string;
  g_description : option string;
  g_start : option EventTime;
  g_end : option EventTime;
  g_location : option string;
  g_organizer_email : option string;     (* organizer?.email *)
  g_meet_uri : option string;            (* conferenceData?.entryPoints?.[0]?.uri *)
  g_attendees : option (list Attendee) }.

(** A row of table [appointments]. *)
Record Appointment := {
  a_id : string;
  a_company_id : string;
  a_title : string;
  a_description : option string;
  a_start_time : option string;
  a_end_time : option string;
  a_location : option string;
  a_google_event_id : option string;
  a_google_calendar_id : option string;
  a_google_meet_link : option string;
  a_attendees : option (list Attendee);
  a_all_day : bool;
  a_status : string;
  a_created_by : string;
  a_created_at : Z;
  a_updated_at : Z }.

(** The object [upsertAppointmentFromGoogleEvent] hands to the store.  A
    field that is [None] is [undefined]: serialisation drops it, so the
    statement does not mention that column. *)
Record AppointmentData := {
  d_company_id : string;
  d_title : string;
  d_description : option string;
  d_start_time : option string;
  d_end_time : option string;
  d_location : option string;
  d_google_event_id : string;
  d_google_calendar_id : string;
  d_google_meet_link : option string;
  d_attendees : list Attendee;
  d_all_day : bool;
  d_status : string;
  d_id : option string;
  d_created_by : option string;
  d_created_at : option Z }.

(** A row of table [google_calendar_integrations]. *)
Record Integration := {
  i_id : string;
  i_company_id : string;
  i_client_id : string;
  i_client_secret : string;
  i_access_token : option string;
  i_refresh_token : option string;
  i_token_expires_at : option Z;
  i_calendar_id : string;
  i_timezone : option string;
  i_auto_create_meet : bool;
  i_sync_enabled : bool;
  i_sync_token : option string;
  i_last_sync_at : option Z;
  i_status : string;
  i_is_active : bool;
  i_updated_at : Z }.

(** A row of table [users]. *)
Record User := {
  u_id : string;
  u_company_id : string;
  u_is_owner : bool;
  u_is_admin : bool }.

(** ** The remote interfaces *)

Inductive SyncParams :=
| Incremental (syncToken : string)
| FullWindow (timeMin timeMax : Z).

Record EventBody := {
  b_summary : string;
  b_description : option string;
  b_start : option string;
  b_end : option string;
  b_timeZone : option string;
  b_location : option string;
  b_attendees : list (option string);
  b_conferenceRequestId : option string }.

(** The requests the service sends.  [InsertEvent] also records the key of
    the appointment the body was built from. *)
Inductive Request :=
| ListEvents (calendarId accessToken : string) (params : SyncParams)
| InsertEvent (calendarId accessToken : string) (body : EventBody)
              (appointmentId : string)
| GetEvent (calendarId eventId accessToken : string)
| RefreshGrant (refreshToken clientId clientSecret : string).

Record EventsData := {
  items : option (list GoogleEvent);
  nextSyncToken : option string }.

Record TokenJson := {
  access_token : string;
  refresh_token : option string;
  expires_in : option Z;                (* None: absent, or not a number *)
  error_description : option string;
  error : option string }.

Inductive HttpResult (A : Type) :=
| NetworkError (message : string)
| Reply (status : Z) (text : string) (json : A).

Arguments NetworkError {A} message.
Arguments Reply {A} status text json.

(** What [response.json()] makes of a body: the value it parses to, or
    the message of the [SyntaxError] it throws for a body that is not
    JSON. *)
Inductive Parsed (A : Type) :=
| Json (value : A)
| NotJson (message : string).

Arguments Json {A} value.
Arguments NotJson {A} message.

(** [response.ok] *)
Definition ok (status : Z) : bool := (200 <=? status) && (status <=? 299).

Definition statusOf {A} (r : HttpResult A) : option Z :=
  match r with
  | NetworkError _ => None
  | Reply s _ _ => Some s
  end.

(** ** Statements sent to the store *)

Inductive DbQuery :=
| SelectActiveIntegrations
| UpdateSyncData (integrationId syncToken : string)
| UpdateTokens (integrationId accessToken : string)
               (refreshToken : option string) (expiresAt : Z)
| MarkError (integrationId : string)
| SelectAdmin (companyId : string)
| UpsertAppointment (d : AppointmentData)
| SelectByGoogleEventId (companyId googleEventId : string)
| CancelAppointment (appointmentId : string)
| SelectUnsynced (companyId googleCalendarId : string)
| SetGoogleEventId (appointmentId googleEventId : string)
                   (meetLink : option string)
| SelectSynced (companyId : string).

(** ** The chronicle *)

Inductive LogLine :=
| RateLimitReached (currentRequests : nat) (timeToWaitMs : option Z)
| RateLimitedWaiting (timeToWait : option Z)
| RetryAttempt (attempt maxRetries delay : Z)
| SyncStart (integrationId : string)
| Phase1
| Phase2
| Phase3
| SyncComplete (eventsProcessed : Z)
| SyncFailed (message : string)
| OrphanCleanupSkipped
| BatchComplete (processed success errors : Z)
| NoActiveIntegrations
| FatalBatchError (message : string).

Inductive Event :=
| Sleep (delay : option Z)
| Fetch (req : Request) (status : option Z)
| Query (q : DbQuery) (failure : option string)
| Log (l : LogLine).

(** ** The world *)

Record RateLimiter := {
  maxRequestsPerMinute : Z;
  windowSizeMs : Z;
  requests : list Z;
  enabled : bool }.

Record Env := {
  listReply : nat -> HttpResult EventsData;
  insertReply : nat -> HttpResult GoogleEvent;
  getReply : nat -> HttpResult unit;
  tokenReply : nat -> HttpResult (Parsed TokenJson);
  dbError : nat -> option string;
  mathRandom : nat -> Z;                (* numerator over 2^53 *)
  genId : nat -> string }.

Record World := {
  env : Env;
  clock : Z;
  limiter : RateLimiter;
  appointments : list Appointment;
  integrations : list Integration;
  users : list User;
  fetched : nat;
  queried : nat;
  drawn : nat;
  trace : list Event }.                 (* newest first *)

Definition setClock (t : Z) (w : World) : World :=
  {| env := env w; clock := t; limiter := limiter w;
     appointments := appointments w; integrations := integrations w;
     users := users w; fetched := fetched w; queried := queried w;
     drawn := drawn w; trace := trace w |}.

Definition setRequests (l : list Z) (w : World) : World :=
  {| env := env w; clock := clock w;
     limiter := {| maxRequestsPerMinute := maxRequestsPerMinute (limiter w);
                   windowSizeMs := windowSizeMs (limiter w);
                   requests := l;
                   enabled := enabled (limiter w) |};
     appointments := appointments w; integrations := integrations w;
     users := users w; fetched := fetched w; queried := queried w;
     drawn := drawn w; trace := trace w |}.

Definition setAppointments (l : list Appointment) (w : World) : World :=
  {| env := env w; clock := clock w; limiter := limiter w;
     appointments := l; integrations := integrations w;
     users := users w; fetched := fetched w; queried := queried w;
     drawn := drawn w; trace := trace w |}.

Definition setIntegrations (l : list Integration) (w : World) : World :=
  {| env := env w; clock := clock w; limiter := limiter w;
     appointments := appointments w; integrations := l;
     users := users w; fetched := fetched w; queried := queried w;
     drawn := drawn w; trace := trace w |}.

Definition countFetch (w : World) : World :=
  {| env := env w; clock := clock w; limiter := limiter w;
     appointments := appointments w; integrations := integrations w;
     users := users w; fetched := S (fetched w); queried := queried w;
     drawn := drawn w; trace := trace w |}.

Definition countQuery (w : World) : World :=
  {| env := env w; clock := clock w; limiter := limiter w;
     appointments := appointments w; integrations := integrations w;
     users := users w; fetched := fetched w; queried := S (queried w);
     drawn := drawn w; trace := trace w |}.

Definition countDraw (w : World) : World :=
  {| env := env w; clock := clock w; limiter := limiter w;
     appointments := appointments w; integrations := integrations w;
     users := users w; fetched := fetched w; queried := queried w;
     drawn := S (drawn w); trace := trace w |}.

Definition record (e : Event) (w : World) : World :=
  {| env := env w; clock := clock w; limiter := limiter w;
     appointments := appointments w; integrations := integrations w;
     users := users w; fetched := fetched w; queried := queried w;
     drawn := drawn w; trace := e :: trace w |}.

(** The chronicle in the order things happened. *)
Definition history (w : World) : list Event := rev (trace w).

(** ** The monad of asynchronous code *)

(** What a [throw] carries: an error object with its message, or
    [undefined]. *)
Inductive exn :=
| Error (message : string)
| Undefined.

Inductive outcome (A : Type) :=
| Ok (a : A)
| Throw (e : exn)
| Diverge.

Arguments Ok {A} a.
Arguments Throw {A} e.
Arguments Diverge {A}.

Definition M (A : Type) : Type := World -> outcome A * World.

Definition ret {A} (a : A) : M A := fun w => (Ok a, w).

Definition bind {A B} (m : M A) (k : A -> M B) : M B :=
  fun w =>
    match m w with
    | (Ok a, w') => k a w'
    | (Throw e, w') => (Throw e, w')
    | (Diverge, w') => (Diverge, w')
    end.

Definition throw {A} (e : exn) : M A := fun w => (Throw e, w).

Definition diverge {A} : M A := fun w => (Diverge, w).

(** [try { m } catch (error) { h error }] *)
Definition catch {A} (m : M A) (h : exn -> M A) : M A :=
  fun w =>
    match m w with
    | (Throw e, w') => h e w'
    | r => r
    end.

Declare Scope js_scope.
Delimit Scope js_scope with js.
Notation "x <- c1 ;; c2" := (bind c1 (fun x => c2))
  (at level 61, c1 at next level, right associativity) : js_scope.
Notation "c1 ;; c2" := (bind c1 (fun _ => c2))
  (at level 61, right associativity) : js_scope.
Open Scope js_scope.

Definition gets {A} (f : World -> A) : M A := fun w => (Ok (f w), w).

Definition modify (f : World -> World) : M unit := fun w => (Ok tt, f w).

Definition emit (e : Event) : M unit := modify (record e).

Definition log (l : LogLine) : M unit := emit (Log l).

(** [Date.now()] *)
Definition now : M Z := gets clock.

(** [await new Promise(resolve => setTimeout(resolve, delay))] *)
Definition setTimeout (delay : option Z) : M unit :=
  emit (Sleep delay) ;;
  modify (fun w => setClock (clock w + Js.timerDelay delay) w).

(** [error.message] in a handler: reading a property of [undefined]
    throws. *)
Definition messageOf (error : exn) : M string :=
  match error with
  | Error m => ret m
  | Undefined =>
      throw (Error "Cannot read properties of undefined (reading 'message')")
  end.

(** [for (const x of l) { body x }] *)
Fixpoint forOf {A} (l : list A) (body : A -> M unit) : M unit :=
  match l with
  | [] => ret tt
  | x :: t => body x ;; forOf t body
  end.

(** ** utils/rateLimiter *)

Definition inWindow (windowStart : Z) (requestTime : Z) : bool :=
  windowStart <? requestTime.

Definition canMakeRequest : M bool :=
  this <- gets limiter ;;
  if negb (enabled this) then ret true else
  now <- now ;;
  let windowStart := now - windowSizeMs this in
  let kept := filter (inWindow windowStart) (requests this) in
  modify (setRequests kept) ;;
  if maxRequestsPerMinute this <=? Z.of_nat (List.length kept) then
    let oldestRequest := Js.min kept in
    let timeToWait :=
      option_map (fun o => o + windowSizeMs this - now) oldestRequest in
    log (RateLimitReached (List.length kept) timeToWait) ;;
    ret false
  else ret true.

Definition recordRequest : M unit :=
  this <- gets limiter ;;
  if negb (enabled this) then ret tt else
  now <- now ;;
  modify (setRequests (requests this ++ [now])).

(** The body of the [while] loop of [waitForAvailability]: [fuel] bounds
    the iterations, and running out of it is divergence. *)
Fixpoint waitLoop (fuel : nat) : M unit :=
  match fuel with
  | O => diverge
  | S fuel' =>
      free <- canMakeRequest ;;
      if free then ret tt else
      now <- now ;;
      this <- gets limiter ;;
      let windowStart := now - windowSizeMs this in
      let oldestRequest :=
        Js.min (filter (inWindow windowStart) (requests this)) in
      let timeToWait :=
        Js.max 1000
          (option_map (fun o => o + windowSizeMs this - now) oldestRequest) in
      log (RateLimitedWaiting timeToWait) ;;
      setTimeout timeToWait ;;
      waitLoop fuel'
  end.

(** Each unsuccessful round ends with a sleep that lets the oldest
    recorded request leave the window, so one round per recorded request
    and one more is all the loop can use (see [waitLoop_fuel]). *)
Definition waitForAvailability : M unit :=
  fun w => waitLoop (S (List.length (requests (limiter w)))) w.

Definition makeRequest {A} (requestFn : M A) : M A :=
  waitForAvailability ;;
  recordRequest ;;
  catch requestFn (fun error => _ <- messageOf error ;; throw error).

(** ** services/supabaseService *)

(** One statement sent to the store: the oracle tells whether it comes
    back with an error. *)
Definition supabase (q : DbQuery) : M (option string) :=
  fun w =>
    let failure := dbError (env w) (queried w) in
    (Ok failure, record (Query q failure) (countQuery w)).

(** [ORDER BY]: a stable insertion sort. *)
Section Ordering.
Variable A : Type.
Variable before : A -> A -> bool.

Fixpoint insertBy (x : A) (l : list A) : list A :=
  match l with
  | [] => [x]
  | y :: t => if before x y then x :: y :: t else y :: insertBy x t
  end.

Fixpoint orderBy (l : list A) : list A :=
  match l with
  | [] => []
  | x :: t => insertBy x (orderBy t)
  end.
End Ordering.

Definition ascending (a b : Appointment) : bool :=
  a_created_at a <=? a_created_at b.

Definition descending (a b : Appointment) : bool :=
  a_created_at b <=? a_created_at a.

Definition isNull {A} (o : option A) : bool :=
  match o with
  | Some _ => false
  | None => true
  end.

(** [.eq(column, value)] on a nullable text column *)
Definition eqCol (o : option string) (v : string) : bool :=
  match o with
  | Some s => String.eqb s v
  | None => false
  end.

Definition eligible (i : Integration) : bool :=
  i_is_active i && String.eqb (i_status i) "connected" && i_sync_enabled i
  && negb (isNull (i_access_token i)).

Definition getActiveGoogleCalendarIntegrations : M (list Integration) :=
  failure <- supabase SelectActiveIntegrations ;;
  match failure with
  | Some _ => ret []
  | None => rows <- gets integrations ;; ret (filter eligible rows)
  end.

Definition updateWhere {A} (key : A -> string) (k : string) (f : A -> A)
    (table : list A) : list A :=
  map (fun r => if String.eqb (key r) k then f r else r) table.

Definition withSyncData (syncToken : string) (t : Z) (i : Integration)
    : Integration :=
  {| i_id := i_id i; i_company_id := i_company_id i;
     i_client_id := i_client_id i; i_client_secret := i_client_secret i;
     i_access_token := i_access_token i;
     i_refresh_token := i_refresh_token i;
     i_token_expires_at := i_token_expires_at i;
     i_calendar_id := i_calendar_id i; i_timezone := i_timezone i;
     i_auto_create_meet := i_auto_create_meet i;
     i_sync_enabled := i_sync_enabled i;
     i_sync_token := Some syncToken;
     i_last_sync_at := Some t;
     i_status := i_status i; i_is_active := i_is_active i;
     i_updated_at := t |}.

Definition updateIntegrationSyncData (integrationId syncToken : string)
    : M bool :=
  t <- now ;;
  failure <- supabase (UpdateSyncData integrationId syncToken) ;;
  match failure with
  | Some _ => ret false
  | None =>
      modify (fun w =>
        setIntegrations
          (updateWhere i_id integrationId (withSyncData syncToken t)
             (integrations w)) w) ;;
      ret true
  end.

Record Tokens := {
  t_access_token : string;
  t_refresh_token : option string;
  t_expires_in : option Z }.

Definition withTokens (accessToken : string) (refreshToken : option string)
    (expiresAt t : Z) (i : Integration) : Integration :=
  {| i_id := i_id i; i_company_id := i_company_id i;
     i_client_id := i_client_id i; i_client_secret := i_client_secret i;
     i_access_token := Some accessToken;
     i_refresh_token :=
       match refreshToken with
       | Some r => Some r
       | None => i_refresh_token i
       end;
     i_token_expires_at := Some expiresAt;
     i_calendar_id := i_calendar_id i; i_timezone := i_timezone i;
     i_auto_create_meet := i_auto_create_meet i;
     i_sync_enabled := i_sync_enabled i;
     i_sync_token := i_sync_token i;
     i_last_sync_at := i_last_sync_at i;
     i_status := i_status i; i_is_active := i_is_active i;
     i_updated_at := t |}.

(** The time [new Date(Date.now() + expires_in * 1000)] holds, if it is
    a valid date: [expires_in] absent makes the sum [NaN]. *)
Definition expiryDate (t : Z) (expiresIn : option Z) : option Z :=
  match expiresIn with
  | Some seconds =>
      if Js.validTime (t + seconds * 1000) then Some (t + seconds * 1000)
      else None
  | None => None
  end.

(** The statement's values are computed before it is sent, inside the
    [try]: [expiresAt.toISOString()] throws for an invalid date, and the
    handler answers [false]. *)
Definition updateIntegrationTokens (integrationId : string) (tokens : Tokens)
    : M bool :=
  t <- now ;;
  match expiryDate t (t_expires_in tokens) with
  | None => ret false
  | Some expiresAt =>
      let refreshToken :=
        if Js.truthy (t_refresh_token tokens) then t_refresh_token tokens
        else None in
      failure <- supabase (UpdateTokens integrationId (t_access_token tokens)
                             refreshToken expiresAt) ;;
      match failure with
      | Some _ => ret false
      | None =>
          modify (fun w =>
            setIntegrations
              (updateWhere i_id integrationId
                 (withTokens (t_access_token tokens) refreshToken expiresAt t)
                 (integrations w)) w) ;;
          ret true
      end
  end.

Definition withIntegrationStatus (s : string) (t : Z) (i : Integration)
    : Integration :=
  {| i_id := i_id i; i_company_id := i_company_id i;
     i_client_id := i_client_id i; i_client_secret := i_client_secret i;
     i_access_token := i_access_token i;
     i_refresh_token := i_refresh_token i;
     i_token_expires_at := i_token_expires_at i;
     i_calendar_id := i_calendar_id i; i_timezone := i_timezone i;
     i_auto_create_meet := i_auto_create_meet i;
     i_sync_enabled := i_sync_enabled i;
     i_sync_token := i_sync_token i;
     i_last_sync_at := i_last_sync_at i;
     i_status := s; i_is_active := i_is_active i;
     i_updated_at := t |}.

Definition markIntegrationAsError (integrationId errorMessage : string)
    : M bool :=
  t <- now ;;
  failure <- supabase (MarkError integrationId) ;;
  match failure with
  | Some _ => ret false
  | None =>
      modify (fun w =>
        setIntegrations
          (updateWhere i_id integrationId (withIntegrationStatus "error" t)
             (integrations w)) w) ;;
      ret true
  end.

Definition isAdminOf (companyId : string) (u : User) : bool :=
  String.eqb (u_company_id u) companyId && (u_is_owner u || u_is_admin u).

Definition getCompanyAdminUser (companyId : string) : M (option string) :=
  failure <- supabase (SelectAdmin companyId) ;;
  match failure with
  | Some _ => ret None
  | None =>
      rows <- gets users ;;
      match filter (isAdminOf companyId) rows with
      | [] => ret None
      | u :: _ =>
          ret (if String.eqb (u_id u) EmptyString then None else Some (u_id u))
      end
  end.

Definition withCreatedBy (owner : string) (d : AppointmentData)
    : AppointmentData :=
  {| d_company_id := d_company_id d; d_title := d_title d;
     d_description := d_description d; d_start_time := d_start_time d;
     d_end_time := d_end_time d; d_location := d_location d;
     d_google_event_id := d_google_event_id d;
     d_google_calendar_id := d_google_calendar_id d;
     d_google_meet_link := d_google_meet_link d;
     d_attendees := d_attendees d; d_all_day := d_all_day d;
     d_status := d_status d; d_id := d_id d;
     d_created_by := Some owner; d_created_at := d_created_at d |}.

(** The column a payload field lands in: a defined field replaces the
    stored value, an undefined one leaves it. *)
Definition put {A} (new : option A) (old : option A) : option A :=
  match new with
  | Some v => Some v
  | None => old
  end.

Definition putOr {A} (new : option A) (old : A) : A :=
  match new with
  | Some v => v
  | None => old
  end.

(** [ON CONFLICT (company_id, google_event_id) DO UPDATE]: every column
    the payload carries is assigned; the others keep their value. *)
Definition merge (d : AppointmentData) (r : Appointment) : Appointment :=
  {| a_id := putOr (d_id d) (a_id r);
     a_company_id := d_company_id d;
     a_title := d_title d;
     a_description := put (d_description d) (a_description r);
     a_start_time := put (d_start_time d) (a_start_time r);
     a_end_time := put (d_end_time d) (a_end_time r);
     a_location := put (d_location d) (a_location r);
     a_google_event_id := Some (d_google_event_id d);
     a_google_calendar_id := Some (d_google_calendar_id d);
     a_google_meet_link := put (d_google_meet_link d) (a_google_meet_link r);
     a_attendees := Some (d_attendees d);
     a_all_day := d_all_day d;
     a_status := d_status d;
     a_created_by := putOr (d_created_by d) (a_created_by r);
     a_created_at := putOr (d_created_at d) (a_created_at r);
     a_updated_at := a_updated_at r |}.

(** The row an insertion creates: absent columns take the table's
    defaults (a generated key, the current time, null). *)
Definition inserted (fresh : string) (t : Z) (d : AppointmentData)
    : Appointment :=
  {| a_id := putOr (d_id d) fresh;
     a_company_id := d_company_id d;
     a_title := d_title d;
     a_description := d_description d;
     a_start_time := d_start_time d;
     a_end_time := d_end_time d;
     a_location := d_location d;
     a_google_event_id := Some (d_google_event_id d);
     a_google_calendar_id := Some (d_google_calendar_id d);
     a_google_meet_link := d_google_meet_link d;
     a_attendees := Some (d_attendees d);
     a_all_day := d_all_day d;
     a_status := d_status d;
     a_created_by := putOr (d_created_by d) EmptyString;
     a_created_at := putOr (d_created_at d) t;
     a_updated_at := t |}.

Definition sameKey (companyId googleEventId : string) (r : Appointment)
    : bool :=
  String.eqb (a_company_id r) companyId
  && eqCol (a_google_event_id r) googleEventId.

Definition conflicts (d : AppointmentData) (r : Appointment) : bool :=
  sameKey (d_company_id d) (d_google_event_id d) r.

Definition mergeInto (d : AppointmentData) (table : list Appointment)
    : list Appointment :=
  map (fun r => if conflicts d r then merge d r else r) table.

Definition keyTaken (d : AppointmentData) (table : list Appointment) : bool :=
  match d_id d with
  | Some k => existsb (fun r => String.eqb (a_id r) k) table
  | None => false
  end.

Definition upsertAppointment (appointmentData : AppointmentData)
    : M Appointment :=
  catch
    (d <- (if negb (Js.truthy (d_created_by appointmentData)) then
             adminUserId <- getCompanyAdminUser (d_company_id appointmentData) ;;
             match adminUserId with
             | Some owner => ret (withCreatedBy owner appointmentData)
             | None =>
                 ret (withCreatedBy "00000000-0000-0000-0000-000000000000"
                        appointmentData)
             end
           else ret appointmentData) ;;
     t <- now ;;
     fresh <- gets (fun w => genId (env w) (queried w)) ;;
     failure <- supabase (UpsertAppointment d) ;;
     match failure with
     | Some m => throw (Error m)
     | None =>
         conflict <- gets (fun w => find (conflicts d) (appointments w)) ;;
         match conflict with
         | Some r =>
             modify (fun w =>
               setAppointments (mergeInto d (appointments w)) w) ;;
             ret (merge d r)
         | None =>
             taken <- gets (fun w => keyTaken d (appointments w)) ;;
             if taken then
               throw (Error "duplicate key value violates unique constraint")
             else
               modify (fun w =>
                 setAppointments (appointments w ++ [inserted fresh t d]) w) ;;
               ret (inserted fresh t d)
         end
     end)
    (fun error => throw error).

Definition getAppointmentByGoogleEventId (companyId googleEventId : string)
    : M (option Appointment) :=
  failure <- supabase (SelectByGoogleEventId companyId googleEventId) ;;
  match failure with
  | Some _ => ret None
  | None =>
      table <- gets appointments ;;
      match filter (sameKey companyId googleEventId) table with
      | [r] => ret (Some r)
      | _ => ret None
      end
  end.

Definition withStatus (s : string) (t : Z) (r : Appointment) : Appointment :=
  {| a_id := a_id r; a_company_id := a_company_id r; a_title := a_title r;
     a_description := a_description r; a_start_time := a_start_time r;
     a_end_time := a_end_time r; a_location := a_location r;
     a_google_event_id := a_google_event_id r;
     a_google_calendar_id := a_google_calendar_id r;
     a_google_meet_link := a_google_meet_link r;
     a_attendees := a_attendees r; a_all_day := a_all_day r;
     a_status := s; a_created_by := a_created_by r;
     a_created_at := a_created_at r; a_updated_at := t |}.

Definition cancelAppointment (appointmentId : string) : M bool :=
  t <- now ;;
  failure <- supabase (CancelAppointment appointmentId) ;;
  match failure with
  | Some _ => ret false
  | None =>
      modify (fun w =>
        setAppointments
          (updateWhere a_id appointmentId (withStatus "cancelled" t)
             (appointments w)) w) ;;
      ret true
  end.

Definition unsynced (companyId googleCalendarId : string) (r : Appointment)
    : bool :=
  String.eqb (a_company_id r) companyId
  && eqCol (a_google_calendar_id r) googleCalendarId
  && isNull (a_google_event_id r)
  && negb (String.eqb (a_status r) "cancelled").

(** The rows the query of phase A selects. *)
Definition selectUnsynced (companyId googleCalendarId : string)
    (table : list Appointment) : list Appointment :=
  orderBy ascending (filter (unsynced companyId googleCalendarId) table).

Definition getUnsyncedLocalAppointments (companyId googleCalendarId : string)
    : M (list Appointment) :=
  failure <- supabase (SelectUnsynced companyId googleCalendarId) ;;
  match failure with
  | Some m => throw (Error m)
  | None =>
      table <- gets appointments ;;
      ret (selectUnsynced companyId googleCalendarId table)
  end.

Definition withGoogleEventId (googleEventId : string)
    (googleMeetLink : option string) (t : Z) (r : Appointment) : Appointment :=
  {| a_id := a_id r; a_company_id := a_company_id r; a_title := a_title r;
     a_description := a_description r; a_start_time := a_start_time r;
     a_end_time := a_end_time r; a_location := a_location r;
     a_google_event_id := Some googleEventId;
     a_google_calendar_id := a_google_calendar_id r;
     a_google_meet_link :=
       if Js.truthy googleMeetLink then googleMeetLink
       else a_google_meet_link r;
     a_attendees := a_attendees r; a_all_day := a_all_day r;
     a_status := a_status r; a_created_by := a_created_by r;
     a_created_at := a_created_at r; a_updated_at := t |}.

Definition updateAppointmentWithGoogleEventId
    (appointmentId googleEventId : string) (googleMeetLink : option string)
    : M unit :=
  t <- now ;;
  failure <- supabase (SetGoogleEventId appointmentId googleEventId
                         (if Js.truthy googleMeetLink then googleMeetLink
                          else None)) ;;
  match failure with
  | Some m => throw (Error m)
  | None =>
      modify (fun w =>
        setAppointments
          (updateWhere a_id appointmentId
             (withGoogleEventId googleEventId googleMeetLink t)
             (appointments w)) w)
  end.

Definition synced (companyId : string) (r : Appointment) : bool :=
  String.eqb (a_company_id r) companyId
  && negb (isNull (a_google_event_id r))
  && negb (String.eqb (a_status r) "cancelled").

(** The rows the query of phase C selects: [ORDER BY created_at DESC
    LIMIT 100]. *)
Definition selectSynced (companyId : string) (table : list Appointment)
    : list Appointment :=
  firstn 100 (orderBy descending (filter (synced companyId) table)).

(** The query selects the columns [id, title, google_event_id,
    google_calendar_id, created_at]; the caller reads no other. *)
Definition getSyncedAppointments (companyId : string)
    (googleCalendarId : option string) : M (list Appointment) :=
  failure <- supabase (SelectSynced companyId) ;;
  match failure with
  | Some m => throw (Error m)
  | None =>
      table <- gets appointments ;;
      ret (selectSynced companyId table)
  end.

(** ** services/googleCalendarSync *)

Record Service := {
  retryAttempts : Z;
  retryDelay : Z;
  syncTimeout : Z;
  maxCompaniesPerBatch : Z }.

Record Response (A : Type) := {
  status : Z;
  text : string;
  json : A }.

(** [await fetch(url, ...)]: the next reply of the endpoint's oracle; a
    network failure rejects. *)
Definition fetch {A} (endpoint : Env -> nat -> HttpResult A) (req : Request)
    : M (Response A) :=
  fun w =>
    let r := endpoint (env w) (fetched w) in
    let w' := record (Fetch req (statusOf r)) (countFetch w) in
    match r with
    | NetworkError m => (Throw (Error m), w')
    | Reply s t j => (Ok {| status := s; text := t; json := j |}, w')
    end.

(** [await response.json()] *)
Definition responseJson {A} (response : Response (Parsed A)) : M A :=
  match json response with
  | Json value => ret value
  | NotJson message => throw (Error message)
  end.

Definition persistentMessage (message : string) : bool :=
  Js.includes message "410"
  || Js.includes message "404"
  || Js.includes message "401"
  || Js.includes message "403"
  || Js.includes message "invalid_grant"
  || Js.includes message "token_revoked".

Definition isPersistentError (error : exn) : M bool :=
  message <- messageOf error ;;
  ret (persistentMessage (Js.toLowerCase message)).

(** [categorizeAndRecordError] only feeds the metrics; what remains of it
    is the read of [error.message]. *)
Definition categorizeAndRecordError (error : exn) : M unit :=
  _ <- messageOf error ;; ret tt.

(** The [for] loop of [withRetry] from index [i], with [rounds] iterations
    left before [i < maxRetries] fails. *)
Fixpoint retryLoop {A} (this : Service) (fn : M A) (maxRetries : Z)
    (rounds : nat) (i : Z) (lastError : exn) : M A :=
  match rounds with
  | O => throw lastError
  | S rounds' =>
      catch fn (fun error =>
        persistent <- isPersistentError error ;;
        if persistent || (i =? maxRetries - 1) then throw error
        else
          let delay := retryDelay this * (i + 1) in
          log (RetryAttempt (i + 1) maxRetries delay) ;;
          setTimeout (Some delay) ;;
          retryLoop this fn maxRetries rounds' (i + 1) error)
  end.

Definition withRetry {A} (this : Service) (fn : M A) (maxRetries : Z) : M A :=
  retryLoop this fn maxRetries (Z.to_nat maxRetries) 0 Undefined.

Definition apiError (status : Z) (errorText : string) : exn :=
  Error ("Google Calendar API error: " ++ Js.show status ++ " - " ++ errorText).

Definition attendeeEmails (attendees : option (list Attendee))
    : list (option string) :=
  match attendees with
  | Some l => map email l
  | None => []
  end.

Definition createGoogleEvent (this : Service) (appointment : Appointment)
    (integration : Integration) (accessToken : string) : M GoogleEvent :=
  requestId <-
    (if i_auto_create_meet integration then
       t <- now ;;
       ret (Some ("meet-" ++ Js.show t ++ "-" ++ a_id appointment)%string)
     else ret None) ;;
  let googleEvent :=
    {| b_summary := a_title appointment;
       b_description := a_description appointment;
       b_start := a_start_time appointment;
       b_end := a_end_time appointment;
       b_timeZone := i_timezone integration;
       b_location := a_location appointment;
       b_attendees := attendeeEmails (a_attendees appointment);
       b_conferenceRequestId := requestId |} in
  makeRequest
    (withRetry this
       (response <- fetch insertReply
                      (InsertEvent (i_calendar_id integration) accessToken
                         googleEvent (a_id appointment)) ;;
        if negb (ok (status response)) then
          throw (apiError (status response) (text response))
        else ret (json response))
       (retryAttempts this)).

(** The body of the loop of phase A. *)
Definition pushAppointment (this : Service) (integration : Integration)
    (accessToken : string) (appointment : Appointment) : M unit :=
  catch
    (googleEvent <- createGoogleEvent this appointment integration accessToken ;;
     updateAppointmentWithGoogleEventId (a_id appointment) (g_id googleEvent)
       (g_meet_uri googleEvent))
    (fun error => _ <- messageOf error ;; ret tt).

Definition syncLocalAppointmentsToGoogle (this : Service)
    (integration : Integration) (accessToken : string) : M unit :=
  catch
    (unsyncedAppointments <-
       getUnsyncedLocalAppointments (i_company_id integration)
         (i_calendar_id integration) ;;
     match unsyncedAppointments with
     | [] => ret tt
     | _ => forOf unsyncedAppointments
              (pushAppointment this integration accessToken)
     end)
    (fun error => _ <- messageOf error ;; ret tt).

Definition buildSyncParams (integration : Integration) : M SyncParams :=
  match i_sync_token integration with
  | Some token =>
      if String.eqb token EmptyString then
        t <- now ;;
        ret (FullWindow (t - 30 * 24 * 60 * 60 * 1000)
               (t + 365 * 24 * 60 * 60 * 1000))
      else ret (Incremental token)
  | None =>
      t <- now ;;
      ret (FullWindow (t - 30 * 24 * 60 * 60 * 1000)
             (t + 365 * 24 * 60 * 60 * 1000))
  end.

Definition fetchGoogleCalendarEvents (this : Service)
    (accessToken calendarId : string) (syncParams : SyncParams)
    : M EventsData :=
  makeRequest
    (withRetry this
       (response <- fetch listReply
                      (ListEvents calendarId accessToken syncParams) ;;
        if negb (ok (status response)) then
          throw (apiError (status response) (text response))
        else ret (json response))
       (retryAttempts this)).

Definition parseAttendees (googleAttendees : option (list Attendee))
    : list Attendee :=
  match googleAttendees with
  | Some l =>
      map (fun attendee =>
             {| email := email attendee;
                displayName := displayName attendee;
                responseStatus := responseStatus attendee |}) l
  | None => []
  end.

Definition undefinedProperty {A} (name : string) : M A :=
  throw (Error ("Cannot read properties of undefined (reading '"
                ++ name ++ "')")).

Definition upsertAppointmentFromGoogleEvent (companyId : string)
    (googleEvent : GoogleEvent) : M unit :=
  existingAppointment <-
    getAppointmentByGoogleEventId companyId (g_id googleEvent) ;;
  let eventTitle := Js.orElse (g_summary googleEvent) "Evento sem título" in
  match g_start googleEvent with
  | None => undefinedProperty "dateTime"
  | Some start =>
      match g_end googleEvent with
      | None => undefinedProperty "dateTime"
      | Some finish =>
          let appointmentData :=
            {| d_company_id := companyId;
               d_title := eventTitle;
               d_description := g_description googleEvent;
               d_start_time := Js.or (dateTime start) (date start);
               d_end_time := Js.or (dateTime finish) (date finish);
               d_location := g_location googleEvent;
               d_google_event_id := g_id googleEvent;
               d_google_calendar_id :=
                 Js.orElse (g_organizer_email googleEvent) "primary";
               d_google_meet_link := g_meet_uri googleEvent;
               d_attendees := parseAttendees (g_attendees googleEvent);
               d_all_day := negb (Js.truthy (dateTime start));
               d_status := "scheduled";
               d_id := option_map a_id existingAppointment;
               d_created_by := option_map a_created_by existingAppointment;
               d_created_at := option_map a_created_at existingAppointment |} in
          _ <- upsertAppointment appointmentData ;;
          ret tt
      end
  end.

Definition processGoogleEvent (companyId : string) (googleEvent : GoogleEvent)
    : M unit :=
  catch
    (if eqCol (g_status googleEvent) "cancelled" then
       existingAppointment <-
         getAppointmentByGoogleEventId companyId (g_id googleEvent) ;;
       match existingAppointment with
       | Some existing => _ <- cancelAppointment (a_id existing) ;; ret tt
       | None => ret tt
       end
     else upsertAppointmentFromGoogleEvent companyId googleEvent)
    (fun error => _ <- messageOf error ;; ret tt).

Definition itemsOf (eventsData : EventsData) : list GoogleEvent :=
  match items eventsData with
  | Some l => l
  | None => []
  end.

(** Phase B. *)
Definition syncGoogleEventsToLocal (this : Service)
    (integration : Integration) (accessToken : string) : M Z :=
  syncParams <- buildSyncParams integration ;;
  eventsData <- fetchGoogleCalendarEvents this accessToken
                  (i_calendar_id integration) syncParams ;;
  forOf (itemsOf eventsData) (processGoogleEvent (i_company_id integration)) ;;
  let eventsProcessed := Z.of_nat (List.length (itemsOf eventsData)) in
  match nextSyncToken eventsData with
  | Some token =>
      if String.eqb token EmptyString then ret eventsProcessed
      else
        _ <- updateIntegrationSyncData (i_id integration) token ;;
        ret eventsProcessed
  | None => ret eventsProcessed
  end.

(** Template rendering of a possibly null text. *)
Definition render (o : option string) : string :=
  match o with
  | Some s => s
  | None => "null"
  end.

(** The operation [checkGoogleEventExists] hands to [withRetry]: one
    existence probe. *)
Definition existenceProbe (googleEventId calendarId accessToken : string)
    : M bool :=
  response <- fetch getReply
                (GetEvent calendarId googleEventId accessToken) ;;
  if status response =? 404 then ret false
  else if status response =? 410 then ret false
  else if negb (ok (status response)) then
    throw (apiError (status response) (text response))
  else ret true.

Definition checkGoogleEventExists (this : Service)
    (googleEventId calendarId accessToken : string) : M bool :=
  makeRequest
    (withRetry this (existenceProbe googleEventId calendarId accessToken)
       (retryAttempts this)).

(** [Math.random()]: the oracle gives the numerator [k] of [k / 2^53]. *)
Definition mathRandomDraw : M Z :=
  fun w => (Ok (mathRandom (env w) (drawn w)), countDraw w).

(** [x < 0.1] for [x = k / 2^53]; the double nearest to one tenth is
    [3602879701896397 / 2^55]. *)
Definition belowOneTenth (k : Z) : bool := 4 * k <? 3602879701896397.

(** The body of the loop of phase C. *)
Definition sweepAppointment (this : Service) (integration : Integration)
    (accessToken : string) (appointment : Appointment) : M unit :=
  catch
    (eventExists <-
       checkGoogleEventExists this (render (a_google_event_id appointment))
         (i_calendar_id integration) accessToken ;;
     if negb eventExists then
       _ <- cancelAppointment (a_id appointment) ;; ret tt
     else ret tt)
    (fun error => _ <- messageOf error ;; ret tt).

(** Phase C. *)
Definition cleanupOrphanedAppointments (this : Service)
    (integration : Integration) (accessToken : string) : M unit :=
  catch
    (k <- mathRandomDraw ;;
     if negb (belowOneTenth k) then log OrphanCleanupSkipped
     else
       appointmentsWithGoogleId <-
         getSyncedAppointments (i_company_id integration)
           (Some (i_calendar_id integration)) ;;
       match appointmentsWithGoogleId with
       | [] => ret tt
       | _ => forOf appointmentsWithGoogleId
                (sweepAppointment this integration accessToken)
       end)
    (fun error => _ <- messageOf error ;; ret tt).

Definition refreshAccessToken (this : Service)
    (refreshToken clientId clientSecret : string) : M TokenJson :=
  withRetry this
    (response <- fetch tokenReply
                   (RefreshGrant refreshToken clientId clientSecret) ;;
     if negb (ok (status response)) then
       errorData <- responseJson response ;;
       throw (Error ("Token refresh failed: "
                     ++ match Js.or (error_description errorData)
                                    (error errorData) with
                        | Some s => s
                        | None => "undefined"
                        end))
     else responseJson response)
    (retryAttempts this).

Definition fiveMinutes : Z := 5 * 60 * 1000.

Definition ensureValidToken (this : Service) (integration : Integration)
    : M string :=
  if negb (Js.truthy (i_access_token integration)) then
    throw (Error "No access token available")
  else
    t <- now ;;
    let expiresAt := putOr (i_token_expires_at integration) 0 in
    let fiveMinutesFromNow := t + fiveMinutes in
    if expiresAt <=? fiveMinutesFromNow then
      if negb (Js.truthy (i_refresh_token integration)) then
        throw (Error "No refresh token available")
      else
        newTokens <- refreshAccessToken this
                       (render (i_refresh_token integration))
                       (i_client_id integration)
                       (i_client_secret integration) ;;
        _ <- updateIntegrationTokens (i_id integration)
               {| t_access_token := access_token newTokens;
                  t_refresh_token :=
                    Js.or (refresh_token newTokens)
                      (i_refresh_token integration);
                  t_expires_in := expires_in newTokens |} ;;
        ret (access_token newTokens)
    else ret (render (i_access_token integration)).

Definition syncSingleIntegration (this : Service) (integration : Integration)
    : M Z :=
  log (SyncStart (i_id integration)) ;;
  catch
    (accessToken <- ensureValidToken this integration ;;
     log Phase1 ;;
     syncLocalAppointmentsToGoogle this integration accessToken ;;
     log Phase2 ;;
     eventsProcessed <-
       syncGoogleEventsToLocal this integration accessToken ;;
     log Phase3 ;;
     cleanupOrphanedAppointments this integration accessToken ;;
     log (SyncComplete eventsProcessed) ;;
     ret eventsProcessed)
    (fun error =>
       message <- messageOf error ;;
       log (SyncFailed message) ;;
       throw error).

Record Counts := {
  processedCount : Z;
  successCount : Z;
  errorCount : Z }.

(** The body of the batch loop. *)
Definition syncOne (this : Service) (integration : Integration)
    (c : Counts) : M Counts :=
  catch
    (_ <- syncSingleIntegration this integration ;;
     ret {| processedCount := processedCount c + 1;
            successCount := successCount c + 1;
            errorCount := errorCount c |})
    (fun error =>
       message <- messageOf error ;;
       categorizeAndRecordError error ;;
       persistent <- isPersistentError error ;;
       (if persistent then
          _ <- markIntegrationAsError (i_id integration) message ;; ret tt
        else ret tt) ;;
       ret {| processedCount := processedCount c + 1;
              successCount := successCount c;
              errorCount := errorCount c + 1 |}).

Fixpoint batchLoop (this : Service) (batchIntegrations : list Integration)
    (c : Counts) : M Counts :=
  match batchIntegrations with
  | [] => ret c
  | integration :: rest =>
      c' <- syncOne this integration c ;;
      batchLoop this rest c'
  end.

Definition syncAllIntegrations (this : Service) : M unit :=
  catch
    (integrations <- getActiveGoogleCalendarIntegrations ;;
     match integrations with
     | [] => log NoActiveIntegrations
     | _ =>
         let batchIntegrations :=
           Js.slice0 integrations (maxCompaniesPerBatch this) in
         c <- batchLoop this batchIntegrations
                {| processedCount := 0; successCount := 0; errorCount := 0 |} ;;
         log (BatchComplete (processedCount c) (successCount c) (errorCount c))
     end)
    (fun error =>
       message <- messageOf error ;;
       log (FatalBatchError message) ;;
       categorizeAndRecordError error).

(** ** Vocabulary of the statements *)

(** A computation relates every world to the world it leaves behind. *)
Definition keeps (R : World -> World -> Prop) {A} (m : M A) : Prop :=
  forall w, R w (snd (m w)).

(** The chronicle only grows, and by events that satisfy [P]. *)
Definition emitsOnly (P : Event -> Prop) (w w' : World) : Prop :=
  exists d, trace w' = d ++ trace w /\ Forall P d.

Definition sameIntegrations (w w' : World) : Prop :=
  integrations w' = integrations w.

Definition sameAppointments (w w' : World) : Prop :=
  appointments w' = appointments w.

(** What a relation between worlds has to put up with for the generic
    steps of the engine to keep it: it is a preorder, blind to the clock,
    the limiter's buffer and the oracles' counters, and it accepts the
    events in [P]. *)
Class Tolerates (R : World -> World -> Prop) (P : Event -> Prop) : Prop := {
  tol_refl : forall w, R w w;
  tol_trans : forall a b c, R a b -> R b c -> R a c;
  tol_clock : forall t w, R w (setClock t w);
  tol_requests : forall l w, R w (setRequests l w);
  tol_fetch : forall w, R w (countFetch w);
  tol_query : forall w, R w (countQuery w);
  tol_draw : forall w, R w (countDraw w);
  tol_record : forall e w, P e -> R w (record e w) }.

Class WritesAppointments (R : World -> World -> Prop) : Prop :=
  writes_appointments : forall l w, R w (setAppointments l w).

Class WritesIntegrations (R : World -> World -> Prop) : Prop :=
  writes_integrations : forall l w, R w (setIntegrations l w).

(** Events the statements single out. *)
Definition phaseLine (e : Event) : bool :=
  match e with
  | Log Phase1 | Log Phase2 | Log Phase3 => true
  | _ => false
  end.

Definition cursorWrite (e : Event) : bool :=
  match e with
  | Query (UpdateSyncData _ _) _ => true
  | _ => false
  end.

Definition insertionFor (appointmentId : string) (e : Event) : bool :=
  match e with
  | Fetch (InsertEvent _ _ _ a) _ => String.eqb a appointmentId
  | _ => false
  end.

Definition cancellation (e : Event) : bool :=
  match e with
  | Query (CancelAppointment _) _ => true
  | _ => false
  end.

Definition without (p : Event -> bool) (e : Event) : Prop := p e = false.

(** The phase lines a run has logged so far, oldest first. *)
Definition phases (w : World) : list Event := filter phaseLine (history w).

Definition startLine (e : Event) : bool :=
  match e with
  | Log (SyncStart _) => true
  | _ => false
  end.

Definition startedIn (l : list Event) : list string :=
  flat_map (fun e => match e with
                     | Log (SyncStart k) => [k]
                     | _ => []
                     end) l.

(** The integrations whose synchronisation has been started, in order. *)
Definition started (w : World) : list string := startedIn (history w).

(** How many times the cursor has been written so far. *)
Definition cursorWrites (w : World) : nat :=
  List.length (filter cursorWrite (trace w)).

(** The cursor a listing carries, if it carries one ([nextSyncToken] is
    truthy). *)
Definition newCursor (eventsData : EventsData) : option string :=
  match nextSyncToken eventsData with
  | Some token => if String.eqb token EmptyString then None else Some token
  | None => None
  end.

(** Every row with this key carries an external id. *)
Definition pushed (appointmentId : string) (w : World) : Prop :=
  forall a, In a (appointments w) -> a_id a = appointmentId ->
            a_google_event_id a <> None.

Definition staysPushed (appointmentId : string) (w w' : World) : Prop :=
  pushed appointmentId w -> pushed appointmentId w'.

(** What an existence probe answered with status [s] (no status: the
    request failed) makes of the check: gone, present, or an error. *)
Definition probeAnswer (s : option Z) (r : outcome bool) : Prop :=
  match s with
  | Some c =>
      if (c =? 404) || (c =? 410) then r = Ok false
      else if ok c then r = Ok true
      else exists message, r = Throw (Error message)
  | None => exists message, r = Throw (Error message)
  end.


Definition sleeping (e : Event) : bool :=
  match e with
  | Sleep _ => true
  | _ => false
  end.

Definition sleptIn (l : list Event) : list (option Z) :=
  flat_map (fun e => match e with
                     | Sleep d => [d]
                     | _ => []
                     end) l.

(** The delays the timers were asked for so far, oldest first. *)
Definition slept (w : World) : list (option Z) := sleptIn (history w).

(** The texts that mark an error as terminal. *)
Definition terminalMarks : list string :=
  ["404"; "410"; "401"; "403"; "invalid_grant"; "token_revoked"]%string.

(** The retry executor in the words of its specification: attempt the
    operation; on a terminal failure stop and propagate; on a transient
    failure sleep [baseDelay * attemptNumber] and retry if attempts
    remain; after the last attempt propagate the last error.  Attempts
    are numbered from 1. *)
Inductive Executes {A : Type} (this : Service) (op : M A) (maxAttempts : Z)
    : Z -> World -> outcome A -> World -> Prop :=
| executes_ok : forall n w a w',
    op w = (Ok a, w') ->
    Executes this op maxAttempts n w (Ok a) w'
| executes_terminal : forall n w message w',
    op w = (Throw (Error message), w') ->
    persistentMessage (Js.toLowerCase message) = true ->
    Executes this op maxAttempts n w (Throw (Error message)) w'
| executes_last : forall n w message w',
    op w = (Throw (Error message), w') ->
    n = maxAttempts ->
    Executes this op maxAttempts n w (Throw (Error message)) w'
| executes_retry : forall n w message w1 r w2,
    op w = (Throw (Error message), w1) ->
    persistentMessage (Js.toLowerCase message) = false ->
    n < maxAttempts ->
    Executes this op maxAttempts (n + 1)
      (snd ((log (RetryAttempt n maxAttempts (retryDelay this * n)) ;;
             setTimeout (Some (retryDelay this * n))) w1)) r w2 ->
    Executes this op maxAttempts n w r w2
| executes_hung : forall n w w',
    op w = (Diverge, w') ->
    Executes this op maxAttempts n w Diverge w'.

Definition markingError (e : Event) : bool :=
  match e with
  | Query (MarkError _) _ => true
  | _ => false
  end.

Definition rejectedWrite (e : Event) : bool :=
  match e with
  | Query (UpsertAppointment _) (Some _) => true
  | _ => false
  end.

Definition refreshGrant (e : Event) : bool :=
  match e with
  | Fetch (RefreshGrant _ _ _) _ => true
  | _ => false
  end.

(** How many refresh grants were requested. *)
Definition refreshing (l : list Event) : nat :=
  List.length (filter refreshGrant l).

Definition writingTokens (e : Event) : bool :=
  match e with
  | Query (UpdateTokens _ _ _ _) _ => true
  | _ => false
  end.

(** The limiter is usable: it has room for at least one request, its
    window fits a timer, and nothing was recorded in the future. *)
Definition Healthy (w : World) : Prop :=
  1 <= maxRequestsPerMinute (limiter w)
  /\ windowSizeMs (limiter w) <= 2147483647
  /\ Forall (fun t => t <= clock w) (requests (limiter w)).

(** How a computation may end. *)
Inductive Eff := Pure | Raises | RaisesAny.

Definition allowed {A} (E : Eff) (r : outcome A) : Prop :=
  match r with
  | Ok _ => True
  | Throw (Error _) => E <> Pure
  | Throw Undefined => E = RaisesAny
  | Diverge => False
  end.

Definition behaves (E : Eff) {A} (m : M A) : Prop :=
  forall w, Healthy w -> Healthy (snd (m w)) /\ allowed E (fst (m w)).

(** The timestamps still inside the window at the current time. *)
Definition inTrailingWindow (w : World) : list Z :=
  filter (inWindow (clock w - windowSizeMs (limiter w)))
         (requests (limiter w)).

(** One unsuccessful round of [waitForAvailability], after the failed
    check: the log line and the sleep. *)
Definition backOff (timeToWait : option Z) : M unit :=
  log (RateLimitedWaiting timeToWait) ;; setTimeout timeToWait.


(** ** Sample data *)

Module Sample.

Local Open Scope string_scope.

Definition service : Service :=
  {| retryAttempts := 3; retryDelay := 1000; syncTimeout := 30000;
     maxCompaniesPerBatch := 50 |}.

Definition freshLimiter (capacity : Z) : RateLimiter :=
  {| maxRequestsPerMinute := capacity; windowSizeMs := 60000;
     requests := []; enabled := true |}.

Definition integration : Integration :=
  {| i_id := "int-1"; i_company_id := "acme"; i_client_id := "client";
     i_client_secret := "secret"; i_access_token := Some "token-0";
     i_refresh_token := Some "refresh-0";
     i_token_expires_at := Some 9000000;
     i_calendar_id := "primary"; i_timezone := Some "UTC";
     i_auto_create_meet := false; i_sync_enabled := true;
     i_sync_token := None; i_last_sync_at := None;
     i_status := "connected"; i_is_active := true; i_updated_at := 0 |}.

Definition noEvents : EventsData := {| items := None; nextSyncToken := None |}.

Definition noTokens : TokenJson :=
  {| access_token := ""; refresh_token := None; expires_in := None;
     error_description := None; error := None |}.

(** Every endpoint answers with the same status and the body [boom],
    which is not JSON; the store never fails; [Math.random()] returns
    0, so the orphan sweep always runs. *)
Definition uniform (status : Z) (events : EventsData) : Env :=
  {| listReply := fun _ => Reply status "boom" events;
     insertReply := fun _ => NetworkError "fetch failed";
     getReply := fun _ => Reply status "boom" tt;
     tokenReply :=
       fun _ => Reply status "boom"
                  (NotJson "Unexpected token b in JSON at position 0");
     dbError := fun _ => None;
     mathRandom := fun _ => 0;
     genId := fun n => ("row-" ++ Js.show (Z.of_nat n))%string |}.

Definition world (e : Env) (capacity : Z) (table : list Appointment)
    : World :=
  {| env := e; clock := 1000000; limiter := freshLimiter capacity;
     appointments := table; integrations := [integration]; users := [];
     fetched := 0; queried := 0; drawn := 0; trace := [] |}.

Definition appointment (key externalId calendarId : string)
    (createdAt : Z) : Appointment :=
  {| a_id := key; a_company_id := "acme"; a_title := "Review";
     a_description := Some "quarterly"; a_start_time := Some "2025-01-10T10:00:00Z";
     a_end_time := Some "2025-01-10T11:00:00Z"; a_location := None;
     a_google_event_id := Some externalId;
     a_google_calendar_id := Some calendarId;
     a_google_meet_link := None; a_attendees := None; a_all_day := false;
     a_status := "scheduled"; a_created_by := "user-7";
     a_created_at := createdAt; a_updated_at := createdAt |}.

(** A synced appointment of another calendar of the same tenant, and a
    remote side that answers every probe 404. *)
Definition elsewhere : World :=
  world (uniform 404 noEvents) 300
    [appointment "appt-1" "ev-other" "team@example.com" 10].

(** The remote calendar is down: every call is answered 500. *)
Definition outage : World := world (uniform 500 noEvents) 300 [].

(** The remote calendar answers 200 with an empty listing. *)
Definition calm : World := world (uniform 200 noEvents) 300 [].

(** An empty limiter of capacity two. *)
Definition narrow : World := world (uniform 200 noEvents) 2 [].

Definition event (externalId : string) (description : option string)
    : GoogleEvent :=
  {| g_id := externalId; g_status := Some "confirmed";
     g_summary := Some "Review"; g_description := description;
     g_start := Some {| dateTime := Some "2025-02-01T09:00:00Z";
                        date := None |};
     g_end := Some {| dateTime := Some "2025-02-01T10:00:00Z";
                      date := None |};
     g_location := None; g_organizer_email := None; g_meet_uri := None;
     g_attendees := None |}.

(** A listing of two active events with a new cursor, and a store that
    rejects its third statement: the upsert of the first event. *)
Definition listing : EventsData :=
  {| items := Some [event "ev-1" None; event "ev-2" (Some "notes")];
     nextSyncToken := Some "cursor-2" |}.

Definition flaky : Env :=
  {| listReply := fun _ => Reply 200 "" listing;
     insertReply := fun _ => NetworkError "fetch failed";
     getReply := fun _ => Reply 200 "" tt;
     tokenReply := fun _ => Reply 200 "" (Json noTokens);
     dbError := fun n => if Nat.eqb n 2 then Some "write failed" else None;
     mathRandom := fun _ => 0;
     genId := fun n => ("row-" ++ Js.show (Z.of_nat n))%string |}.

Definition pulling : World := world flaky 300 [].

(** A local appointment that was cancelled, and the remote event with
    its external id, active and without a description. *)
Definition cancelled : Appointment :=
  withStatus "cancelled" 20
    (appointment "appt-1" "ev-other" "team@example.com" 10).

Definition revived : World := world (uniform 200 noEvents) 300 [cancelled].

(** An integration whose token expires in four minutes, one whose token
    expires in six, and a token endpoint that grants a new token without
    rotating the refresh token. *)
Definition expiringIn (minutes : Z) : Integration :=
  withTokens "token-0" (Some "refresh-0") (1000000 + minutes * 60 * 1000)
    0 integration.

Definition granted : TokenJson :=
  {| access_token := "token-1"; refresh_token := None;
     expires_in := Some 3600;
     error_description := None; error := None |}.

Definition granting : Env :=
  {| listReply := fun _ => Reply 200 "" noEvents;
     insertReply := fun _ => NetworkError "fetch failed";
     getReply := fun _ => Reply 200 "" tt;
     tokenReply := fun _ => Reply 200 "" (Json granted);
     dbError := fun _ => None;
     mathRandom := fun _ => 0;
     genId := fun n => ("row-" ++ Js.show (Z.of_nat n))%string |}.

Definition renewing : World :=
  setIntegrations [expiringIn 4] (world granting 300 []).

(** A token endpoint that answers with the given body. *)
Definition answering (body : Parsed TokenJson) : Env :=
  {| listReply := fun _ => Reply 200 "" noEvents;
     insertReply := fun _ => NetworkError "fetch failed";
     getReply := fun _ => Reply 200 "" tt;
     tokenReply := fun _ => Reply 200 "" body;
     dbError := fun _ => None;
     mathRandom := fun _ => 0;
     genId := fun n => ("row-" ++ Js.show (Z.of_nat n))%string |}.

(** A grant that rotates the refresh token, and one that carries no
    [expires_in]. *)
Definition rotated : TokenJson :=
  {| access_token := "token-1"; refresh_token := Some "refresh-1";
     expires_in := Some 3600;
     error_description := None; error := None |}.

Definition rotating : World :=
  setIntegrations [expiringIn 4] (world (answering (Json rotated)) 300 []).

Definition undated : TokenJson :=
  {| access_token := "token-1"; refresh_token := Some "refresh-1";
     expires_in := None;
     error_description := None; error := None |}.

Definition undating : World :=
  setIntegrations [expiringIn 4] (world (answering (Json undated)) 300 []).

(** An integration whose access token is the empty text. *)
Definition tokenless (minutes : Z) : Integration :=
  withTokens "" (Some "refresh-0") (1000000 + minutes * 60 * 1000)
    0 integration.

(** An operation that always times out, and one that always finds
    nothing. *)
Definition timingOut : M bool := throw (Error "timeout").

Definition notFound : M bool :=
  throw (Error "Google Calendar API error: 404 - Not Found").

Definition orphan : Appointment :=
  appointment "appt-1" "ev-other" "team@example.com" 10.

Definition noCounts : Counts :=
  {| processedCount := 0; successCount := 0; errorCount := 0 |}.

End Sample.


(** * The rest of the server

    The parts of the code base around the engine: the statistics of the
    rate limiter, the change report of the pull phase, the error
    categories, the performance monitor ([utils/performanceMonitor]), the
    logger's level filter ([utils/logger]) and the scheduled entry point
    of the server ([index.js]). *)

(** ** utils/rateLimiter: statistics *)

Record Stats := {
  s_enabled : bool;
  s_maxRequestsPerMinute : Z;
  s_currentRequests : Z;
  s_remainingRequests : Z;
  s_windowSizeMs : Z }.

Definition getStats : M Stats :=
  this <- gets limiter ;;
  now <- now ;;
  let windowStart := now - windowSizeMs this in
  let currentRequests :=
    Z.of_nat (List.length (filter (inWindow windowStart) (requests this))) in
  ret {| s_enabled := enabled this;
         s_maxRequestsPerMinute := maxRequestsPerMinute this;
         s_currentRequests := currentRequests;
         s_remainingRequests :=
           Z.max 0 (maxRequestsPerMinute this - currentRequests);
         s_windowSizeMs := windowSizeMs this |}.

(** A caller that sends [k] requests in a row through the limiter, each
    request noting the time at which it was let through. *)
Fixpoint acquisitions (k : nat) : M (list Z) :=
  match k with
  | O => ret []
  | S k' =>
      t <- makeRequest now ;;
      ts <- acquisitions k' ;;
      ret (t :: ts)
  end.

(** What a world keeps while the limiter waits: everything but the clock,
    the buffer and the chronicle. *)
Definition sameStore (w w' : World) : Prop :=
  env w' = env w
  /\ appointments w' = appointments w
  /\ integrations w' = integrations w
  /\ users w' = users w
  /\ fetched w' = fetched w
  /\ queried w' = queried w
  /\ drawn w' = drawn w
  /\ maxRequestsPerMinute (limiter w') = maxRequestsPerMinute (limiter w)
  /\ windowSizeMs (limiter w') = windowSizeMs (limiter w)
  /\ enabled (limiter w') = enabled (limiter w).


(** ** Vocabulary of the further statements *)

(** Every row of the integration carries status 'error'. *)
Definition errored (integrationId : string) (w : World) : Prop :=
  forall i, In i (integrations w) -> i_id i = integrationId ->
            i_status i = "error"%string.

Definition staysErrored (integrationId : string) (w w' : World) : Prop :=
  errored integrationId w -> errored integrationId w'.

(** The columns of an integration that identify and configure it, as
    opposed to the tokens, the cursor, the status and the timestamps. *)
Definition sameSettings (i i' : Integration) : Prop :=
  i_id i' = i_id i
  /\ i_company_id i' = i_company_id i
  /\ i_client_id i' = i_client_id i
  /\ i_client_secret i' = i_client_secret i
  /\ i_calendar_id i' = i_calendar_id i
  /\ i_timezone i' = i_timezone i
  /\ i_auto_create_meet i' = i_auto_create_meet i
  /\ i_sync_enabled i' = i_sync_enabled i
  /\ i_is_active i' = i_is_active i.

(** The same settings, and the same row altogether unless it is the row
    of this integration. *)
Definition keptExcept (integrationId : string) (i i' : Integration) : Prop :=
  sameSettings i i' /\ (i_id i <> integrationId -> i' = i).

(** The table of integrations before and after, row by row. *)
Definition rowwise (P : Integration -> Integration -> Prop) (w w' : World)
    : Prop :=
  Forall2 P (integrations w) (integrations w').

(** What [getCompanyAdminUser] answers in a world: the key of the first
    owner or administrator of the tenant, unless the query fails. *)
Definition adminUser (companyId : string) (w : World) : option string :=
  match dbError (env w) (queried w) with
  | Some _ => None
  | None =>
      match filter (isAdminOf companyId) (users w) with
      | [] => None
      | u :: _ => if String.eqb (u_id u) EmptyString then None
                  else Some (u_id u)
      end
  end.

(** The payload [upsertAppointment] sends for the payload it is given,
    and the world in which it sends it. *)
Definition resolved (d : AppointmentData) (w : World)
    : AppointmentData * World :=
  if negb (Js.truthy (d_created_by d)) then
    (withCreatedBy
       match adminUser (d_company_id d) w with
       | Some owner => owner
       | None => "00000000-0000-0000-0000-000000000000"%string
       end d,
     record (Query (SelectAdmin (d_company_id d))
               (dbError (env w) (queried w))) (countQuery w))
  else (d, w).

(** The table of appointments before and after, row by row, with the
    rows added at the end. *)
Definition rowsKept (P : Appointment -> Appointment -> Prop) (w w' : World)
    : Prop :=
  exists kept added,
    appointments w' = kept ++ added
    /\ Forall2 P (appointments w) kept.

(** A row keeps its key, its tenant and its creation time. *)
Definition sameIdentity (r r' : Appointment) : Prop :=
  a_id r' = a_id r
  /\ a_company_id r' = a_company_id r
  /\ a_created_at r' = a_created_at r.

(** A row is left as it was or cancelled. *)
Definition cancelledOrSame (r r' : Appointment) : Prop :=
  r' = r \/ exists t, r' = withStatus "cancelled" t r.

(** What [getAppointmentByGoogleEventId] answers in a world. *)
Definition lookup (companyId googleEventId : string) (w : World)
    : option Appointment :=
  match dbError (env w) (queried w) with
  | Some _ => None
  | None =>
      match filter (sameKey companyId googleEventId) (appointments w) with
      | [r] => Some r
      | _ => None
      end
  end.

(** The payload [upsertAppointmentFromGoogleEvent] builds for an event
    with a start and an end, given what the lookup answered. *)
Definition payloadFor (companyId : string) (googleEvent : GoogleEvent)
    (start finish : EventTime) (existingAppointment : option Appointment)
    : AppointmentData :=
  {| d_company_id := companyId;
     d_title := Js.orElse (g_summary googleEvent) "Evento sem título";
     d_description := g_description googleEvent;
     d_start_time := Js.or (dateTime start) (date start);
     d_end_time := Js.or (dateTime finish) (date finish);
     d_location := g_location googleEvent;
     d_google_event_id := g_id googleEvent;
     d_google_calendar_id :=
       Js.orElse (g_organizer_email googleEvent) "primary";
     d_google_meet_link := g_meet_uri googleEvent;
     d_attendees := parseAttendees (g_attendees googleEvent);
     d_all_day := negb (Js.truthy (dateTime start));
     d_status := "scheduled";
     d_id := option_map a_id existingAppointment;
     d_created_by := option_map a_created_by existingAppointment;
     d_created_at := option_map a_created_at existingAppointment |}.

(** The ways the handling of one remote event of a tenant can change the
    table of appointments: not at all; by cancelling the one row with the
    event's key; by merging a payload into the rows with its key, a
    payload that names a row naming the one row with that key; or by
    adding a row under a generated key. *)
Inductive PullStep (companyId : string) (e : Env) (table : list Appointment)
    : list Appointment -> Prop :=
| pull_same : PullStep companyId e table table
| pull_cancel : forall googleEventId existing t,
    filter (sameKey companyId googleEventId) table = [existing] ->
    PullStep companyId e table
      (updateWhere a_id (a_id existing) (withStatus "cancelled" t) table)
| pull_merge : forall d,
    d_company_id d = companyId ->
    (d_id d = None /\ d_created_at d = None
     \/ exists existing,
          filter (sameKey companyId (d_google_event_id d)) table = [existing]
          /\ d_id d = Some (a_id existing)
          /\ d_created_at d = Some (a_created_at existing)) ->
    PullStep companyId e table (mergeInto d table)
| pull_insert : forall d n t,
    d_company_id d = companyId ->
    d_id d = None ->
    PullStep companyId e table (table ++ [inserted (genId e n) t d]).

(** The table of appointments before and after, row by row, with no row
    added. *)
Definition rowsEach (P : Appointment -> Appointment -> Prop) (w w' : World)
    : Prop :=
  Forall2 P (appointments w) (appointments w').

(** A row is left as it was, or it is cancelled and its key is one of
    these keys. *)
Definition cancelledAmong (keys : list string) (r r' : Appointment) : Prop :=
  r' = r
  \/ (In (a_id r) keys /\ exists t, r' = withStatus "cancelled" t r).

(** The key under which rows are created for a tenant whose owner or
    administrator cannot be determined. *)
Definition systemUser : string := "00000000-0000-0000-0000-000000000000".

(** The row the pull of an event creates, given the owner it is created
    for, its generated key and the time. *)
Definition pulledRow (companyId : string) (googleEvent : GoogleEvent)
    (start finish : EventTime) (owner fresh : string) (t : Z) : Appointment :=
  {| a_id := fresh;
     a_company_id := companyId;
     a_title := Js.orElse (g_summary googleEvent) "Evento sem título";
     a_description := g_description googleEvent;
     a_start_time := Js.or (dateTime start) (date start);
     a_end_time := Js.or (dateTime finish) (date finish);
     a_location := g_location googleEvent;
     a_google_event_id := Some (g_id googleEvent);
     a_google_calendar_id :=
       Some (Js.orElse (g_organizer_email googleEvent) "primary");
     a_google_meet_link := g_meet_uri googleEvent;
     a_attendees := Some (parseAttendees (g_attendees googleEvent));
     a_all_day := negb (Js.truthy (dateTime start));
     a_status := "scheduled";
     a_created_by := owner;
     a_created_at := t;
     a_updated_at := t |}.

(** The only element of a list, if it has exactly one: what
    [.maybeSingle()] makes of the rows a query matches, short of an
    error. *)
Definition single {A} (l : list A) : option A :=
  match l with
  | [r] => Some r
  | _ => None
  end.

(** The owner rows are created for when the query for the tenant's
    administrators is answered. *)
Definition ownerOf (companyId : string) (people : list User) : string :=
  match filter (isAdminOf companyId) people with
  | [] => systemUser
  | u :: _ => if String.eqb (u_id u) EmptyString then systemUser else u_id u
  end.

Definition resolvedPayload (owner : string) (d : AppointmentData)
    : AppointmentData :=
  if negb (Js.truthy (d_created_by d)) then withCreatedBy owner d else d.

(** What the handling of one remote event makes of the table of
    appointments when the store accepts every statement. *)
Definition pulled (companyId : string) (googleEvent : GoogleEvent)
    (owner fresh : string) (t : Z) (table : list Appointment)
    : list Appointment :=
  let found :=
    single (filter (sameKey companyId (g_id googleEvent)) table) in
  if eqCol (g_status googleEvent) "cancelled" then
    match found with
    | Some existing =>
        updateWhere a_id (a_id existing) (withStatus "cancelled" t) table
    | None => table
    end
  else
    match g_start googleEvent, g_end googleEvent with
    | Some start, Some finish =>
        let d := resolvedPayload owner
                   (payloadFor companyId googleEvent start finish found) in
        match find (conflicts d) table with
        | Some _ => mergeInto d table
        | None =>
            if keyTaken d table then table
            else table ++ [inserted fresh t d]
        end
    | _, _ => table
    end.

(** A cancelled row is left as it was, or only its [updated_at] is set
    anew; any other row is left as it was. *)
Definition restamped (t : Z) (r r' : Appointment) : Prop :=
  r' = r
  \/ (a_status r = "cancelled"%string /\ r' = withStatus "cancelled" t r).

(** ** Tenants *)

(** A row of another tenant. *)
Definition foreign (companyId : string) (r : Appointment) : bool :=
  negb (String.eqb (a_company_id r) companyId).

(** The rows of the other tenants, in the order of the table. *)
Definition others (companyId : string) (w : World) : list Appointment :=
  filter (foreign companyId) (appointments w).

(** A key the tenant may use, seen from the world [w0] a synchronisation
    starts in: the key of one of the tenant's rows, or a key the store
    generates. *)
Definition tenantKey (companyId : string) (w0 : World) (k : string) : Prop :=
  (exists r, In r (appointments w0)
             /\ a_company_id r = companyId /\ a_id r = k)
  \/ exists n, k = genId (env w0) n.

(** Keys are not shared between tenants: no row of another tenant has a
    key the tenant may use. *)
Definition keysApart (companyId : string) (w0 : World) : Prop :=
  forall r, In r (appointments w0) -> a_company_id r <> companyId ->
            ~ tenantKey companyId w0 (a_id r).

(** The state of the table during the synchronisation of a tenant that
    started in [w0]: the rows of the other tenants are as they were, and
    the tenant's rows have keys the tenant may use. *)
Definition apart (companyId : string) (w0 w : World) : Prop :=
  env w = env w0
  /\ others companyId w = others companyId w0
  /\ forall r, In r (appointments w) -> a_company_id r = companyId ->
               tenantKey companyId w0 (a_id r).

Definition staysApart (companyId : string) (w0 w w' : World) : Prop :=
  apart companyId w0 w -> apart companyId w0 w'.

(** ** Requests for the creation of remote events *)

Definition insertion (e : Event) : bool :=
  match e with
  | Fetch (InsertEvent _ _ _ _) _ => true
  | _ => false
  end.

Definition insertionsIn (l : list Event) : list string :=
  flat_map (fun e => match e with
                     | Fetch (InsertEvent _ _ _ a) _ => [a]
                     | _ => []
                     end) l.

(** The keys of the appointments for which the creation of a remote
    event has been requested so far, one entry a request, oldest
    first. *)
Definition insertions (w : World) : list string := insertionsIn (history w).

(** [counts] repetitions of each key, key after key. *)
Fixpoint repeated (keys : list string) (counts : list nat) : list string :=
  match keys, counts with
  | k :: keys', n :: counts' => repeat k n ++ repeated keys' counts'
  | _, _ => []
  end.

(** ** utils/performanceMonitor

    Counters and durations are integers.  The running averages and the
    success rates are computed in floating point: that arithmetic, and
    the rendering of its results, is left abstract. *)

Class Doubles := {
  num : Type;
  ofZ : Z -> num;
  plus : num -> num -> num;
  times : num -> num -> num;
  over : num -> num -> num;
  toFixed2 : num -> string;
  shown : num -> string }.

Module Monitor.

Section WithDoubles.
Context {doubles : Doubles}.

Record SyncCycles := {
  c_total : Z;
  c_successful : Z;
  c_failed : Z;
  c_averageDuration : num;
  c_lastDuration : Z;
  c_minDuration : option Z;           (* None is Infinity *)
  c_maxDuration : Z }.

Record Integrations := {
  n_totalProcessed : Z;
  n_successful : Z;
  n_failed : Z;
  n_averageDuration : num }.

Record Events := {
  e_totalProcessed : Z;
  e_created : Z;
  e_updated : Z;
  e_cancelled : Z }.

Record Api := {
  p_totalRequests : Z;
  p_successful : Z;
  p_failed : Z;
  p_averageResponseTime : num;
  p_rateLimitHits : Z }.

Record Errors := {
  tokenRefreshErrors : Z;
  apiErrors : Z;
  databaseErrors : Z;
  networkErrors : Z }.

Record SyncData := {
  startTime : Z;
  integrationsProcessed : Z;
  eventsProcessed : Z }.

Record RecentSync := {
  r_timestamp : Z;
  r_duration : Z;
  r_success : bool;
  r_integrationsProcessed : Z;
  r_eventsProcessed : Z;
  r_error : option string }.

Record PerformanceMonitor := {
  syncCycles : SyncCycles;
  integrationsSynced : Integrations;
  eventsSeen : Events;
  api : Api;
  errors : Errors;
  recentSyncs : list RecentSync;
  maxRecentSyncs : Z;
  since : Z }.                        (* this.startTime *)

Definition noMetrics (maxRecent : Z) (now : Z) : PerformanceMonitor :=
  {| syncCycles :=
       {| c_total := 0; c_successful := 0; c_failed := 0;
          c_averageDuration := ofZ 0; c_lastDuration := 0;
          c_minDuration := None; c_maxDuration := 0 |};
     integrationsSynced :=
       {| n_totalProcessed := 0; n_successful := 0; n_failed := 0;
          n_averageDuration := ofZ 0 |};
     eventsSeen :=
       {| e_totalProcessed := 0; e_created := 0; e_updated := 0;
          e_cancelled := 0 |};
     api :=
       {| p_totalRequests := 0; p_successful := 0; p_failed := 0;
          p_averageResponseTime := ofZ 0; p_rateLimitHits := 0 |};
     errors :=
       {| tokenRefreshErrors := 0; apiErrors := 0; databaseErrors := 0;
          networkErrors := 0 |};
     recentSyncs := [];
     maxRecentSyncs := maxRecent;
     since := now |}.

(** [new PerformanceMonitor()] at time [now] *)
Definition constructor (now : Z) : PerformanceMonitor :=
  noMetrics 100 now.

Definition startSyncCycle (now : Z) : SyncData :=
  {| startTime := now; integrationsProcessed := 0;
     eventsProcessed := 0 |}.

Definition calculateRunningAverage (currentAverage : num) (newValue : Z)
    (totalCount : Z) : num :=
  if totalCount =? 1 then ofZ newValue
  else over (plus (times currentAverage (ofZ (totalCount - 1)))
               (ofZ newValue))
            (ofZ totalCount).

(** [Math.min(m, d)] where [m] may be [Infinity] *)
Definition least (m : option Z) (d : Z) : option Z :=
  match m with
  | Some x => Some (Z.min x d)
  | None => Some d
  end.

(** [recentSyncs.push(entry)], then [shift()] when the history has
    grown beyond its bound *)
Definition remember (bound : Z) (history : list RecentSync)
    (entry : RecentSync) : list RecentSync :=
  let grown := history ++ [entry] in
  if bound <? Z.of_nat (List.length grown) then tl grown else grown.

Definition endSyncCycle (now : Z) (syncData : SyncData) (success : bool)
    (error : option string) (this : PerformanceMonitor)
    : PerformanceMonitor :=
  let duration := now - startTime syncData in
  let old := syncCycles this in
  let total := c_total old + 1 in
  {| syncCycles :=
       {| c_total := total;
          c_successful :=
            if success then c_successful old + 1 else c_successful old;
          c_failed := if success then c_failed old else c_failed old + 1;
          c_averageDuration :=
            calculateRunningAverage (c_averageDuration old) duration
              total;
          c_lastDuration := duration;
          c_minDuration := least (c_minDuration old) duration;
          c_maxDuration := Z.max (c_maxDuration old) duration |};
     integrationsSynced := integrationsSynced this;
     eventsSeen := eventsSeen this;
     api := api this;
     errors := errors this;
     recentSyncs :=
       remember (maxRecentSyncs this) (recentSyncs this)
         {| r_timestamp := now; r_duration := duration;
            r_success := success;
            r_integrationsProcessed := integrationsProcessed syncData;
            r_eventsProcessed := eventsProcessed syncData;
            r_error := error |};
     maxRecentSyncs := maxRecentSyncs this;
     since := since this |}.

Definition recordIntegrationSync (duration : Z) (success : bool)
    (processed : Z) (this : PerformanceMonitor) : PerformanceMonitor :=
  let old := integrationsSynced this in
  let total := n_totalProcessed old + 1 in
  let seen := eventsSeen this in
  {| syncCycles := syncCycles this;
     integrationsSynced :=
       {| n_totalProcessed := total;
          n_successful :=
            if success then n_successful old + 1 else n_successful old;
          n_failed := if success then n_failed old else n_failed old + 1;
          n_averageDuration :=
            calculateRunningAverage (n_averageDuration old) duration
              total |};
     eventsSeen :=
       {| e_totalProcessed := e_totalProcessed seen + processed;
          e_created := e_created seen; e_updated := e_updated seen;
          e_cancelled := e_cancelled seen |};
     api := api this;
     errors := errors this;
     recentSyncs := recentSyncs this;
     maxRecentSyncs := maxRecentSyncs this;
     since := since this |}.

Definition withEvents (seen : Events) (this : PerformanceMonitor)
    : PerformanceMonitor :=
  {| syncCycles := syncCycles this;
     integrationsSynced := integrationsSynced this;
     eventsSeen := seen; api := api this; errors := errors this;
     recentSyncs := recentSyncs this;
     maxRecentSyncs := maxRecentSyncs this; since := since this |}.

Definition recordEventProcessing (eventType : string)
    (this : PerformanceMonitor) : PerformanceMonitor :=
  let seen := eventsSeen this in
  if String.eqb eventType "created" then
    withEvents {| e_totalProcessed := e_totalProcessed seen;
                  e_created := e_created seen + 1;
                  e_updated := e_updated seen;
                  e_cancelled := e_cancelled seen |} this
  else if String.eqb eventType "updated" then
    withEvents {| e_totalProcessed := e_totalProcessed seen;
                  e_created := e_created seen;
                  e_updated := e_updated seen + 1;
                  e_cancelled := e_cancelled seen |} this
  else if String.eqb eventType "cancelled" then
    withEvents {| e_totalProcessed := e_totalProcessed seen;
                  e_created := e_created seen;
                  e_updated := e_updated seen;
                  e_cancelled := e_cancelled seen + 1 |} this
  else this.

Definition withApi (a : Api) (this : PerformanceMonitor)
    : PerformanceMonitor :=
  {| syncCycles := syncCycles this;
     integrationsSynced := integrationsSynced this;
     eventsSeen := eventsSeen this; api := a; errors := errors this;
     recentSyncs := recentSyncs this;
     maxRecentSyncs := maxRecentSyncs this; since := since this |}.

Definition recordApiCall (duration : Z) (success : bool)
    (this : PerformanceMonitor) : PerformanceMonitor :=
  let old := api this in
  let total := p_totalRequests old + 1 in
  withApi
    {| p_totalRequests := total;
       p_successful :=
         if success then p_successful old + 1 else p_successful old;
       p_failed := if success then p_failed old else p_failed old + 1;
       p_averageResponseTime :=
         calculateRunningAverage (p_averageResponseTime old) duration
           total;
       p_rateLimitHits := p_rateLimitHits old |} this.

Definition recordRateLimitHit (this : PerformanceMonitor)
    : PerformanceMonitor :=
  let old := api this in
  withApi
    {| p_totalRequests := p_totalRequests old;
       p_successful := p_successful old;
       p_failed := p_failed old;
       p_averageResponseTime := p_averageResponseTime old;
       p_rateLimitHits := p_rateLimitHits old + 1 |} this.

Definition withErrors (e : Errors) (this : PerformanceMonitor)
    : PerformanceMonitor :=
  {| syncCycles := syncCycles this;
     integrationsSynced := integrationsSynced this;
     eventsSeen := eventsSeen this; api := api this; errors := e;
     recentSyncs := recentSyncs this;
     maxRecentSyncs := maxRecentSyncs this; since := since this |}.

(** The error handed over is an error object; its message only goes
    to the log. *)
Definition recordError (errorType : string) (this : PerformanceMonitor)
    : PerformanceMonitor :=
  let old := errors this in
  if String.eqb errorType "token_refresh" then
    withErrors {| tokenRefreshErrors := tokenRefreshErrors old + 1;
                  apiErrors := apiErrors old;
                  databaseErrors := databaseErrors old;
                  networkErrors := networkErrors old |} this
  else if String.eqb errorType "api" then
    withErrors {| tokenRefreshErrors := tokenRefreshErrors old;
                  apiErrors := apiErrors old + 1;
                  databaseErrors := databaseErrors old;
                  networkErrors := networkErrors old |} this
  else if String.eqb errorType "database" then
    withErrors {| tokenRefreshErrors := tokenRefreshErrors old;
                  apiErrors := apiErrors old;
                  databaseErrors := databaseErrors old + 1;
                  networkErrors := networkErrors old |} this
  else if String.eqb errorType "network" then
    withErrors {| tokenRefreshErrors := tokenRefreshErrors old;
                  apiErrors := apiErrors old;
                  databaseErrors := databaseErrors old;
                  networkErrors := networkErrors old + 1 |} this
  else this.

Inductive Metric := OfSyncCycles | OfIntegrations | OfApi.

(** What [getSuccessRate] returns: the number 0, or the text of a
    percentage with two decimals. *)
Inductive Rate :=
| Zero
| Percent (text : string).

Definition getSuccessRate (metric : Metric) (this : PerformanceMonitor)
    : Rate :=
  let successful :=
    match metric with
    | OfSyncCycles => c_successful (syncCycles this)
    | OfIntegrations => n_successful (integrationsSynced this)
    | OfApi => p_successful (api this)
    end in
  let failed :=
    match metric with
    | OfSyncCycles => c_failed (syncCycles this)
    | OfIntegrations => n_failed (integrationsSynced this)
    | OfApi => p_failed (api this)
    end in
  let total :=
    match metric with
    | OfSyncCycles =>
        if c_total (syncCycles this) =? 0 then successful + failed
        else c_total (syncCycles this)
    | _ => successful + failed
    end in
  if total =? 0 then Zero
  else Percent (toFixed2 (times (over (ofZ successful) (ofZ total))
                            (ofZ 100))).

Definition percentage (r : Rate) : string :=
  match r with
  | Zero => "0%"
  | Percent s => s ++ "%"
  end.

Record Summary := {
  totalSyncs : Z;
  successRate : string;
  averageDuration : string;
  integrationsProcessedSoFar : Z;
  eventsProcessedSoFar : Z;
  apiCalls : Z;
  errorsSoFar : Z }.

Definition getSummary (this : PerformanceMonitor) : Summary :=
  {| totalSyncs := c_total (syncCycles this);
     successRate := percentage (getSuccessRate OfSyncCycles this);
     averageDuration :=
       shown (c_averageDuration (syncCycles this)) ++ "ms";
     integrationsProcessedSoFar :=
       n_totalProcessed (integrationsSynced this);
     eventsProcessedSoFar := e_totalProcessed (eventsSeen this);
     apiCalls := p_totalRequests (api this);
     errorsSoFar :=
       0 + tokenRefreshErrors (errors this) + apiErrors (errors this)
       + databaseErrors (errors this) + networkErrors (errors this) |}.

Definition reset (now : Z) (this : PerformanceMonitor)
    : PerformanceMonitor :=
  noMetrics (maxRecentSyncs this) now.

(** The calls a client can make, and a monitor after a series of
    them. *)
Inductive Call :=
| EndSyncCycle (now : Z) (syncData : SyncData) (success : bool)
               (error : option string)
| RecordIntegrationSync (duration : Z) (success : bool) (processed : Z)
| RecordEventProcessing (eventType : string)
| RecordApiCall (duration : Z) (success : bool)
| RecordRateLimitHit
| RecordError (errorType : string)
| ResetAt (now : Z).

Definition call (c : Call) (this : PerformanceMonitor)
    : PerformanceMonitor :=
  match c with
  | EndSyncCycle now syncData success error =>
      endSyncCycle now syncData success error this
  | RecordIntegrationSync duration success processed =>
      recordIntegrationSync duration success processed this
  | RecordEventProcessing eventType => recordEventProcessing eventType this
  | RecordApiCall duration success => recordApiCall duration success this
  | RecordRateLimitHit => recordRateLimitHit this
  | RecordError errorType => recordError errorType this
  | ResetAt now => reset now this
  end.

Definition after (calls : list Call) (this : PerformanceMonitor)
    : PerformanceMonitor :=
  fold_left (fun m c => call c m) calls this.

(** [categorizeAndRecordError] of the engine, on the monitor. *)
Definition categorizeAndRecordError (error : exn)
    (this : PerformanceMonitor) : outcome unit * PerformanceMonitor :=
  match error with
  | Undefined =>
      (Throw (Error
         "Cannot read properties of undefined (reading 'message')"),
       this)
  | Error text =>
      let message := Js.toLowerCase text in
      (Ok tt,
       if Js.includes message "invalid_grant"
          || Js.includes message "token_revoked"
          || Js.includes message "refresh"
       then recordError "token_refresh" this
       else if Js.includes message "network"
               || Js.includes message "timeout"
               || Js.includes message "enotfound"
       then recordError "network" this
       else if Js.includes message "supabase"
               || Js.includes message "database"
               || Js.includes message "sql"
       then recordError "database" this
       else recordError "api" this)
  end.
End WithDoubles.

End Monitor.

(** The last [n] elements of a list. *)
Definition lastn {A} (n : nat) (l : list A) : list A :=
  skipn (List.length l - n) l.

(** The entries that calls of [endSyncCycle] add to the history, from
    the last reset on, starting from the entries [acc]. *)
Fixpoint ended {doubles : Doubles} (calls : list Monitor.Call)
    (acc : list Monitor.RecentSync) : list Monitor.RecentSync :=
  match calls with
  | [] => acc
  | Monitor.EndSyncCycle now syncData success error :: rest =>
      ended rest
        (acc ++ [{| Monitor.r_timestamp := now;
                    Monitor.r_duration := now - Monitor.startTime syncData;
                    Monitor.r_success := success;
                    Monitor.r_integrationsProcessed :=
                      Monitor.integrationsProcessed syncData;
                    Monitor.r_eventsProcessed :=
                      Monitor.eventsProcessed syncData;
                    Monitor.r_error := error |}])
  | Monitor.ResetAt _ :: rest => ended rest []
  | _ :: rest => ended rest acc
  end.

(** The errors of the four kinds the monitor counts that a series of
    calls records, from the last reset on, on top of [acc]. *)
Definition counted (errorType : string) : bool :=
  String.eqb errorType "token_refresh" || String.eqb errorType "api"
  || String.eqb errorType "database" || String.eqb errorType "network".

Fixpoint tallied {doubles : Doubles} (calls : list Monitor.Call) (acc : Z)
    : Z :=
  match calls with
  | [] => acc
  | Monitor.RecordError errorType :: rest =>
      tallied rest (if counted errorType then acc + 1 else acc)
  | Monitor.ResetAt _ :: rest => tallied rest 0
  | _ :: rest => tallied rest acc
  end.

(** What every call keeps true of the counters of the monitor. *)
Definition consistent {doubles : Doubles} (m : Monitor.PerformanceMonitor)
    : Prop :=
  let c := Monitor.syncCycles m in
  let n := Monitor.integrationsSynced m in
  let p := Monitor.api m in
  Monitor.c_total c = Monitor.c_successful c + Monitor.c_failed c
  /\ 0 <= Monitor.c_successful c /\ 0 <= Monitor.c_failed c
  /\ Monitor.n_totalProcessed n
     = Monitor.n_successful n + Monitor.n_failed n
  /\ 0 <= Monitor.n_successful n /\ 0 <= Monitor.n_failed n
  /\ Monitor.p_totalRequests p
     = Monitor.p_successful p + Monitor.p_failed p
  /\ 0 <= Monitor.p_successful p /\ 0 <= Monitor.p_failed p
  /\ (Monitor.c_total c = 0 -> Monitor.c_minDuration c = None)
  /\ (0 < Monitor.c_total c ->
      exists least,
        Monitor.c_minDuration c = Some least
        /\ least <= Monitor.c_lastDuration c <= Monitor.c_maxDuration c).

(** ** services/googleCalendarSync: the report of changes *)

(** [stored !== sent] for a column of a stored row ([None] is [null])
    and a field of a payload ([None] is [undefined]). *)
Definition differs (stored sent : option string) : bool :=
  match stored, sent with
  | Some a, Some b => negb (String.eqb a b)
  | _, _ => true
  end.

(** Template rendering of a possibly undefined text. *)
Definition renderSent (o : option string) : string :=
  match o with
  | Some s => s
  | None => "undefined"%string
  end.

Definition quote : string := String (ascii_of_nat 34) EmptyString.

Definition unidentified : string :=
  "Mudanças detectadas mas não identificadas"%string.

Definition detectChanges (existing : Appointment) (updated : AppointmentData)
    : list string :=
  let changes :=
    (if negb (String.eqb (a_title existing) (d_title updated)) then
       [("título: " ++ quote ++ a_title existing ++ quote ++ " → "
         ++ quote ++ d_title updated ++ quote)%string]
     else [])
    ++ (if differs (a_start_time existing) (d_start_time updated) then
          [("início: " ++ render (a_start_time existing) ++ " → "
            ++ renderSent (d_start_time updated))%string]
        else [])
    ++ (if differs (a_end_time existing) (d_end_time updated) then
          [("fim: " ++ render (a_end_time existing) ++ " → "
            ++ renderSent (d_end_time updated))%string]
        else [])
    ++ (if differs (a_location existing) (d_location updated) then
          [("local: " ++ quote ++ Js.orElse (a_location existing) "Vazio"
            ++ quote ++ " → " ++ quote
            ++ Js.orElse (d_location updated) "Vazio" ++ quote)%string]
        else [])
    ++ (if differs (a_description existing) (d_description updated) then
          ["descrição: Modificada"%string]
        else [])
    ++ (if differs (a_google_meet_link existing) (d_google_meet_link updated)
        then
          [("meet: "
            ++ (if Js.truthy (a_google_meet_link existing) then "Tinha"
                else "Não tinha")
            ++ " → "
            ++ (if Js.truthy (d_google_meet_link updated) then "Tem"
                else "Não tem"))%string]
        else []) in
  match changes with
  | [] => [unidentified]
  | _ => changes
  end.

(** A column and a field that both hold the same text. *)
Definition bothHold (stored sent : option string) : Prop :=
  exists v, stored = Some v /\ sent = Some v.

(** ** The scheduled entry point of the server *)

Module Server.

Record LastError := {
  le_message : string;
  le_time : Z }.

Record SyncStats := {
  totalRuns : Z;
  successfulRuns : Z;
  failedRuns : Z;
  lastError : option LastError }.

Record State := {
  isRunning : bool;
  lastSyncTime : option Z;
  syncStats : SyncStats }.

Definition initial : State :=
  {| isRunning := false; lastSyncTime := None;
     syncStats := {| totalRuns := 0; successfulRuns := 0; failedRuns := 0;
                     lastError := None |} |}.

(** [performSync]: the module's variables are threaded with the
    world.  A cycle that does not come to an end leaves [isRunning]
    set. *)
Definition performSync (syncService : Service) (s : State) (w : World)
    : outcome unit * (State * World) :=
  if isRunning s then (Ok tt, (s, w))
  else
    let stats := syncStats s in
    match syncAllIntegrations syncService w with
    | (Ok _, w') =>
        (Ok tt,
         ({| isRunning := false;
             lastSyncTime := Some (clock w');
             syncStats :=
               {| totalRuns := totalRuns stats + 1;
                  successfulRuns := successfulRuns stats + 1;
                  failedRuns := failedRuns stats;
                  lastError := None |} |}, w'))
    | (Throw (Error message), w') =>
        (Ok tt,
         ({| isRunning := false;
             lastSyncTime := lastSyncTime s;
             syncStats :=
               {| totalRuns := totalRuns stats + 1;
                  successfulRuns := successfulRuns stats;
                  failedRuns := failedRuns stats + 1;
                  lastError :=
                    Some {| le_message := message;
                            le_time := clock w' |} |} |}, w'))
    | (Throw Undefined, w') =>
        (Throw (Error
           "Cannot read properties of undefined (reading 'message')"),
         ({| isRunning := false;
             lastSyncTime := lastSyncTime s;
             syncStats :=
               {| totalRuns := totalRuns stats + 1;
                  successfulRuns := successfulRuns stats;
                  failedRuns := failedRuns stats + 1;
                  lastError := lastError stats |} |}, w'))
    | (Diverge, w') =>
        (Diverge,
         ({| isRunning := true; lastSyncTime := lastSyncTime s;
             syncStats := stats |}, w'))
    end.

End Server.

(** ** Further sample data *)

Module Cases.

Local Open Scope string_scope.

(** A limiter that is switched off. *)
Definition unlimited : World :=
  {| env := Sample.uniform 200 Sample.noEvents; clock := 1000000;
     limiter := {| maxRequestsPerMinute := 300; windowSizeMs := 60000;
                   requests := []; enabled := false |};
     appointments := []; integrations := [Sample.integration];
     users := []; fetched := 0; queried := 0; drawn := 0; trace := [] |}.

(** The remote event of [Sample.orphan], cancelled. *)
Definition withdrawn : GoogleEvent :=
  {| g_id := "ev-other"; g_status := Some "cancelled";
     g_summary := Some "Review"; g_description := None;
     g_start := None; g_end := None; g_location := None;
     g_organizer_email := None; g_meet_uri := None;
     g_attendees := None |}.

Definition start : EventTime :=
  {| dateTime := Some "2025-02-01T09:00:00Z"; date := None |}.

Definition finish : EventTime :=
  {| dateTime := Some "2025-02-01T10:00:00Z"; date := None |}.

(** An appointment of another tenant, and a world that holds it beside
    an appointment of the tenant of [Sample.integration]. *)
Definition neighbour : Appointment :=
  {| a_id := "appt-9"; a_company_id := "globex"; a_title := "Standup";
     a_description := None; a_start_time := Some "2025-01-11T09:00:00Z";
     a_end_time := Some "2025-01-11T09:15:00Z"; a_location := None;
     a_google_event_id := Some "ev-9";
     a_google_calendar_id := Some "primary";
     a_google_meet_link := None; a_attendees := None; a_all_day := false;
     a_status := "scheduled"; a_created_by := "user-3";
     a_created_at := 5; a_updated_at := 5 |}.

Definition shared : World :=
  Sample.world (Sample.uniform 200 Sample.noEvents) 300
    [Sample.orphan; neighbour].

(** A local appointment of the calendar of [Sample.integration] that
    was never pushed. *)
Definition pending : Appointment :=
  {| a_id := "appt-2"; a_company_id := "acme"; a_title := "Planning";
     a_description := None; a_start_time := Some "2025-01-12T10:00:00Z";
     a_end_time := Some "2025-01-12T11:00:00Z"; a_location := None;
     a_google_event_id := None;
     a_google_calendar_id := Some "primary";
     a_google_meet_link := None; a_attendees := None; a_all_day := false;
     a_status := "scheduled"; a_created_by := "user-7";
     a_created_at := 30; a_updated_at := 30 |}.

Definition unpushed : World :=
  Sample.world (Sample.uniform 200 Sample.noEvents) 300 [pending].



(** The world a moment later, nothing else changed. *)
Definition later (minutes : Z) (w : World) : World :=
  setClock (clock w + minutes * 60 * 1000) w.

(** Integer arithmetic in place of the floating-point operations. *)
Definition integers : Doubles :=
  {| num := Z; ofZ := fun z => z; plus := Z.add; times := Z.mul;
     over := Z.div; toFixed2 := Js.show; shown := Js.show |}.

End Cases.

(** * Properties *)

Unset Implicit Arguments.

Ltac splits := repeat match goal with |- _ /\ _ => split end.

(** ** Lists and minima *)

Lemma min_spec (l : list Z) (m : Z) :
  Js.min l = Some m -> In m l /\ forall x, In x l -> m <= x.
Proof.
  revert m. induction l as [|y t IH]; intros m H; [discriminate|].
  simpl in H. destruct (Js.min t) as [k|] eqn:E.
  - injection H as <-. destruct (IH k eq_refl) as [Hin Hle]. split.
    + destruct (Z.min_spec y k) as [[_ ->]|[_ ->]]; [now left|now right].
    + intros x [<-|Hx]; [lia|]. specialize (Hle x Hx). lia.
  - injection H as <-. destruct t; [|simpl in E; destruct (Js.min t); discriminate].
    split; [now left|]. intros x [<-|[]]. lia.
Qed.

Lemma min_none (l : list Z) : Js.min l = None -> l = [].
Proof.
  destruct l as [|y t]; [reflexivity|]. simpl. destruct (Js.min t); discriminate.
Qed.

Lemma filter_idem {A} (p : A -> bool) (l : list A) :
  filter p (filter p l) = filter p l.
Proof.
  induction l as [|x t IH]; [reflexivity|]. simpl.
  destruct (p x) eqn:E; simpl; [rewrite E, IH|]; auto.
Qed.

Lemma filter_drops {A} (p : A -> bool) (l : list A) (x : A) :
  In x l -> p x = false -> (List.length (filter p l) < List.length l)%nat.
Proof.
  induction l as [|y t IH]; intros Hin Hp; [destruct Hin|].
  simpl. pose proof (filter_length_le p t).
  destruct Hin as [->|Hin].
  - rewrite Hp. lia.
  - specialize (IH Hin Hp). destruct (p y); simpl; lia.
Qed.

Lemma filter_filter_le {A} (p q : A -> bool) (l : list A) :
  (List.length (filter p (filter q l)) <= List.length (filter q l))%nat.
Proof. apply filter_length_le. Qed.

(** ** The rate limiter *)

Lemma canMakeRequest_eq (w : World) :
  canMakeRequest w =
  if negb (enabled (limiter w)) then (Ok true, w)
  else
    let kept := inTrailingWindow w in
    if maxRequestsPerMinute (limiter w) <=? Z.of_nat (List.length kept) then
      (Ok false,
       record (Log (RateLimitReached (List.length kept)
                      (option_map
                         (fun o => o + windowSizeMs (limiter w) - clock w)
                         (Js.min kept))))
              (setRequests kept w))
    else (Ok true, setRequests kept w).
Proof.
  unfold canMakeRequest, inTrailingWindow, bind, gets, now, modify, log, emit, ret.
  simpl. destruct (enabled (limiter w)); simpl; [|reflexivity].
  destruct (_ <=? _); reflexivity.
Qed.

Lemma waitLoop_round (fuel : nat) (w w1 : World) :
  canMakeRequest w = (Ok false, w1) ->
  waitLoop (S fuel) w =
  waitLoop fuel
    (snd (backOff
            (Js.max 1000
               (option_map (fun o => o + windowSizeMs (limiter w) - clock w)
                  (Js.min (inTrailingWindow w)))) w1)).
Proof.
  intros H. rewrite canMakeRequest_eq in H.
  simpl. unfold bind at 1. rewrite canMakeRequest_eq.
  destruct (negb (enabled (limiter w))); [discriminate|].
  cbv zeta in *.
  destruct (_ <=? _); [|discriminate].
  injection H as <-.
  unfold bind, gets, now, backOff, setTimeout, log, emit, modify, bind. simpl.
  unfold inTrailingWindow. rewrite filter_idem. reflexivity.
Qed.

Lemma waitLoop_free (fuel : nat) (w w1 : World) :
  canMakeRequest w = (Ok true, w1) -> waitLoop (S fuel) w = (Ok tt, w1).
Proof.
  intros H. simpl. unfold bind. rewrite H. reflexivity.
Qed.

Arguments Js.timerDelay : simpl never.

Lemma timerDelay_in_range (d : Z) :
  1 <= d <= 2147483647 -> Js.timerDelay (Some d) = d.
Proof.
  intros H. unfold Js.timerDelay.
  destruct (d <? 1) eqn:E1; [apply Z.ltb_lt in E1; lia|].
  destruct (2147483647 <? d) eqn:E2; [apply Z.ltb_lt in E2; lia|]. reflexivity.
Qed.

Lemma timerDelay_pos (d : option Z) : 1 <= Js.timerDelay d.
Proof.
  destruct d as [d|]; unfold Js.timerDelay; [|lia].
  destruct (d <? 1) eqn:E1; simpl; [lia|].
  destruct (2147483647 <? d); [lia|]. apply Z.ltb_ge in E1. lia.
Qed.

Lemma Healthy_later (w w' : World) :
  Healthy w ->
  maxRequestsPerMinute (limiter w') = maxRequestsPerMinute (limiter w) ->
  windowSizeMs (limiter w') = windowSizeMs (limiter w) ->
  clock w <= clock w' ->
  incl (requests (limiter w')) (requests (limiter w)) ->
  Healthy w'.
Proof.
  intros (HC & HW & HF) EC EW Hc Hi. unfold Healthy. rewrite EC, EW.
  splits; auto. apply Forall_forall. intros x Hx.
  rewrite Forall_forall in HF. specialize (HF x (Hi x Hx)). lia.
Qed.

(** The loop of [waitForAvailability] ends within one round per request
    in the window, and it ends no sooner than the oldest of them has left
    the window. *)
Lemma waitLoop_fuel (fuel : nat) :
  forall w,
    Healthy w ->
    (List.length (inTrailingWindow w) < fuel)%nat ->
    exists w',
      waitLoop fuel w = (Ok tt, w')
      /\ Healthy w'
      /\ clock w <= clock w'
      /\ (forall oldest,
            fst (canMakeRequest w) = Ok false ->
            Js.min (inTrailingWindow w) = Some oldest ->
            oldest + windowSizeMs (limiter w) <= clock w').
Proof.
  induction fuel as [|k IH]; intros w HW Hlen; [lia|].
  pose proof (canMakeRequest_eq w) as E.
  destruct (negb (enabled (limiter w))) eqn:En.
  { exists w. rewrite (waitLoop_free k _ _ E). rewrite E. splits; auto; try lia.
    intros ? H; discriminate. }
  cbv zeta in E.
  destruct (maxRequestsPerMinute (limiter w)
            <=? Z.of_nat (List.length (inTrailingWindow w))) eqn:Efull.
  2:{ eexists. rewrite (waitLoop_free k _ _ E). rewrite E. simpl. splits; auto.
      - eapply Healthy_later; eauto; simpl; try lia.
        unfold inTrailingWindow. intros x Hx. apply filter_In in Hx. tauto.
      - simpl; lia.
      - intros ? H; discriminate. }
  apply Z.leb_le in Efull.
  destruct HW as (HC & HWin & HF).
  destruct (Js.min (inTrailingWindow w)) as [o|] eqn:Emin.
  2:{ apply min_none in Emin. rewrite Emin in Efull. simpl in Efull. lia. }
  destruct (min_spec _ _ Emin) as [Hin Hleast].
  assert (Ho : o <= clock w).
  { unfold inTrailingWindow in Hin. apply filter_In in Hin.
    rewrite Forall_forall in HF. apply HF. tauto. }
  rewrite (waitLoop_round k _ _ E). rewrite Emin. simpl.
  set (d := Z.max 1000 (o + windowSizeMs (limiter w) - clock w)).
  assert (Hd : 1 <= d <= 2147483647) by (unfold d; lia).
  rewrite (timerDelay_in_range _ Hd).
  match goal with |- exists w', waitLoop k ?W = _ /\ _ => set (w2 := W) end.
  assert (H2 : Healthy w2).
  { unfold Healthy, w2; simpl. splits; auto.
    apply Forall_forall. intros x Hx. unfold inTrailingWindow in Hx.
    apply filter_In in Hx. rewrite Forall_forall in HF.
    specialize (HF x (proj1 Hx)). lia. }
  assert (L2 : (List.length (inTrailingWindow w2) < k)%nat).
  { unfold inTrailingWindow at 1, w2. simpl.
    assert (Hdrop : inWindow (clock w + d - windowSizeMs (limiter w)) o = false).
    { unfold inWindow. apply Z.ltb_ge. unfold d. lia. }
    pose proof (filter_drops _ _ _ Hin Hdrop). lia. }
  destruct (IH w2 H2 L2) as (w' & Ew & Hw' & Hclk & _).
  exists w'. splits; auto.
  - unfold w2 in Hclk; simpl in Hclk. lia.
  - intros oldest _ Heq. injection Heq as <-.
    unfold w2 in Hclk; simpl in Hclk. unfold d in Hclk. lia.
Qed.

Lemma waitForAvailability_returns (w : World) :
  Healthy w ->
  exists w',
    waitForAvailability w = (Ok tt, w')
    /\ Healthy w'
    /\ clock w <= clock w'
    /\ (forall oldest,
          fst (canMakeRequest w) = Ok false ->
          Js.min (inTrailingWindow w) = Some oldest ->
          oldest + windowSizeMs (limiter w) <= clock w').
Proof.
  intros H. unfold waitForAvailability. apply waitLoop_fuel; auto.
  pose proof (filter_length_le
                (inWindow (clock w - windowSizeMs (limiter w)))
                (requests (limiter w))).
  unfold inTrailingWindow. lia.
Qed.

(** Without capacity the loop never ends, whatever the fuel: running out
    of fuel stands for a real divergence. *)
Lemma waitLoop_starved (fuel : nat) :
  forall w,
    enabled (limiter w) = true ->
    maxRequestsPerMinute (limiter w) <= 0 ->
    fst (waitLoop fuel w) = Diverge.
Proof.
  induction fuel as [|k IH]; intros w En HC; [reflexivity|].
  pose proof (canMakeRequest_eq w) as E. rewrite En in E. simpl in E.
  destruct (maxRequestsPerMinute (limiter w)
            <=? Z.of_nat (List.length (inTrailingWindow w))) eqn:Efull.
  2:{ apply Z.leb_gt in Efull. lia. }
  rewrite (waitLoop_round k _ _ E). apply IH; simpl; auto.
Qed.

(** ** Running the monad *)

Lemma bind_eq {A B} (m : M A) (k : A -> M B) (w : World) :
  bind m k w =
  match m w with
  | (Ok a, w') => k a w'
  | (Throw e, w') => (Throw e, w')
  | (Diverge, w') => (Diverge, w')
  end.
Proof. reflexivity. Qed.

Lemma bind_ok {A B} (m : M A) (k : A -> M B) (w w' : World) (a : A) :
  m w = (Ok a, w') -> bind m k w = k a w'.
Proof. intros H. rewrite bind_eq, H. reflexivity. Qed.

Lemma bind_throw {A B} (m : M A) (k : A -> M B) (w w' : World) (e : exn) :
  m w = (Throw e, w') -> bind m k w = (Throw e, w').
Proof. intros H. rewrite bind_eq, H. reflexivity. Qed.

Lemma catch_eq {A} (m : M A) (h : exn -> M A) (w : World) :
  catch m h w =
  match m w with
  | (Throw e, w') => h e w'
  | r => r
  end.
Proof. reflexivity. Qed.

Lemma catch_ok {A} (m : M A) (h : exn -> M A) (w w' : World) (a : A) :
  m w = (Ok a, w') -> catch m h w = (Ok a, w').
Proof. intros H. rewrite catch_eq, H. reflexivity. Qed.

Lemma catch_throw {A} (m : M A) (h : exn -> M A) (w w' : World) (e : exn) :
  m w = (Throw e, w') -> catch m h w = h e w'.
Proof. intros H. rewrite catch_eq, H. reflexivity. Qed.

Lemma recordRequest_eq (w : World) :
  recordRequest w =
  (Ok tt,
   if enabled (limiter w)
   then setRequests (requests (limiter w) ++ [clock w]) w
   else w).
Proof.
  unfold recordRequest, bind, gets, now, modify, ret. simpl.
  destruct (enabled (limiter w)); reflexivity.
Qed.

Lemma makeRequest_eq {A} (requestFn : M A) (w w1 : World) :
  waitForAvailability w = (Ok tt, w1) ->
  makeRequest requestFn w =
  catch requestFn (fun error => _ <- messageOf error ;; throw error)
    (snd (recordRequest w1)).
Proof.
  intros H. unfold makeRequest. rewrite (bind_ok _ _ _ _ _ H).
  rewrite bind_eq, recordRequest_eq. reflexivity.
Qed.


Lemma waitForAvailability_free (w w1 : World) :
  canMakeRequest w = (Ok true, w1) -> waitForAvailability w = (Ok tt, w1).
Proof. intros H. unfold waitForAvailability. apply waitLoop_free, H. Qed.

Lemma makeRequest_admitted (w w1 : World) :
  enabled (limiter w) = true ->
  canMakeRequest w = (Ok true, w1) ->
  makeRequest (ret tt) w
  = (Ok tt, setRequests (requests (limiter w1) ++ [clock w1]) w1).
Proof.
  intros En H.
  rewrite (makeRequest_eq _ _ _ (waitForAvailability_free _ _ H)).
  rewrite recordRequest_eq.
  rewrite canMakeRequest_eq, En in H. simpl in H.
  destruct (_ <=? _); [discriminate|]. injection H as <-.
  simpl. rewrite En. reflexivity.
Qed.

Lemma inWindow_now (t W : Z) : 0 < W -> inWindow (t - W) t = true.
Proof. intros H. unfold inWindow. apply Z.ltb_lt. lia. Qed.

(** Two acquisitions in a row from an empty buffer of capacity two leave
    both timestamps in the buffer and the clock where it was. *)
Lemma two_acquisitions (w : World) :
  enabled (limiter w) = true ->
  maxRequestsPerMinute (limiter w) = 2 ->
  windowSizeMs (limiter w) = 60000 ->
  requests (limiter w) = [] ->
  (makeRequest (ret tt) ;; makeRequest (ret tt)) w
  = (Ok tt, setRequests [clock w; clock w] w).
Proof.
  intros En HC HW Hr.
  assert (E1 : canMakeRequest w = (Ok true, setRequests [] w)).
  { rewrite canMakeRequest_eq, En. unfold inTrailingWindow.
    rewrite HC, Hr. reflexivity. }
  rewrite bind_eq, (makeRequest_admitted _ _ En E1). simpl.
  set (w1 := setRequests [clock w] (setRequests [] w)).
  assert (E2 : canMakeRequest w1 = (Ok true, setRequests [clock w] w1)).
  { rewrite canMakeRequest_eq. unfold inTrailingWindow, w1. simpl.
    rewrite En, HC, HW. simpl.
    rewrite (inWindow_now (clock w) 60000) by lia. reflexivity. }
  rewrite (makeRequest_admitted w1 _ En E2). reflexivity.
Qed.

(** C8.  The sliding window of the rate limiter.  With the limiter
    enabled, [canMakeRequest] keeps exactly the recorded timestamps that
    are later than [now - W] and answers yes exactly when fewer than [C]
    of them remain.  When it answers no, the delay it reports is
    [oldest + W - now] for the oldest timestamp kept; each round of
    [waitForAvailability] then sleeps [max(1000, oldest + W - now)], and
    the wait ends no sooner than [oldest + W - now] after it began.  With
    capacity 2 and a window of 60000 ms, the third of three immediate
    acquisitions is blocked at least that long. *)
Theorem rate_limiter_sliding_window :
  forall (w : World) (r : outcome bool) (w1 : World),
    enabled (limiter w) = true ->
    canMakeRequest w = (r, w1) ->
    let W := windowSizeMs (limiter w) in
    let C := maxRequestsPerMinute (limiter w) in
    let t := clock w in
    (forall x, In x (requests (limiter w1))
               <-> In x (requests (limiter w)) /\ ~ x <= t - W)
    /\ (r = Ok true <-> Z.of_nat (List.length (requests (limiter w1))) < C)
    /\ (r = Ok true \/ r = Ok false)
    /\ (forall oldest,
          r = Ok false ->
          Js.min (requests (limiter w1)) = Some oldest ->
          (In oldest (requests (limiter w1))
           /\ forall x, In x (requests (limiter w1)) -> oldest <= x)
          /\ trace w1
             = Log (RateLimitReached (List.length (requests (limiter w1)))
                      (Some (oldest + W - t))) :: trace w
          /\ (forall fuel,
                waitLoop (S fuel) w
                = waitLoop fuel
                    (snd (backOff (Some (Z.max 1000 (oldest + W - t))) w1)))
          /\ (Healthy w ->
              exists w2, waitForAvailability w = (Ok tt, w2)
                         /\ oldest + W - t <= clock w2 - t))
    /\ (C = 2 -> W = 60000 -> requests (limiter w) = [] ->
        exists w2 w3,
          (makeRequest (ret tt) ;; makeRequest (ret tt)) w = (Ok tt, w2)
          /\ makeRequest (ret tt) w2 = (Ok tt, w3)
          /\ Js.min (inTrailingWindow w2) = Some t
          /\ t + 60000 - clock w2 <= clock w3 - clock w2).
Proof.
  intros w r w1 En H W C t. subst W C t.
  pose proof H as H0. rewrite canMakeRequest_eq, En in H. simpl in H.
  assert (Hreq : requests (limiter w1) = inTrailingWindow w).
  { destruct (_ <=? _); injection H as <- <-; reflexivity. }
  splits.
  - intros x. rewrite Hreq. unfold inTrailingWindow. rewrite filter_In.
    unfold inWindow. rewrite Z.ltb_lt. split; intros [? ?]; split; auto; lia.
  - rewrite Hreq.
    destruct (_ <=? _) eqn:E; injection H as <- <-.
    + apply Z.leb_le in E. split; [discriminate|lia].
    + apply Z.leb_gt in E. split; [lia|reflexivity].
  - destruct (_ <=? _); injection H as <- <-; auto.
  - intros oldest -> Hmin. splits.
    + apply min_spec, Hmin.
    + apply min_spec. exact Hmin.
    + destruct (_ <=? _); [|discriminate]. injection H as <-.
      simpl in *. rewrite Hmin. reflexivity.
    + intros fuel. rewrite (waitLoop_round fuel _ _ H0).
      rewrite <- Hreq, Hmin. reflexivity.
    + intros HW. destruct (waitForAvailability_returns w HW)
        as (w2 & E2 & _ & _ & Hb).
      exists w2. split; [exact E2|].
      rewrite H0 in Hb. rewrite <- Hreq in Hb.
      specialize (Hb oldest eq_refl Hmin). lia.
  - intros HC HWin Hr. set (t := clock w).
    exists (setRequests [t; t] w).
    assert (H2 : Healthy (setRequests [t; t] w)).
    { unfold Healthy. simpl. rewrite HC, HWin.
      splits; try lia. repeat constructor; lia. }
    assert (Ek : inTrailingWindow (setRequests [t; t] w) = [t; t]).
    { unfold inTrailingWindow. simpl. rewrite HWin. simpl. fold t.
      rewrite (inWindow_now t 60000) by lia. reflexivity. }
    assert (Ec : canMakeRequest (setRequests [t; t] w)
                 = (Ok false,
                    record (Log (RateLimitReached 2 (Some (t + 60000 - t))))
                      (setRequests [t; t] (setRequests [t; t] w)))).
    { rewrite canMakeRequest_eq. rewrite Ek. simpl.
      rewrite En, HC, HWin. simpl. fold t. rewrite Z.min_id. reflexivity. }
    destruct (waitForAvailability_returns _ H2) as (w' & Ew & Hw' & _ & Hb).
    rewrite Ec, Ek in Hb. simpl in Hb. rewrite Z.min_id in Hb.
    specialize (Hb t eq_refl eq_refl). simpl in Hb. rewrite HWin in Hb.
    assert (E3 : makeRequest (ret tt) (setRequests [t; t] w)
                 = (Ok tt, snd (makeRequest (ret tt) (setRequests [t; t] w)))
                 /\ clock (snd (makeRequest (ret tt) (setRequests [t; t] w)))
                    = clock w').
    { rewrite (makeRequest_eq _ _ _ Ew), recordRequest_eq.
      destruct (enabled (limiter w')); split; reflexivity. }
    destruct E3 as [E3 E3c].
    eexists. splits.
    + apply two_acquisitions; auto.
    + exact E3.
    + rewrite Ek. simpl. rewrite Z.min_id. reflexivity.
    + rewrite E3c. simpl. lia.
Qed.


(** ** Relations kept by every step *)

Section Keeps.
Context {R : World -> World -> Prop} {P : Event -> Prop}.
Context {T : Tolerates R P}.

Lemma keeps_ret {A} (a : A) : keeps R (ret a).
Proof. intros w. apply tol_refl. Qed.

Lemma keeps_throw {A} (e : exn) : keeps R (@throw A e).
Proof. intros w. apply tol_refl. Qed.

Lemma keeps_diverge {A} : keeps R (@diverge A).
Proof. intros w. apply tol_refl. Qed.

Lemma keeps_gets {A} (f : World -> A) : keeps R (gets f).
Proof. intros w. apply tol_refl. Qed.

Lemma keeps_modify (f : World -> World) :
  (forall w, R w (f w)) -> keeps R (modify f).
Proof. intros H w. apply H. Qed.

Lemma keeps_bind {A B} (m : M A) (k : A -> M B) :
  keeps R m -> (forall a, keeps R (k a)) -> keeps R (bind m k).
Proof.
  intros Hm Hk w. rewrite bind_eq. specialize (Hm w).
  destruct (m w) as [[a|e|] w1]; simpl in *; auto.
  eapply tol_trans; [exact Hm|apply Hk].
Qed.

Lemma keeps_catch {A} (m : M A) (h : exn -> M A) :
  keeps R m -> (forall e, keeps R (h e)) -> keeps R (catch m h).
Proof.
  intros Hm Hh w. rewrite catch_eq. specialize (Hm w).
  destruct (m w) as [[a|e|] w1]; simpl in *; auto.
  eapply tol_trans; [exact Hm|apply Hh].
Qed.

Lemma keeps_messageOf (e : exn) : keeps R (messageOf e).
Proof. destruct e; [apply keeps_ret|apply keeps_throw]. Qed.

Lemma keeps_forOf {A} (l : list A) (body : A -> M unit) :
  (forall x, In x l -> keeps R (body x)) -> keeps R (forOf l body).
Proof.
  induction l as [|x t IH]; intros H; simpl; [apply keeps_ret|].
  apply keeps_bind; [apply H; now left|].
  intros _. apply IH. intros y Hy. apply H. now right.
Qed.

Lemma keeps_emit (e : Event) : P e -> keeps R (emit e).
Proof. intros H w. apply tol_record, H. Qed.

Lemma keeps_log (l : LogLine) : P (Log l) -> keeps R (log l).
Proof. apply keeps_emit. Qed.

Lemma keeps_setTimeout (d : option Z) : P (Sleep d) -> keeps R (setTimeout d).
Proof.
  intros H. unfold setTimeout. apply keeps_bind; [apply keeps_emit, H|].
  intros _. apply keeps_modify. intros w. apply tol_clock.
Qed.

Lemma keeps_supabase (q : DbQuery) :
  (forall f, P (Query q f)) -> keeps R (supabase q).
Proof.
  intros H w. simpl. eapply tol_trans; [apply tol_query|].
  apply tol_record, H.
Qed.

Lemma keeps_fetch {A} (endpoint : Env -> nat -> HttpResult A)
    (req : Request) :
  (forall s, P (Fetch req s)) -> keeps R (fetch endpoint req).
Proof.
  intros H w. unfold fetch.
  assert (G : R w (record (Fetch req (statusOf (endpoint (env w) (fetched w))))
                     (countFetch w))).
  { eapply tol_trans; [apply tol_fetch|]. apply tol_record, H. }
  destruct (endpoint (env w) (fetched w)); exact G.
Qed.

Lemma keeps_mathRandomDraw : keeps R mathRandomDraw.
Proof. intros w. apply tol_draw. Qed.

Lemma keeps_canMakeRequest :
  (forall n t, P (Log (RateLimitReached n t))) -> keeps R canMakeRequest.
Proof.
  intros H w. rewrite canMakeRequest_eq.
  destruct (negb (enabled (limiter w))); simpl; [apply tol_refl|].
  destruct (_ <=? _); simpl; [|apply tol_requests].
  eapply tol_trans; [apply tol_requests|]. apply tol_record, H.
Qed.

Lemma keeps_recordRequest : keeps R recordRequest.
Proof.
  intros w. rewrite recordRequest_eq. simpl.
  destruct (enabled (limiter w)); [apply tol_requests|apply tol_refl].
Qed.

Lemma keeps_isPersistentError (e : exn) : keeps R (isPersistentError e).
Proof.
  unfold isPersistentError. apply keeps_bind; [apply keeps_messageOf|].
  intros. apply keeps_ret.
Qed.

Lemma keeps_retryLoop {A} (this : Service) (fn : M A) (maxRetries : Z)
    (rounds : nat) :
  keeps R fn ->
  (forall a m d, P (Log (RetryAttempt a m d))) ->
  (forall d, P (Sleep d)) ->
  forall i lastError,
    keeps R (retryLoop this fn maxRetries rounds i lastError).
Proof.
  intros Hfn Hlog Hsleep.
  induction rounds as [|k IH]; intros i lastError; simpl.
  - apply keeps_throw.
  - apply keeps_catch; [exact Hfn|]. intros e.
    apply keeps_bind; [apply keeps_isPersistentError|]. intros p.
    destruct (p || (i =? maxRetries - 1)); [apply keeps_throw|].
    apply keeps_bind; [apply keeps_log, Hlog|]. intros _.
    apply keeps_bind; [apply keeps_setTimeout, Hsleep|]. intros _. apply IH.
Qed.

Lemma keeps_withRetry {A} (this : Service) (fn : M A) (maxRetries : Z) :
  (forall a m d, P (Log (RetryAttempt a m d))) ->
  (forall d, P (Sleep d)) ->
  keeps R fn ->
  keeps R (withRetry this fn maxRetries).
Proof. intros. unfold withRetry. apply keeps_retryLoop; auto. Qed.

Lemma keeps_waitLoop (fuel : nat) :
  (forall n t, P (Log (RateLimitReached n t))) ->
  (forall d, P (Log (RateLimitedWaiting d))) ->
  (forall d, P (Sleep d)) ->
  keeps R (waitLoop fuel).
Proof.
  intros Hc Hlog Hsleep. induction fuel as [|k IH]; simpl.
  - apply keeps_diverge.
  - apply keeps_bind; [apply keeps_canMakeRequest, Hc|].
    intros [|]; [apply keeps_ret|].
    apply keeps_bind; [apply keeps_gets|]. intros t.
    apply keeps_bind; [apply keeps_gets|]. intros this.
    apply keeps_bind; [apply keeps_log, Hlog|]. intros _.
    apply keeps_bind; [apply keeps_setTimeout, Hsleep|]. intros _. exact IH.
Qed.

Lemma keeps_waitForAvailability :
  (forall n t, P (Log (RateLimitReached n t))) ->
  (forall d, P (Log (RateLimitedWaiting d))) ->
  (forall d, P (Sleep d)) ->
  keeps R waitForAvailability.
Proof.
  intros Hc Hlog Hsleep w. unfold waitForAvailability.
  apply keeps_waitLoop; auto.
Qed.

Lemma keeps_makeRequest {A} (requestFn : M A) :
  (forall n t, P (Log (RateLimitReached n t))) ->
  (forall d, P (Log (RateLimitedWaiting d))) ->
  (forall d, P (Sleep d)) ->
  keeps R requestFn ->
  keeps R (makeRequest requestFn).
Proof.
  intros Hc Hlog Hsleep Hfn. unfold makeRequest.
  apply keeps_bind; [apply keeps_waitForAvailability; auto|]. intros _.
  apply keeps_bind; [apply keeps_recordRequest|]. intros _.
  apply keeps_catch; [exact Hfn|]. intros e.
  apply keeps_bind; [apply keeps_messageOf|]. intros _. apply keeps_throw.
Qed.

Lemma keeps_batchLoop (this : Service) (l : list Integration) :
  (forall i c, In i l -> keeps R (syncOne this i c)) ->
  forall c, keeps R (batchLoop this l c).
Proof.
  induction l as [|x t IH]; intros H c; simpl; [apply keeps_ret|].
  apply keeps_bind; [apply H; now left|].
  intros c'. apply IH. intros i c0 Hi. apply H. now right.
Qed.
End Keeps.

(** ** The chronicle only grows *)

Lemma emitsOnly_refl (P : Event -> Prop) (w : World) : emitsOnly P w w.
Proof. exists []. split; [reflexivity|constructor]. Qed.

Lemma emitsOnly_trans (P : Event -> Prop) (a b c : World) :
  emitsOnly P a b -> emitsOnly P b c -> emitsOnly P a c.
Proof.
  intros (d1 & E1 & F1) (d2 & E2 & F2). exists (d2 ++ d1). split.
  - rewrite E2, E1. apply app_assoc.
  - apply Forall_app. split; assumption.
Qed.

Lemma emitsOnly_weaken (P Q : Event -> Prop) (w w' : World) :
  (forall e, P e -> Q e) -> emitsOnly P w w' -> emitsOnly Q w w'.
Proof.
  intros H (d & E & F). exists d. split; [exact E|].
  eapply Forall_impl; [exact H|exact F].
Qed.

Lemma emitsOnly_silent (P : Event -> Prop) (w w' : World) :
  trace w' = trace w -> emitsOnly P w w'.
Proof. intros H. exists []. split; [exact H|constructor]. Qed.

#[export] Instance emitsOnly_tolerates (P : Event -> Prop) :
  Tolerates (emitsOnly P) P.
Proof.
  constructor; try (intros; apply emitsOnly_silent; reflexivity).
  - apply emitsOnly_trans.
  - intros e w H. exists [e]. split; [reflexivity|repeat constructor; exact H].
Qed.

#[export] Instance emitsOnly_writes_appointments (P : Event -> Prop) :
  WritesAppointments (emitsOnly P).
Proof. intros l w. apply emitsOnly_silent. reflexivity. Qed.

#[export] Instance emitsOnly_writes_integrations (P : Event -> Prop) :
  WritesIntegrations (emitsOnly P).
Proof. intros l w. apply emitsOnly_silent. reflexivity. Qed.

#[export] Instance sameAppointments_tolerates :
  Tolerates sameAppointments (fun _ => True).
Proof.
  constructor; try (intros; reflexivity).
  unfold sameAppointments. intros a b c H1 H2. congruence.
Qed.

#[export] Instance sameAppointments_writes_integrations :
  WritesIntegrations sameAppointments.
Proof. intros l w. reflexivity. Qed.

#[export] Instance sameIntegrations_tolerates :
  Tolerates sameIntegrations (fun _ => True).
Proof.
  constructor; try (intros; reflexivity).
  unfold sameIntegrations. intros a b c H1 H2. congruence.
Qed.

#[export] Instance sameIntegrations_writes_appointments :
  WritesAppointments sameIntegrations.
Proof. intros l w. reflexivity. Qed.

(** One step of a proof that a computation keeps a relation: follow the
    shape of the code. *)
Ltac keeps_step :=
  match goal with
  | |- keeps _ (ret _) => apply keeps_ret
  | |- keeps _ (throw _) => apply keeps_throw
  | |- keeps _ diverge => apply keeps_diverge
  | |- keeps _ (gets _) => apply keeps_gets
  | |- keeps _ now => apply keeps_gets
  | |- keeps _ (bind _ _) => apply keeps_bind; [|intros ?]
  | |- keeps _ (catch _ _) => apply keeps_catch; [|intros ?]
  | |- keeps _ (messageOf _) => apply keeps_messageOf
  | |- keeps _ (undefinedProperty _) => apply keeps_throw
  | |- keeps _ (isPersistentError _) => apply keeps_isPersistentError
  | |- keeps _ (categorizeAndRecordError _) =>
      unfold categorizeAndRecordError
  | |- keeps _ (forOf _ _) => apply keeps_forOf; intros ? ?
  | |- keeps _ (log _) => apply keeps_log
  | |- keeps _ (emit _) => apply keeps_emit
  | |- keeps _ (setTimeout _) => apply keeps_setTimeout
  | |- keeps _ (supabase _) => apply keeps_supabase; intros ?
  | |- keeps _ (fetch _ _) => apply keeps_fetch; intros ?
  | |- keeps _ mathRandomDraw => apply keeps_mathRandomDraw
  | |- keeps _ (makeRequest _) =>
      apply keeps_makeRequest; [intros ? ?|intros ?|intros ?|]
  | |- keeps _ (withRetry _ _ _) =>
      apply keeps_withRetry; [intros ? ? ?|intros ?|]
  | |- keeps _ (modify _) =>
      apply keeps_modify; intros ?;
      first [ apply writes_appointments | apply writes_integrations
            | apply tol_requests | apply tol_clock ]
  | |- keeps _ (if ?b then _ else _) => destruct b
  | |- keeps _ (match ?x with _ => _ end) => destruct x
  | |- keeps _ (let _ := _ in _) => cbv zeta
  end.


(** ** Unfolding the engine *)

Create HintDb engine.

#[export] Hint Unfold
  getActiveGoogleCalendarIntegrations updateIntegrationSyncData
  updateIntegrationTokens markIntegrationAsError getCompanyAdminUser
  upsertAppointment getAppointmentByGoogleEventId cancelAppointment
  getUnsyncedLocalAppointments updateAppointmentWithGoogleEventId
  getSyncedAppointments createGoogleEvent pushAppointment
  syncLocalAppointmentsToGoogle buildSyncParams fetchGoogleCalendarEvents
  upsertAppointmentFromGoogleEvent processGoogleEvent syncGoogleEventsToLocal
  checkGoogleEventExists sweepAppointment cleanupOrphanedAppointments
  existenceProbe responseJson refreshAccessToken ensureValidToken
  syncSingleIntegration syncOne
  syncAllIntegrations backOff : engine.

Ltac keeps_auto :=
  autounfold with engine;
  repeat keeps_step;
  try solve [ exact I | reflexivity | assumption ].

(** None of the four stages of [syncSingleIntegration] writes a phase
    line itself. *)
Lemma ensureValidToken_no_phase (this : Service) (integration : Integration) :
  keeps (emitsOnly (without phaseLine)) (ensureValidToken this integration).
Proof. keeps_auto. Qed.

Lemma phaseA_no_phase (this : Service) (integration : Integration)
    (accessToken : string) :
  keeps (emitsOnly (without phaseLine))
    (syncLocalAppointmentsToGoogle this integration accessToken).
Proof. keeps_auto. Qed.

Lemma phaseB_no_phase (this : Service) (integration : Integration)
    (accessToken : string) :
  keeps (emitsOnly (without phaseLine))
    (syncGoogleEventsToLocal this integration accessToken).
Proof. keeps_auto. Qed.

Lemma phaseC_no_phase (this : Service) (integration : Integration)
    (accessToken : string) :
  keeps (emitsOnly (without phaseLine))
    (cleanupOrphanedAppointments this integration accessToken).
Proof. keeps_auto. Qed.


(** ** How computations end *)

Lemma Healthy_frame (w w' : World) :
  limiter w' = limiter w -> clock w' = clock w -> Healthy w -> Healthy w'.
Proof. unfold Healthy. intros -> ->. auto. Qed.

Section Behaves.
Variable E : Eff.

Lemma behaves_ret {A} (a : A) : behaves E (ret a).
Proof. intros w H. split; [exact H|exact I]. Qed.

Lemma behaves_gets {A} (f : World -> A) : behaves E (gets f).
Proof. intros w H. split; [exact H|exact I]. Qed.

Lemma behaves_throw {A} (message : string) :
  E <> Pure -> behaves E (@throw A (Error message)).
Proof. intros HE w H. split; [exact H|exact HE]. Qed.

Lemma behaves_modify (f : World -> World) :
  (forall w, Healthy w -> Healthy (f w)) -> behaves E (modify f).
Proof. intros Hf w H. split; [apply Hf, H|exact I]. Qed.

Lemma behaves_bind {A B} (m : M A) (k : A -> M B) :
  behaves E m -> (forall a, behaves E (k a)) -> behaves E (bind m k).
Proof.
  intros Hm Hk w H. rewrite bind_eq. specialize (Hm w H).
  destruct (m w) as [[a|e|] w1]; simpl in *; auto.
  apply Hk. tauto.
Qed.

Lemma behaves_catch {A} (m : M A) (h : exn -> M A) :
  behaves Raises m ->
  (forall message, behaves E (h (Error message))) ->
  behaves E (catch m h).
Proof.
  intros Hm Hh w H. rewrite catch_eq. specialize (Hm w H).
  destruct (m w) as [[a|[msg|]|] w1]; simpl in *;
    try (destruct Hm as [? Hm]; first [discriminate Hm|contradiction]).
  - tauto.
  - apply Hh. tauto.
Qed.

Lemma behaves_catch_any {A} (m : M A) (h : exn -> M A) :
  behaves RaisesAny m ->
  (forall e, behaves E (h e)) ->
  behaves E (catch m h).
Proof.
  intros Hm Hh w H. rewrite catch_eq. specialize (Hm w H).
  destruct (m w) as [[a|e|] w1]; simpl in *.
  - tauto.
  - apply Hh. tauto.
  - tauto.
Qed.

Lemma behaves_messageOf_error (message : string) :
  behaves E (messageOf (Error message)).
Proof. apply behaves_ret. Qed.

Lemma behaves_messageOf (e : exn) : E <> Pure -> behaves E (messageOf e).
Proof.
  intros HE. destruct e; [apply behaves_ret|]. apply behaves_throw, HE.
Qed.

Lemma behaves_forOf {A} (l : list A) (body : A -> M unit) :
  (forall x, In x l -> behaves E (body x)) -> behaves E (forOf l body).
Proof.
  induction l as [|x t IH]; intros H; simpl; [apply behaves_ret|].
  apply behaves_bind; [apply H; now left|].
  intros _. apply IH. intros y Hy. apply H. now right.
Qed.

Lemma behaves_emit (e : Event) : behaves E (emit e).
Proof. apply behaves_modify. intros w. apply Healthy_frame; reflexivity. Qed.

Lemma behaves_log (l : LogLine) : behaves E (log l).
Proof. apply behaves_emit. Qed.

Lemma behaves_setTimeout (d : option Z) : behaves E (setTimeout d).
Proof.
  unfold setTimeout. apply behaves_bind; [apply behaves_emit|]. intros _.
  apply behaves_modify. intros w H.
  eapply Healthy_later; [exact H|reflexivity|reflexivity| |apply incl_refl].
  simpl. pose proof (timerDelay_pos d). lia.
Qed.

Lemma behaves_supabase (q : DbQuery) : behaves E (supabase q).
Proof.
  intros w H. split; [|exact I].
  revert H. apply Healthy_frame; reflexivity.
Qed.

Lemma behaves_fetch {A} (endpoint : Env -> nat -> HttpResult A)
    (req : Request) :
  E <> Pure -> behaves E (fetch endpoint req).
Proof.
  intros HE w H. unfold fetch.
  destruct (endpoint (env w) (fetched w)); simpl; (split; [|auto]);
    revert H; apply Healthy_frame; reflexivity.
Qed.

Lemma behaves_mathRandomDraw : behaves E mathRandomDraw.
Proof.
  intros w H. split; [|exact I]. revert H. apply Healthy_frame; reflexivity.
Qed.

Lemma behaves_waitForAvailability : behaves E waitForAvailability.
Proof.
  intros w H. destruct (waitForAvailability_returns w H) as (w' & -> & ? & _).
  split; [assumption|exact I].
Qed.

Lemma behaves_recordRequest : behaves E recordRequest.
Proof.
  intros w H. rewrite recordRequest_eq. split; [|exact I]. simpl.
  destruct (enabled (limiter w)); [|exact H].
  destruct H as (HC & HW & HF). unfold Healthy. simpl. splits; auto.
  apply Forall_app. split; [exact HF|]. repeat constructor. lia.
Qed.

Lemma behaves_isPersistentError (message : string) :
  behaves E (isPersistentError (Error message)).
Proof. unfold isPersistentError. simpl. apply behaves_ret. Qed.

Lemma behaves_retryLoop {A} (this : Service) (fn : M A) (maxRetries : Z)
    (rounds : nat) :
  E <> Pure ->
  behaves Raises fn ->
  forall i lastError,
    (rounds = O -> lastError = Undefined -> E = RaisesAny) ->
    behaves E (retryLoop this fn maxRetries rounds i lastError).
Proof.
  intros HE Hfn.
  induction rounds as [|k IH]; intros i lastError Hlast; simpl.
  - intros w H. split; [exact H|]. simpl.
    destruct lastError; [exact HE|]. apply Hlast; reflexivity.
  - apply behaves_catch; [exact Hfn|]. intros msg.
    apply behaves_bind; [apply behaves_isPersistentError|]. intros p.
    destruct (p || (i =? maxRetries - 1)); [apply behaves_throw, HE|].
    apply behaves_bind; [apply behaves_log|]. intros _.
    apply behaves_bind; [apply behaves_setTimeout|]. intros _.
    apply IH. intros _ H. discriminate H.
Qed.

Lemma behaves_batchLoop (this : Service) (l : list Integration) :
  (forall i c, In i l -> behaves E (syncOne this i c)) ->
  forall c, behaves E (batchLoop this l c).
Proof.
  induction l as [|x t IH]; intros H c; simpl; [apply behaves_ret|].
  apply behaves_bind; [apply H; now left|].
  intros c'. apply IH. intros i c0 Hi. apply H. now right.
Qed.
End Behaves.

Lemma behaves_withRetry {A} (this : Service) (fn : M A) (maxRetries : Z) :
  behaves Raises fn -> behaves RaisesAny (withRetry this fn maxRetries).
Proof.
  intros H. unfold withRetry. apply behaves_retryLoop; auto. discriminate.
Qed.

Lemma behaves_withRetry_attempted {A} (this : Service) (fn : M A)
    (maxRetries : Z) (E : Eff) :
  1 <= maxRetries -> E <> Pure ->
  behaves Raises fn -> behaves E (withRetry this fn maxRetries).
Proof.
  intros Hn HE H. unfold withRetry. apply behaves_retryLoop; auto.
  intros H0. lia.
Qed.

Lemma behaves_rethrow {A} (e : exn) (E : Eff) :
  E <> Pure -> behaves E (_ <- messageOf e ;; @throw A e).
Proof.
  intros HE. destruct e as [msg|].
  - apply behaves_bind; [apply behaves_ret|]. intros _. apply behaves_throw, HE.
  - intros w H. split; [exact H|exact HE].
Qed.

Lemma behaves_makeRequest {A} (requestFn : M A) (E : Eff) :
  E <> Pure -> behaves RaisesAny requestFn -> behaves E (makeRequest requestFn).
Proof.
  intros HE H. unfold makeRequest.
  apply behaves_bind; [apply behaves_waitForAvailability|]. intros _.
  apply behaves_bind; [apply behaves_recordRequest|]. intros _.
  apply behaves_catch_any; [exact H|]. intros e. apply behaves_rethrow, HE.
Qed.

Lemma Healthy_setAppointments (l : list Appointment) (w : World) :
  Healthy w -> Healthy (setAppointments l w).
Proof. apply Healthy_frame; reflexivity. Qed.

Lemma Healthy_setIntegrations (l : list Integration) (w : World) :
  Healthy w -> Healthy (setIntegrations l w).
Proof. apply Healthy_frame; reflexivity. Qed.

(** One step of a proof about how a computation ends. *)
Ltac behaves_step :=
  match goal with
  | |- behaves _ (ret _) => apply behaves_ret
  | |- behaves _ (throw (Error _)) => apply behaves_throw; discriminate
  | |- behaves _ (throw (apiError _ _)) => apply behaves_throw; discriminate
  | |- behaves _ (undefinedProperty _) => apply behaves_throw; discriminate
  | |- behaves _ (gets _) => apply behaves_gets
  | |- behaves _ now => apply behaves_gets
  | |- behaves _ (bind (messageOf ?e) (fun _ => throw ?e)) =>
      apply behaves_rethrow; discriminate
  | |- behaves _ (bind _ _) => apply behaves_bind; [|intros ?]
  | |- behaves _ (catch _ _) => apply behaves_catch; [|intros ?]
  | |- behaves _ (messageOf (Error _)) => apply behaves_messageOf_error
  | |- behaves _ (messageOf _) => apply behaves_messageOf; discriminate
  | |- behaves _ (isPersistentError (Error _)) =>
      apply behaves_isPersistentError
  | |- behaves _ (categorizeAndRecordError _) =>
      unfold categorizeAndRecordError
  | |- behaves _ (forOf _ _) => apply behaves_forOf; intros ? ?
  | |- behaves _ (log _) => apply behaves_log
  | |- behaves _ (emit _) => apply behaves_emit
  | |- behaves _ (setTimeout _) => apply behaves_setTimeout
  | |- behaves _ (supabase _) => apply behaves_supabase
  | |- behaves _ (fetch _ _) => apply behaves_fetch; discriminate
  | |- behaves _ mathRandomDraw => apply behaves_mathRandomDraw
  | |- behaves _ (makeRequest _) => apply behaves_makeRequest; [discriminate|]
  | |- behaves RaisesAny (withRetry _ _ _) => apply behaves_withRetry
  | |- behaves _ (modify _) =>
      apply behaves_modify; intros ?;
      first [ apply Healthy_setAppointments | apply Healthy_setIntegrations ]
  | |- behaves _ (if ?b then _ else _) => destruct b
  | |- behaves _ (match ?x with _ => _ end) => destruct x
  | |- behaves _ (let _ := _ in _) => cbv zeta
  end.

Ltac behaves_auto := autounfold with engine; repeat behaves_step.

(** Phase A, phase C and the handling of one remote event never throw and
    never hang; phase B and the token check may throw, an error object in
    the first case. *)
Lemma phaseA_pure (this : Service) (integration : Integration)
    (accessToken : string) (E : Eff) :
  behaves E (syncLocalAppointmentsToGoogle this integration accessToken).
Proof. behaves_auto. Qed.

Lemma phaseC_pure (this : Service) (integration : Integration)
    (accessToken : string) (E : Eff) :
  behaves E (cleanupOrphanedAppointments this integration accessToken).
Proof. behaves_auto. Qed.

Lemma processGoogleEvent_pure (companyId : string) (googleEvent : GoogleEvent)
    (E : Eff) :
  behaves E (processGoogleEvent companyId googleEvent).
Proof. behaves_auto. Qed.

Lemma phaseB_raises (this : Service) (integration : Integration)
    (accessToken : string) :
  behaves Raises (syncGoogleEventsToLocal this integration accessToken).
Proof. behaves_auto. Qed.

Lemma ensureValidToken_raises (this : Service) (integration : Integration) :
  behaves RaisesAny (ensureValidToken this integration).
Proof. behaves_auto. Qed.

Lemma syncSingleIntegration_raises (this : Service)
    (integration : Integration) :
  behaves Raises (syncSingleIntegration this integration).
Proof.
  unfold syncSingleIntegration.
  apply behaves_bind; [apply behaves_log|]. intros _.
  apply behaves_catch_any.
  - apply behaves_bind; [apply ensureValidToken_raises|]. intros tok.
    apply behaves_bind; [apply behaves_log|]. intros _.
    apply behaves_bind; [apply phaseA_pure|]. intros _.
    apply behaves_bind; [apply behaves_log|]. intros _.
    apply behaves_bind; [behaves_auto|]. intros n.
    apply behaves_bind; [apply behaves_log|]. intros _.
    apply behaves_bind; [apply phaseC_pure|]. intros _.
    apply behaves_bind; [apply behaves_log|]. intros _. apply behaves_ret.
  - intros e. destruct e as [msg|].
    + behaves_auto.
    + intros w H. split; [exact H|]. simpl. discriminate.
Qed.

Lemma syncOne_pure (this : Service) (integration : Integration) (c : Counts)
    (E : Eff) :
  behaves E (syncOne this integration c).
Proof.
  unfold syncOne. apply behaves_catch.
  - apply behaves_bind; [apply syncSingleIntegration_raises|]. intros _.
    apply behaves_ret.
  - intros msg. behaves_auto.
Qed.

Lemma syncAllIntegrations_pure (this : Service) (E : Eff) :
  behaves E (syncAllIntegrations this).
Proof.
  unfold syncAllIntegrations. apply behaves_catch.
  - apply behaves_bind; [behaves_auto|]. intros l.
    destruct l; [apply behaves_log|].
    apply behaves_bind; [|intros; apply behaves_log].
    apply behaves_batchLoop. intros. apply syncOne_pure.
  - intros msg. behaves_auto.
Qed.


(** ** Phase order in [syncSingleIntegration] *)

Lemma history_record (e : Event) (w : World) :
  history (record e w) = history w ++ [e].
Proof. reflexivity. Qed.

Lemma phases_record (e : Event) (w : World) :
  phases (record e w) = phases w ++ (if phaseLine e then [e] else []).
Proof.
  unfold phases. rewrite history_record, filter_app. simpl.
  destruct (phaseLine e); reflexivity.
Qed.

Lemma filter_none {A} (p : A -> bool) (l : list A) :
  Forall (fun x => p x = false) l -> filter p l = [].
Proof.
  induction 1 as [|x t Hx _ IH]; [reflexivity|]. simpl. rewrite Hx. exact IH.
Qed.

Lemma phases_kept (w w' : World) :
  emitsOnly (without phaseLine) w w' -> phases w' = phases w.
Proof.
  intros (d & E & F). unfold phases, history. rewrite E, rev_app_distr, filter_app.
  rewrite (filter_none phaseLine (rev d)); [apply app_nil_r|].
  apply Forall_rev. exact F.
Qed.

Arguments phases : simpl never.

Lemma run_eq {A} (m : M A) (w : World) : m w = (fst (m w), snd (m w)).
Proof. destruct (m w); reflexivity. Qed.

(** C1 (as amended).  [syncSingleIntegration] runs the phases in the
    order A, B, C.  Phase A always returns, so phase B is always started
    after it; phase C always returns, so an error inside it never reaches
    the caller.  Phase B is not guarded: when it throws, phase C is not
    started and the error leaves [syncSingleIntegration]. *)
Theorem phases_in_order :
  forall (this : Service) (integration : Integration) (w : World)
         (accessToken : string) (w1 : World),
    Healthy w ->
    ensureValidToken this integration
      (record (Log (SyncStart (i_id integration))) w) = (Ok accessToken, w1) ->
    exists w2,
      syncLocalAppointmentsToGoogle this integration accessToken
        (record (Log Phase1) w1) = (Ok tt, w2)
      /\ match syncGoogleEventsToLocal this integration accessToken
                 (record (Log Phase2) w2) with
         | (Ok eventsProcessed, w3) =>
             exists w4,
               cleanupOrphanedAppointments this integration accessToken
                 (record (Log Phase3) w3) = (Ok tt, w4)
               /\ syncSingleIntegration this integration w
                  = (Ok eventsProcessed,
                     record (Log (SyncComplete eventsProcessed)) w4)
               /\ phases (snd (syncSingleIntegration this integration w))
                  = phases w ++ [Log Phase1; Log Phase2; Log Phase3]
         | (Throw e, w3) =>
             exists message,
               e = Error message
               /\ syncSingleIntegration this integration w
                  = (Throw e, record (Log (SyncFailed message)) w3)
               /\ phases (snd (syncSingleIntegration this integration w))
                  = phases w ++ [Log Phase1; Log Phase2]
         | (Diverge, _) => False
         end.
Proof.
  intros this integration w tok w1 HW Etok.
  assert (H1 : Healthy w1).
  { pose proof (ensureValidToken_raises this integration
                  (record (Log (SyncStart (i_id integration))) w)) as H.
    rewrite Etok in H. apply H. revert HW. apply Healthy_frame; reflexivity. }
  assert (P1 : phases w1 = phases w).
  { pose proof (ensureValidToken_no_phase this integration
                  (record (Log (SyncStart (i_id integration))) w)) as H.
    rewrite Etok in H. cbn [snd] in H. apply phases_kept in H. rewrite H.
    rewrite phases_record. apply app_nil_r. }
  (* phase A *)
  set (wA := record (Log Phase1) w1).
  assert (HA : Healthy wA) by (revert H1; apply Healthy_frame; reflexivity).
  pose proof (phaseA_pure this integration tok Pure wA HA) as [H2 RA].
  pose proof (phaseA_no_phase this integration tok wA) as KA.
  rewrite (run_eq (syncLocalAppointmentsToGoogle this integration tok) wA)
    in *.
  destruct (syncLocalAppointmentsToGoogle this integration tok wA)
    as [[[]|[m|]|] w2] eqn:EA; simpl in RA, H2, KA;
    try contradiction; try discriminate RA.
  exists w2. split; [reflexivity|].
  assert (P2 : phases w2 = phases w ++ [Log Phase1]).
  { apply phases_kept in KA. rewrite KA. unfold wA.
    rewrite phases_record, P1. reflexivity. }
  (* phase B *)
  set (wB := record (Log Phase2) w2).
  assert (HB : Healthy wB) by (revert H2; apply Healthy_frame; reflexivity).
  pose proof (phaseB_raises this integration tok wB HB) as [H3 RB].
  pose proof (phaseB_no_phase this integration tok wB) as KB.
  assert (P3 : phases (snd (syncGoogleEventsToLocal this integration tok wB))
               = phases w ++ [Log Phase1; Log Phase2]).
  { apply phases_kept in KB. rewrite KB. unfold wB.
    rewrite phases_record, P2, <- app_assoc. reflexivity. }
  assert (Erun : syncSingleIntegration this integration w
                 = match syncGoogleEventsToLocal this integration tok wB with
                   | (Ok n, w3) =>
                       match cleanupOrphanedAppointments this integration tok
                               (record (Log Phase3) w3) with
                       | (Ok _, w4) =>
                           (Ok n, record (Log (SyncComplete n)) w4)
                       | (Throw e, w4) =>
                           (message <- messageOf e ;;
                            log (SyncFailed message) ;; throw e) w4
                       | (Diverge, w4) => (Diverge, w4)
                       end
                   | (Throw e, w3) =>
                       (message <- messageOf e ;;
                        log (SyncFailed message) ;; throw e) w3
                   | (Diverge, w3) => (Diverge, w3)
                   end).
  { unfold syncSingleIntegration.
    rewrite bind_eq. unfold log at 1, emit, modify.
    rewrite catch_eq, bind_eq, Etok.
    rewrite bind_eq. unfold log at 1, emit, modify. fold wA.
    rewrite bind_eq, EA. rewrite bind_eq. unfold log at 1, emit, modify.
    fold wB. rewrite bind_eq.
    destruct (syncGoogleEventsToLocal this integration tok wB)
      as [[n|e|] w3]; try reflexivity.
    rewrite bind_eq. unfold log at 1, emit, modify.
    rewrite bind_eq.
    destruct (cleanupOrphanedAppointments this integration tok
                (record (Log Phase3) w3)) as [[[]|e|] w4]; reflexivity. }
  rewrite Erun. clear Erun.
  destruct (syncGoogleEventsToLocal this integration tok wB)
    as [[n|[m|]|] w3] eqn:EB; simpl in RB, H3, P3;
    try contradiction; try discriminate RB.
  - (* phase C *)
    set (wC := record (Log Phase3) w3).
    assert (HC : Healthy wC) by (revert H3; apply Healthy_frame; reflexivity).
    pose proof (phaseC_pure this integration tok Pure wC HC) as [H4 RC].
    pose proof (phaseC_no_phase this integration tok wC) as KC.
    destruct (cleanupOrphanedAppointments this integration tok wC)
      as [[[]|[m|]|] w4] eqn:EC; simpl in RC, H4, KC;
      try contradiction; try discriminate RC.
    exists w4. split; [reflexivity|]. split; [reflexivity|].
    cbn [snd]. rewrite phases_record. cbn [phaseLine]. rewrite app_nil_r.
    apply phases_kept in KC. rewrite KC. unfold wC.
    rewrite phases_record, P3, <- app_assoc. reflexivity.
  - exists m. split; [reflexivity|]. split; [reflexivity|].
    simpl. rewrite phases_record. cbn [phaseLine]. rewrite app_nil_r.
    exact P3.
Qed.


(** ** The batch loop *)

Arguments started : simpl never.

Lemma startedIn_none (l : list Event) :
  Forall (without startLine) l -> startedIn l = [].
Proof.
  induction 1 as [|e t He _ IH]; [reflexivity|]. simpl. rewrite IH.
  destruct e as [| | |[]]; try reflexivity. discriminate He.
Qed.

Lemma startedIn_app (a b : list Event) :
  startedIn (a ++ b) = startedIn a ++ startedIn b.
Proof. apply flat_map_app. Qed.

Lemma started_kept (w w' : World) :
  emitsOnly (without startLine) w w' -> started w' = started w.
Proof.
  intros (d & E & F). unfold started, history.
  rewrite E, rev_app_distr, startedIn_app.
  rewrite (startedIn_none (rev d)); [apply app_nil_r|].
  apply Forall_rev. exact F.
Qed.

Lemma started_record (k : string) (w : World) :
  started (record (Log (SyncStart k)) w) = started w ++ [k].
Proof.
  unfold started. rewrite history_record, startedIn_app. reflexivity.
Qed.

Lemma syncOne_started (this : Service) (integration : Integration)
    (c : Counts) (w : World) :
  started (snd (syncOne this integration c w))
  = started w ++ [i_id integration].
Proof.
  rewrite <- started_record.
  apply started_kept.
  assert (K : keeps (emitsOnly (without startLine))
                (catch
                   (_ <- catch
                           (accessToken <- ensureValidToken this integration ;;
                            log Phase1 ;;
                            syncLocalAppointmentsToGoogle this integration
                              accessToken ;;
                            log Phase2 ;;
                            eventsProcessed <-
                              syncGoogleEventsToLocal this integration
                                accessToken ;;
                            log Phase3 ;;
                            cleanupOrphanedAppointments this integration
                              accessToken ;;
                            log (SyncComplete eventsProcessed) ;;
                            ret eventsProcessed)
                           (fun error =>
                              message <- messageOf error ;;
                              log (SyncFailed message) ;;
                              throw error) ;;
                    ret {| processedCount := processedCount c + 1;
                           successCount := successCount c + 1;
                           errorCount := errorCount c |})
                   (fun error =>
                      message <- messageOf error ;;
                      categorizeAndRecordError error ;;
                      persistent <- isPersistentError error ;;
                      (if persistent then
                         _ <- markIntegrationAsError (i_id integration)
                                message ;; ret tt
                       else ret tt) ;;
                      ret {| processedCount := processedCount c + 1;
                             successCount := successCount c;
                             errorCount := errorCount c + 1 |}))).
  { keeps_auto. }
  exact (K (record (Log (SyncStart (i_id integration))) w)).
Qed.

Lemma result_bind {A B} (Q : B -> Prop) (m : M A) (k : A -> M B)
    (w w' : World) (b : B) :
  (forall a w0, k a w0 = (Ok b, w') -> Q b) ->
  bind m k w = (Ok b, w') -> Q b.
Proof.
  intros Hk. rewrite bind_eq. destruct (m w) as [[a|e|] w0]; try discriminate.
  apply Hk.
Qed.

Lemma syncOne_counts (this : Service) (integration : Integration)
    (c c1 : Counts) (w w1 : World) :
  syncOne this integration c w = (Ok c1, w1) ->
  processedCount c1 = processedCount c + 1.
Proof.
  unfold syncOne. rewrite catch_eq.
  set (Q := fun x : Counts => processedCount x = processedCount c + 1).
  change (processedCount c1 = processedCount c + 1) with (Q c1).
  destruct (bind (syncSingleIntegration this integration) _ w)
    as [[c0|e|] w0] eqn:E.
  - intros E1. rewrite E1 in E. revert E. apply (result_bind Q).
    intros a w2 E2. inversion E2. reflexivity.
  - apply (result_bind Q). intros m w2. apply (result_bind Q). intros _ w3.
    apply (result_bind Q). intros p w4. apply (result_bind Q). intros _ w5 E2.
    inversion E2. reflexivity.
  - discriminate.
Qed.

Lemma batchLoop_runs (this : Service) (batch : list Integration) :
  forall (c : Counts) (w : World),
    Healthy w ->
    exists c' w',
      batchLoop this batch c w = (Ok c', w')
      /\ Healthy w'
      /\ processedCount c'
         = processedCount c + Z.of_nat (List.length batch)
      /\ started w' = started w ++ map i_id batch.
Proof.
  induction batch as [|i t IH]; intros c w H.
  - exists c, w. simpl. splits; auto; [lia|]. symmetry. apply app_nil_r.
  - cbn [batchLoop]. rewrite bind_eq.
    pose proof (syncOne_pure this i c Pure w H) as [H1 R1].
    pose proof (syncOne_started this i c w) as S1.
    destruct (syncOne this i c w) as [[c1|[m|]|] w1] eqn:C1; simpl in *;
      try contradiction; try discriminate R1.
    destruct (IH c1 w1 H1) as (c' & w' & E & H' & Hc & Hs).
    exists c', w'. splits; auto.
    + rewrite Hc, (syncOne_counts this i c c1 w w1 C1). lia.
    + rewrite Hs, S1, <- app_assoc. reflexivity.
Qed.

Lemma markIntegrationAsError_eq (integrationId message : string) (w : World) :
  markIntegrationAsError integrationId message w =
  let failure := dbError (env w) (queried w) in
  let w' := record (Query (MarkError integrationId) failure) (countQuery w) in
  match failure with
  | Some _ => (Ok false, w')
  | None =>
      (Ok true,
       setIntegrations
         (updateWhere i_id integrationId
            (withIntegrationStatus "error" (clock w)) (integrations w)) w')
  end.
Proof.
  unfold markIntegrationAsError, bind, now, gets, supabase, modify, ret.
  simpl. destruct (dbError (env w) (queried w)); reflexivity.
Qed.

Lemma updateWhere_hit {A} (key : A -> string) (k : string) (f : A -> A)
    (table : list A) (r : A) :
  In r (updateWhere key k f table) ->
  (exists r0, In r0 table /\ key r0 = k /\ r = f r0)
  \/ (In r table /\ key r <> k).
Proof.
  unfold updateWhere. rewrite in_map_iff. intros (r0 & E & Hin).
  destruct (String.eqb_spec (key r0) k) as [Hk|Hk].
  - left. exists r0. auto.
  - right. subst r. auto.
Qed.

(** C7 (as amended).  When [syncSingleIntegration] throws for an
    integration, the batch loop catches the error and goes on with the
    remaining integrations of the cycle.  It marks the integration
    [status = 'error'] when the error is terminal (its message contains
    401, 403, 404, 410, invalid_grant or token_revoked); for any other
    error, a transient one whose retries were exhausted included, it
    writes nothing and the status stays as it was. *)
Theorem batch_marks_terminal_errors :
  forall (this : Service) (integration : Integration)
         (rest : list Integration) (c : Counts) (w : World)
         (e : exn) (w1 : World),
    Healthy w ->
    syncSingleIntegration this integration w = (Throw e, w1) ->
    exists message,
      e = Error message
      /\ (persistentMessage (Js.toLowerCase message) = true ->
          syncOne this integration c w
          = (Ok {| processedCount := processedCount c + 1;
                   successCount := successCount c;
                   errorCount := errorCount c + 1 |},
             snd (markIntegrationAsError (i_id integration) message w1))
          /\ trace (snd (syncOne this integration c w))
             = Query (MarkError (i_id integration))
                 (dbError (env w1) (queried w1)) :: trace w1
          /\ (dbError (env w1) (queried w1) = None ->
              forall i,
                In i (integrations (snd (syncOne this integration c w))) ->
                i_id i = i_id integration -> i_status i = "error"%string))
      /\ (persistentMessage (Js.toLowerCase message) = false ->
          syncOne this integration c w
          = (Ok {| processedCount := processedCount c + 1;
                   successCount := successCount c;
                   errorCount := errorCount c + 1 |}, w1))
      /\ exists c' w',
           batchLoop this (integration :: rest) c w = (Ok c', w')
           /\ processedCount c'
              = processedCount c + 1 + Z.of_nat (List.length rest)
           /\ started w'
              = started w ++ i_id integration :: map i_id rest.
Proof.
  intros this integration rest c w e w1 HW Erun.
  pose proof (syncSingleIntegration_raises this integration w HW) as [_ Ra].
  rewrite Erun in Ra. simpl in Ra.
  destruct e as [message|]; [|discriminate Ra].
  exists message. split; [reflexivity|].
  assert (Eone : syncOne this integration c w
                 = (Ok {| processedCount := processedCount c + 1;
                          successCount := successCount c;
                          errorCount := errorCount c + 1 |},
                    if persistentMessage (Js.toLowerCase message)
                    then snd (markIntegrationAsError (i_id integration)
                                message w1)
                    else w1)).
  { unfold syncOne. rewrite catch_eq, bind_eq, Erun.
    cbv beta iota delta
      [bind ret messageOf categorizeAndRecordError isPersistentError].
    destruct (persistentMessage (Js.toLowerCase message)); [|reflexivity].
    rewrite markIntegrationAsError_eq. cbv zeta.
    destruct (dbError (env w1) (queried w1)); reflexivity. }
  splits.
  - intros Hp. rewrite Hp in Eone. rewrite Eone. cbn [snd]. splits.
    + reflexivity.
    + rewrite markIntegrationAsError_eq. cbv zeta.
      destruct (dbError (env w1) (queried w1)); reflexivity.
    + intros Hdb i. rewrite markIntegrationAsError_eq. cbv zeta. rewrite Hdb.
      cbn [snd integrations setIntegrations]. intros Hin Hid.
      apply updateWhere_hit in Hin.
      destruct Hin as [(r0 & _ & _ & ->)|[_ Hne]]; [reflexivity|].
      contradiction.
  - intros Hp. rewrite Hp in Eone. exact Eone.
  - destruct (batchLoop_runs this (integration :: rest) c w HW)
      as (c' & w' & E & _ & Hc & Hs).
    exists c', w'. splits; auto.
    rewrite Hc. cbn [List.length]. lia.
Qed.


(** ** Phase B and the cursor *)

Arguments cursorWrites : simpl never.

Lemma cursorWrites_kept (w w' : World) :
  emitsOnly (without cursorWrite) w w' -> cursorWrites w' = cursorWrites w.
Proof.
  intros (d & E & F). unfold cursorWrites. rewrite E, filter_app.
  rewrite (filter_none cursorWrite d F). reflexivity.
Qed.

Lemma updateIntegrationSyncData_eq (integrationId syncToken : string)
    (w : World) :
  updateIntegrationSyncData integrationId syncToken w =
  let failure := dbError (env w) (queried w) in
  let w' := record (Query (UpdateSyncData integrationId syncToken) failure)
              (countQuery w) in
  match failure with
  | Some _ => (Ok false, w')
  | None =>
      (Ok true,
       setIntegrations
         (updateWhere i_id integrationId
            (withSyncData syncToken (clock w)) (integrations w)) w')
  end.
Proof.
  unfold updateIntegrationSyncData, bind, now, gets, supabase, modify, ret.
  simpl. destruct (dbError (env w) (queried w)); reflexivity.
Qed.

Lemma buildSyncParams_eq (integration : Integration) (w : World) :
  buildSyncParams integration w = (fst (buildSyncParams integration w), w)
  /\ exists params, fst (buildSyncParams integration w) = Ok params.
Proof.
  unfold buildSyncParams.
  destruct (i_sync_token integration) as [t|]; [destruct (String.eqb t "")|];
    split; try reflexivity; eexists; reflexivity.
Qed.

Lemma processing_no_cursor (companyId : string) (l : list GoogleEvent) :
  keeps (emitsOnly (without cursorWrite))
    (forOf l (processGoogleEvent companyId)).
Proof. keeps_auto. Qed.

Lemma processing_sameIntegrations (companyId : string) (l : list GoogleEvent) :
  keeps sameIntegrations (forOf l (processGoogleEvent companyId)).
Proof. keeps_auto. Qed.

Lemma processing_pure (companyId : string) (l : list GoogleEvent) (E : Eff) :
  behaves E (forOf l (processGoogleEvent companyId)).
Proof. behaves_auto. Qed.

Lemma listing_no_cursor (this : Service) (accessToken calendarId : string)
    (params : SyncParams) :
  keeps (emitsOnly (without cursorWrite))
    (fetchGoogleCalendarEvents this accessToken calendarId params).
Proof. keeps_auto. Qed.

Lemma listing_sameIntegrations (this : Service)
    (accessToken calendarId : string) (params : SyncParams) :
  keeps sameIntegrations
    (fetchGoogleCalendarEvents this accessToken calendarId params).
Proof. keeps_auto. Qed.

Lemma listing_raises (this : Service) (accessToken calendarId : string)
    (params : SyncParams) :
  behaves Raises (fetchGoogleCalendarEvents this accessToken calendarId params).
Proof. behaves_auto. Qed.

(** C2.  A pass of phase B whose listing was received: the loop over the
    items always completes, whatever happens to the individual items, and
    then the cursor is written exactly once if the listing carries one
    (the write is the last thing the pass does and, when the store
    accepts it, the stored cursor is the new one whatever it was before)
    and not at all otherwise (the integrations table is left as it
    was). *)
Theorem cursor_written_once :
  forall (this : Service) (integration : Integration) (accessToken : string)
         (w : World) (params : SyncParams) (eventsData : EventsData)
         (w1 : World),
    Healthy w ->
    buildSyncParams integration w = (Ok params, w) ->
    fetchGoogleCalendarEvents this accessToken (i_calendar_id integration)
      params w = (Ok eventsData, w1) ->
    let pass := syncGoogleEventsToLocal this integration accessToken w in
    exists w2,
      forOf (itemsOf eventsData)
        (processGoogleEvent (i_company_id integration)) w1 = (Ok tt, w2)
      /\ fst pass = Ok (Z.of_nat (List.length (itemsOf eventsData)))
      /\ match newCursor eventsData with
         | Some token =>
             cursorWrites (snd pass) = S (cursorWrites w)
             /\ trace (snd pass)
                = Query (UpdateSyncData (i_id integration) token)
                    (dbError (env w2) (queried w2)) :: trace w2
             /\ (dbError (env w2) (queried w2) = None ->
                 forall i,
                   In i (integrations (snd pass)) ->
                   i_id i = i_id integration -> i_sync_token i = Some token)
         | None =>
             cursorWrites (snd pass) = cursorWrites w
             /\ snd pass = w2
             /\ integrations (snd pass) = integrations w
         end.
Proof.
  intros this integration tok w params data w1 HW Eb Ef pass.
  pose proof (listing_raises this tok (i_calendar_id integration) params w HW)
    as [H1 _]. rewrite Ef in H1. cbn [snd] in H1.
  pose proof (listing_no_cursor this tok (i_calendar_id integration) params w)
    as K1. rewrite Ef in K1. cbn [snd] in K1. apply cursorWrites_kept in K1.
  pose proof (listing_sameIntegrations this tok (i_calendar_id integration)
                params w) as I1. rewrite Ef in I1. cbn [snd] in I1.
  set (loop := forOf (itemsOf data)
                 (processGoogleEvent (i_company_id integration))).
  pose proof (processing_pure (i_company_id integration) (itemsOf data)
                Pure w1 H1) as [H2 R2].
  pose proof (processing_no_cursor (i_company_id integration) (itemsOf data)
                w1) as K2. apply cursorWrites_kept in K2.
  pose proof (processing_sameIntegrations (i_company_id integration)
                (itemsOf data) w1) as I2.
  fold loop in H2, R2, K2, I2.
  destruct (loop w1) as [[[]|[m|]|] w2] eqn:El; simpl in R2;
    try contradiction; try discriminate R2.
  cbn [snd] in H2, K2, I2.
  exists w2. split; [reflexivity|].
  assert (Epass : pass =
            match newCursor data with
            | Some token =>
                (Ok (Z.of_nat (List.length (itemsOf data))),
                 snd (updateIntegrationSyncData (i_id integration) token w2))
            | None => (Ok (Z.of_nat (List.length (itemsOf data))), w2)
            end).
  { unfold pass, syncGoogleEventsToLocal.
    rewrite bind_eq, Eb, bind_eq, Ef, bind_eq. fold loop. rewrite El.
    unfold newCursor.
    destruct (nextSyncToken data) as [t|]; [|reflexivity].
    destruct (String.eqb t ""); [reflexivity|].
    rewrite bind_eq, updateIntegrationSyncData_eq. cbv zeta.
    destruct (dbError (env w2) (queried w2)); reflexivity. }
  rewrite Epass.
  destruct (newCursor data) as [token|]; cbn [fst snd].
  - split; [reflexivity|].
    rewrite updateIntegrationSyncData_eq. cbv zeta. splits.
    + unfold cursorWrites in *.
      destruct (dbError (env w2) (queried w2)); cbn; rewrite K2, K1; reflexivity.
    + destruct (dbError (env w2) (queried w2)); reflexivity.
    + intros Hdb i. rewrite Hdb. cbn [snd integrations setIntegrations].
      intros Hin Hid. apply updateWhere_hit in Hin.
      destruct Hin as [(r0 & _ & _ & ->)|[_ Hne]]; [reflexivity|contradiction].
  - split; [reflexivity|]. splits; [congruence|reflexivity|].
    unfold sameIntegrations in *. congruence.
Qed.


(** ** Ordering rows *)

Section OrderBy.
Variable A : Type.
Variable before : A -> A -> bool.
Hypothesis before_total : forall a b, before a b = false -> before b a = true.
Hypothesis before_trans :
  forall a b c, before a b = true -> before b c = true -> before a c = true.

Lemma insertBy_perm (x : A) (l : list A) :
  Permutation (insertBy before x l) (x :: l).
Proof.
  induction l as [|y t IH]; simpl; [apply Permutation_refl|].
  destruct (before x y); [apply Permutation_refl|].
  eapply Permutation_trans; [apply perm_skip, IH|apply perm_swap].
Qed.

Lemma orderBy_perm (l : list A) : Permutation (orderBy before l) l.
Proof.
  induction l as [|x t IH]; simpl; [apply Permutation_refl|].
  eapply Permutation_trans; [apply insertBy_perm|apply perm_skip, IH].
Qed.

Lemma orderBy_In (l : list A) (x : A) : In x (orderBy before l) <-> In x l.
Proof.
  split; apply Permutation_in;
    [apply orderBy_perm|apply Permutation_sym, orderBy_perm].
Qed.


Lemma insertBy_sorted (x : A) (l : list A) :
  StronglySorted (fun a b => before a b = true) l ->
  StronglySorted (fun a b => before a b = true) (insertBy before x l).
Proof.
  induction 1 as [|y t Ht IH Hy]; simpl.
  - repeat constructor.
  - destruct (before x y) eqn:E.
    + constructor; [constructor; assumption|].
      constructor; [exact E|].
      rewrite Forall_forall in *. intros z Hz.
      eapply before_trans; [exact E|apply Hy, Hz].
    + constructor; [exact IH|].
      rewrite Forall_forall in *. intros z Hz.
      apply (Permutation_in _ (insertBy_perm x t)) in Hz.
      destruct Hz as [<-|Hz]; [apply before_total, E|apply Hy, Hz].
Qed.

Lemma orderBy_sorted (l : list A) :
  StronglySorted (fun a b => before a b = true) (orderBy before l).
Proof.
  induction l as [|x t IH]; simpl; [constructor|].
  apply insertBy_sorted, IH.
Qed.
End OrderBy.



(** ** Phase A: what is selected, and what is pushed *)

Lemma unsynced_spec (companyId googleCalendarId : string) (a : Appointment) :
  unsynced companyId googleCalendarId a = true <->
  a_company_id a = companyId
  /\ a_google_calendar_id a = Some googleCalendarId
  /\ a_google_event_id a = None
  /\ a_status a <> "cancelled"%string.
Proof.
  unfold unsynced, eqCol, isNull. rewrite !andb_true_iff, negb_true_iff.
  destruct (String.eqb_spec (a_company_id a) companyId);
    destruct (a_google_calendar_id a) as [c|];
    [destruct (String.eqb_spec c googleCalendarId)| | |];
    destruct (a_google_event_id a);
    destruct (String.eqb_spec (a_status a) "cancelled");
    split; intros; try (splits; congruence); try tauto;
    try (exfalso; intuition congruence).
Qed.

Lemma selectUnsynced_In (companyId googleCalendarId : string)
    (table : list Appointment) (a : Appointment) :
  In a (selectUnsynced companyId googleCalendarId table) <->
  In a table /\ unsynced companyId googleCalendarId a = true.
Proof.
  unfold selectUnsynced. rewrite orderBy_In. apply filter_In.
Qed.

Lemma getUnsyncedLocalAppointments_eq (companyId googleCalendarId : string)
    (w : World) :
  getUnsyncedLocalAppointments companyId googleCalendarId w =
  let failure := dbError (env w) (queried w) in
  let w' := record (Query (SelectUnsynced companyId googleCalendarId) failure)
              (countQuery w) in
  match failure with
  | Some m => (Throw (Error m), w')
  | None =>
      (Ok (selectUnsynced companyId googleCalendarId (appointments w)), w')
  end.
Proof.
  unfold getUnsyncedLocalAppointments, bind, gets, supabase, throw, ret.
  simpl. destruct (dbError (env w) (queried w)); reflexivity.
Qed.

Lemma pushAppointment_other (this : Service) (integration : Integration)
    (accessToken appointmentId : string) (a : Appointment) :
  a_id a <> appointmentId ->
  keeps (emitsOnly (without (insertionFor appointmentId)))
    (pushAppointment this integration accessToken a).
Proof.
  intros Hne. keeps_auto.
  all: unfold without; simpl; apply String.eqb_neq; exact Hne.
Qed.

(** Once every row with the key carries an external id, phase A sends no
    insertion for that key. *)
Lemma phaseA_skips_pushed (this : Service) (integration : Integration)
    (accessToken appointmentId : string) (w : World) :
  pushed appointmentId w ->
  emitsOnly (without (insertionFor appointmentId)) w
    (snd (syncLocalAppointmentsToGoogle this integration accessToken w)).
Proof.
  intros Hp. unfold syncLocalAppointmentsToGoogle.
  rewrite catch_eq, bind_eq, getUnsyncedLocalAppointments_eq. cbv zeta.
  set (w1 := record _ (countQuery w)).
  assert (E1 : emitsOnly (without (insertionFor appointmentId)) w w1).
  { exists [Query (SelectUnsynced (i_company_id integration)
                     (i_calendar_id integration))
              (dbError (env w) (queried w))].
    split; [reflexivity|]. repeat constructor. }
  destruct (dbError (env w) (queried w)) as [m|].
  { exact E1. }
  set (rows := selectUnsynced _ _ (appointments w)).
  assert (Hrows : forall x, In x rows -> a_id x <> appointmentId).
  { intros x Hx Hid. apply selectUnsynced_In in Hx. destruct Hx as [Hin Hu].
    apply unsynced_spec in Hu. apply (Hp x Hin Hid). tauto. }
  assert (K : keeps (emitsOnly (without (insertionFor appointmentId)))
                (catch
                   (forOf rows (pushAppointment this integration accessToken))
                   (fun error => _ <- messageOf error ;; ret tt))).
  { apply keeps_catch; [|intros; keeps_auto].
    apply keeps_forOf. intros x Hx. apply pushAppointment_other, Hrows, Hx. }
  specialize (K w1). rewrite catch_eq in K.
  eapply emitsOnly_trans; [exact E1|].
  destruct rows as [|r rest] eqn:Er; [apply emitsOnly_refl|].
  exact K.
Qed.


(** ** An external id, once set, stays set *)

#[export] Instance staysPushed_tolerates (appointmentId : string) :
  Tolerates (staysPushed appointmentId) (fun _ => True).
Proof.
  constructor; unfold staysPushed; auto.
Qed.

#[export] Instance staysPushed_writes_integrations (appointmentId : string) :
  WritesIntegrations (staysPushed appointmentId).
Proof. intros l w H. exact H. Qed.

Lemma pushed_map (appointmentId : string) (g : Appointment -> Appointment)
    (w : World) :
  (forall r, a_google_event_id (g r) <> None
             \/ (a_id (g r) = a_id r
                 /\ a_google_event_id (g r) = a_google_event_id r)) ->
  staysPushed appointmentId w (setAppointments (map g (appointments w)) w).
Proof.
  intros Hg Hp a Hin Hid. simpl in Hin. apply in_map_iff in Hin.
  destruct Hin as (r & <- & Hr).
  destruct (Hg r) as [H|[H1 H2]]; [exact H|].
  rewrite H2. apply (Hp r Hr). congruence.
Qed.

Lemma pushed_updateWhere (appointmentId k : string)
    (f : Appointment -> Appointment) (w : World) :
  (forall r, a_google_event_id (f r) <> None
             \/ (a_id (f r) = a_id r
                 /\ a_google_event_id (f r) = a_google_event_id r)) ->
  staysPushed appointmentId w
    (setAppointments (updateWhere a_id k f (appointments w)) w).
Proof.
  intros Hf. apply pushed_map. intros r.
  destruct (String.eqb (a_id r) k); [apply Hf|right; split; reflexivity].
Qed.

Lemma pushed_cancel (appointmentId k : string) (t : Z) (w : World) :
  staysPushed appointmentId w
    (setAppointments
       (updateWhere a_id k (withStatus "cancelled" t) (appointments w)) w).
Proof. apply pushed_updateWhere. intros r. right. split; reflexivity. Qed.

Lemma pushed_setGoogleEventId (appointmentId k googleEventId : string)
    (link : option string) (t : Z) (w : World) :
  staysPushed appointmentId w
    (setAppointments
       (updateWhere a_id k (withGoogleEventId googleEventId link t)
          (appointments w)) w).
Proof. apply pushed_updateWhere. intros r. left. discriminate. Qed.

Lemma pushed_merge (appointmentId : string) (d : AppointmentData) (w : World) :
  staysPushed appointmentId w
    (setAppointments (mergeInto d (appointments w)) w).
Proof.
  apply pushed_map. intros r.
  destruct (conflicts d r); [left; discriminate|right; split; reflexivity].
Qed.

Lemma pushed_insert (appointmentId fresh : string) (t : Z)
    (d : AppointmentData) (w : World) :
  staysPushed appointmentId w
    (setAppointments (appointments w ++ [inserted fresh t d]) w).
Proof.
  intros Hp a Hin Hid. simpl in Hin. apply in_app_iff in Hin.
  destruct Hin as [Hin|[<-|[]]]; [apply (Hp a Hin Hid)|discriminate].
Qed.

Ltac pushed_tables :=
  apply keeps_modify; intros ?;
  first [ apply pushed_cancel | apply pushed_setGoogleEventId
        | apply pushed_merge | apply pushed_insert ].

Lemma syncOne_staysPushed (this : Service) (appointmentId : string)
    (integration : Integration) (c : Counts) :
  keeps (staysPushed appointmentId) (syncOne this integration c).
Proof. keeps_auto; pushed_tables. Qed.

Lemma syncAllIntegrations_staysPushed (this : Service)
    (appointmentId : string) :
  keeps (staysPushed appointmentId) (syncAllIntegrations this).
Proof.
  unfold syncAllIntegrations.
  apply keeps_catch; [|intros; keeps_auto].
  apply keeps_bind; [keeps_auto|]. intros l.
  destruct l; [keeps_auto|].
  apply keeps_bind; [|intros; keeps_auto].
  apply keeps_batchLoop. intros. apply syncOne_staysPushed.
Qed.

Lemma updateAppointmentWithGoogleEventId_eq
    (appointmentId googleEventId : string) (link : option string)
    (w : World) :
  updateAppointmentWithGoogleEventId appointmentId googleEventId link w =
  let failure := dbError (env w) (queried w) in
  let w' := record (Query (SetGoogleEventId appointmentId googleEventId
                             (if Js.truthy link then link else None)) failure)
              (countQuery w) in
  match failure with
  | Some m => (Throw (Error m), w')
  | None =>
      (Ok tt,
       setAppointments
         (updateWhere a_id appointmentId
            (withGoogleEventId googleEventId link (clock w))
            (appointments w)) w')
  end.
Proof.
  unfold updateAppointmentWithGoogleEventId, bind, now, gets, supabase,
    modify, throw.
  simpl. destruct (dbError (env w) (queried w)); reflexivity.
Qed.

(** C3.  The selection of phase A consists of exactly the rows of the
    tenant and calendar whose external id is null and whose status is not
    'cancelled'.  Hence phase A sends no insertion for a key all of whose
    rows carry an external id; [updateAppointmentWithGoogleEventId] puts
    the key in that state, and no step of a synchronisation cycle takes
    it out of it again. *)
Theorem no_double_push :
  forall (this : Service) (integration : Integration)
         (accessToken appointmentId : string) (w : World),
    (forall rows w1,
        getUnsyncedLocalAppointments (i_company_id integration)
          (i_calendar_id integration) w = (Ok rows, w1) ->
        forall a,
          In a rows <->
          In a (appointments w)
          /\ a_company_id a = i_company_id integration
          /\ a_google_calendar_id a = Some (i_calendar_id integration)
          /\ a_google_event_id a = None
          /\ a_status a <> "cancelled"%string)
    /\ (pushed appointmentId w ->
        emitsOnly (without (insertionFor appointmentId)) w
          (snd (syncLocalAppointmentsToGoogle this integration accessToken w)))
    /\ (forall googleEventId link w1,
          updateAppointmentWithGoogleEventId appointmentId googleEventId link w
          = (Ok tt, w1) ->
          pushed appointmentId w1)
    /\ (pushed appointmentId w ->
        pushed appointmentId (snd (syncAllIntegrations this w))).
Proof.
  intros this integration tok k w. splits.
  - intros rows w1. rewrite getUnsyncedLocalAppointments_eq. cbv zeta.
    destruct (dbError (env w) (queried w)); [discriminate|].
    intros E; injection E as <- _. intros a.
    rewrite selectUnsynced_In, unsynced_spec. reflexivity.
  - apply phaseA_skips_pushed.
  - intros gid link w1. rewrite updateAppointmentWithGoogleEventId_eq.
    cbv zeta. destruct (dbError (env w) (queried w)); [discriminate|].
    intros E; injection E as <-. intros a Hin Hid. simpl in Hin.
    apply updateWhere_hit in Hin.
    destruct Hin as [(r0 & _ & _ & ->)|[_ Hne]]; [discriminate|contradiction].
  - apply syncAllIntegrations_staysPushed.
Qed.


(** ** Phase C: the existence probe *)

Lemma probe_answer (calendarId googleEventId accessToken : string)
    (w : World) :
  exists s,
    snd (existenceProbe googleEventId calendarId accessToken w)
    = record (Fetch (GetEvent calendarId googleEventId accessToken) s)
        (countFetch w)
    /\ probeAnswer s (fst (existenceProbe googleEventId calendarId accessToken w)).
Proof.
  unfold existenceProbe. rewrite bind_eq. unfold fetch.
  destruct (getReply (env w) (fetched w)) as [m|c t []]; simpl.
  - exists None. split; [reflexivity|]. exists m. reflexivity.
  - exists (Some c). split.
    + destruct (c =? 404); [reflexivity|]. destruct (c =? 410); [reflexivity|].
      destruct (ok c); reflexivity.
    + simpl. destruct (c =? 404); [reflexivity|].
      destruct (c =? 410); [reflexivity|]. simpl.
      destruct (ok c); simpl; [reflexivity|]. eexists. reflexivity.
Qed.

Lemma probeAnswer_error (s : option Z) (message : string) :
  probeAnswer s (Throw (Error message)) ->
  s = None \/ exists c, s = Some c /\ c <> 404 /\ c <> 410 /\ ok c = false.
Proof.
  destruct s as [c|]; [|now left]. simpl. right. exists c.
  destruct (Z.eqb_spec c 404); [discriminate|].
  destruct (Z.eqb_spec c 410); [discriminate|]. simpl in H.
  destruct (ok c); [discriminate|]. auto.
Qed.

Lemma retryLoop_probe (this : Service)
    (calendarId googleEventId accessToken : string) (maxRetries : Z)
    (rounds : nat) :
  forall (i : Z) (lastError : exn) (w : World),
    rounds <> O ->
    Z.of_nat rounds = maxRetries - i ->
    exists s rest,
      trace (snd (retryLoop this (existenceProbe googleEventId calendarId accessToken)
                    maxRetries rounds i lastError w))
      = Fetch (GetEvent calendarId googleEventId accessToken) s :: rest
      /\ probeAnswer s
           (fst (retryLoop this (existenceProbe googleEventId calendarId accessToken)
                   maxRetries rounds i lastError w)).
Proof.
  induction rounds as [|k IH]; intros i lastError w Hr Hn; [contradiction|].
  cbn [retryLoop]. rewrite catch_eq.
  destruct (probe_answer calendarId googleEventId accessToken w)
    as (s & Ew & Ha).
  destruct (existenceProbe googleEventId calendarId accessToken w) as [[b|e|] w1] eqn:Ep;
    cbn [fst snd] in *.
  - exists s, (trace (countFetch w)). rewrite Ew. split; [reflexivity|exact Ha].
  - assert (He : exists m, e = Error m).
    { destruct s as [c|]; simpl in Ha.
      - destruct ((c =? 404) || (c =? 410)); [discriminate|].
        destruct (ok c); [discriminate|]. destruct Ha as [m Hm].
        injection Hm as ->. eauto.
      - destruct Ha as [m Hm]. injection Hm as ->. eauto. }
    destruct He as [m ->].
    cbv beta iota delta [bind isPersistentError messageOf ret].
    destruct (persistentMessage (Js.toLowerCase m) || (i =? maxRetries - 1))
      eqn:Estop.
    + exists s, (trace (countFetch w)). rewrite Ew.
      split; [reflexivity|exact Ha].
    + apply orb_false_iff in Estop. destruct Estop as [_ Hi].
      apply Z.eqb_neq in Hi.
      cbv beta iota delta [log emit modify setTimeout bind].
      apply IH; [|lia].
      intros ->. simpl in Hn. lia.
  - destruct s as [c|]; simpl in Ha.
    + destruct ((c =? 404) || (c =? 410)); [discriminate|].
      destruct (ok c); [discriminate|]. destruct Ha as [m Hm]. discriminate.
    + destruct Ha as [m Hm]. discriminate.
Qed.

Lemma checkGoogleEventExists_no_cancel (this : Service)
    (googleEventId calendarId accessToken : string) :
  keeps (emitsOnly (without cancellation))
    (checkGoogleEventExists this googleEventId calendarId accessToken).
Proof. keeps_auto. Qed.

Lemma checkGoogleEventExists_sameAppointments (this : Service)
    (googleEventId calendarId accessToken : string) :
  keeps sameAppointments
    (checkGoogleEventExists this googleEventId calendarId accessToken).
Proof. keeps_auto. Qed.

Lemma checkGoogleEventExists_raises (this : Service)
    (googleEventId calendarId accessToken : string) :
  behaves Raises
    (checkGoogleEventExists this googleEventId calendarId accessToken).
Proof. behaves_auto. Qed.

Lemma checkGoogleEventExists_answer (this : Service)
    (googleEventId calendarId accessToken : string) (w : World) :
  Healthy w ->
  1 <= retryAttempts this ->
  exists s rest,
    trace (snd (checkGoogleEventExists this googleEventId calendarId
                  accessToken w))
    = Fetch (GetEvent calendarId googleEventId accessToken) s :: rest
    /\ probeAnswer s
         (fst (checkGoogleEventExists this googleEventId calendarId
                 accessToken w)).
Proof.
  intros HW Hn. unfold checkGoogleEventExists.
  destruct (waitForAvailability_returns w HW) as (wa & Ea & _).
  rewrite (makeRequest_eq _ _ _ Ea), catch_eq.
  unfold withRetry.
  destruct (retryLoop_probe this calendarId googleEventId accessToken
              (retryAttempts this) (Z.to_nat (retryAttempts this)) 0 Undefined
              (snd (recordRequest wa))) as (s & rest & Et & Ha).
  { intros H. apply (f_equal Z.of_nat) in H. rewrite Z2Nat.id in H; simpl in H; lia. }
  { rewrite Z2Nat.id; lia. }
  destruct (retryLoop _ _ _ _ _ _ _) as [[b|e|] w1]; cbn [fst snd] in *.
  - exists s, rest. split; assumption.
  - destruct e as [m|].
    + exists s, rest. split; assumption.
    + destruct s as [c|]; simpl in Ha.
      * destruct ((c =? 404) || (c =? 410)); [discriminate|].
        destruct (ok c); [discriminate|]. destruct Ha as [m Hm]. discriminate.
      * destruct Ha as [m Hm]. discriminate.
  - exists s, rest. split; assumption.
Qed.

Lemma cancelAppointment_eq (appointmentId : string) (w : World) :
  cancelAppointment appointmentId w =
  let failure := dbError (env w) (queried w) in
  let w' := record (Query (CancelAppointment appointmentId) failure)
              (countQuery w) in
  match failure with
  | Some _ => (Ok false, w')
  | None =>
      (Ok true,
       setAppointments
         (updateWhere a_id appointmentId (withStatus "cancelled" (clock w))
            (appointments w)) w')
  end.
Proof.
  unfold cancelAppointment, bind, now, gets, supabase, modify, ret.
  simpl. destruct (dbError (env w) (queried w)); reflexivity.
Qed.

Lemma sweeping_pure (this : Service) (integration : Integration)
    (accessToken : string) (rows : list Appointment) (E : Eff) :
  behaves E (forOf rows (sweepAppointment this integration accessToken)).
Proof. behaves_auto. Qed.

(** C4.  The orphan sweep, for one probed appointment.  The check ends on
    an existence probe; it returns false exactly when that probe was
    answered 404 or 410, true exactly when the answer was a success, and
    throws on every other answer and on a failed request.  The loop body
    cancels the local record exactly when the check returned false; when
    the check threw, the error is caught, nothing is written, and the
    loop goes on with the next appointment. *)
Theorem orphan_sweep_safety :
  forall (this : Service) (integration : Integration) (accessToken : string)
         (appointment : Appointment) (w : World)
         (r : outcome bool) (w1 : World),
    Healthy w ->
    1 <= retryAttempts this ->
    checkGoogleEventExists this (render (a_google_event_id appointment))
      (i_calendar_id integration) accessToken w = (r, w1) ->
    let body := sweepAppointment this integration accessToken appointment w in
    (exists s rest,
        trace w1
        = Fetch (GetEvent (i_calendar_id integration)
                   (render (a_google_event_id appointment)) accessToken) s
          :: rest
        /\ (r = Ok false <-> s = Some 404 \/ s = Some 410)
        /\ (r = Ok true <-> exists c, s = Some c /\ ok c = true)
        /\ ((exists message, r = Throw (Error message)) <->
            s = None
            \/ exists c, s = Some c /\ c <> 404 /\ c <> 410 /\ ok c = false))
    /\ appointments w1 = appointments w
    /\ emitsOnly (without cancellation) w w1
    /\ (r = Ok false ->
        body = (Ok tt, snd (cancelAppointment (a_id appointment) w1))
        /\ trace (snd body)
           = Query (CancelAppointment (a_id appointment))
               (dbError (env w1) (queried w1)) :: trace w1
        /\ (dbError (env w1) (queried w1) = None ->
            forall a,
              In a (appointments (snd body)) ->
              a_id a = a_id appointment -> a_status a = "cancelled"%string))
    /\ (r <> Ok false -> body = (Ok tt, w1))
    /\ (forall rows,
          exists w',
            forOf rows (sweepAppointment this integration accessToken) w
            = (Ok tt, w')).
Proof.
  intros this integration tok appt w r w1 HW Hn Ec body.
  pose proof (checkGoogleEventExists_answer this
                (render (a_google_event_id appt)) (i_calendar_id integration)
                tok w HW Hn) as (s & rest & Et & Ha).
  pose proof (checkGoogleEventExists_no_cancel this
                (render (a_google_event_id appt)) (i_calendar_id integration)
                tok w) as Kc.
  pose proof (checkGoogleEventExists_sameAppointments this
                (render (a_google_event_id appt)) (i_calendar_id integration)
                tok w) as Ka.
  rewrite Ec in Et, Ha, Kc, Ka. cbn [fst snd] in *.
  assert (Ebody : body =
            match r with
            | Ok false =>
                (Ok tt, snd (cancelAppointment (a_id appt) w1))
            | Ok true => (Ok tt, w1)
            | Throw (Error _) => (Ok tt, w1)
            | Throw Undefined =>
                (Throw (Error
                   "Cannot read properties of undefined (reading 'message')"),
                 w1)
            | Diverge => (Diverge, w1)
            end).
  { unfold body, sweepAppointment. rewrite catch_eq, bind_eq, Ec.
    destruct r as [[|]|[m|]|]; try reflexivity.
    cbn [negb]. rewrite bind_eq, cancelAppointment_eq. cbv zeta.
    destruct (dbError (env w1) (queried w1)); reflexivity. }
  splits.
  - exists s, rest. split; [exact Et|].
    destruct s as [c|]; simpl in Ha.
    + destruct (Z.eqb_spec c 404) as [->|N4];
        [|destruct (Z.eqb_spec c 410) as [->|N1]]; simpl in Ha.
      * subst r. splits; split; intros H; auto; try discriminate.
        -- destruct H as (c & Hc & Hok). injection Hc as <-. discriminate.
        -- destruct H as [m Hm]. discriminate.
        -- destruct H as [H|(c & Hc & ? & ? & ?)]; [discriminate|].
           injection Hc as <-. contradiction.
      * subst r. splits; split; intros H; auto; try discriminate.
        -- destruct H as (c & Hc & Hok). injection Hc as <-. discriminate.
        -- destruct H as [m Hm]. discriminate.
        -- destruct H as [H|(c & Hc & ? & ? & ?)]; [discriminate|].
           injection Hc as <-. contradiction.
      * destruct (ok c) eqn:Eok.
        -- subst r. splits; split; intros H; try discriminate.
           ++ destruct H as [H|H]; injection H as ->; contradiction.
           ++ exists c. auto.
           ++ reflexivity.
           ++ destruct H as [m Hm]. discriminate.
           ++ destruct H as [H|(c0 & Hc & ? & ? & Hk)]; [discriminate|].
              injection Hc as <-. congruence.
        -- destruct Ha as [m ->]. splits; split; intros H; try discriminate.
           ++ destruct H as [H|H]; injection H as ->; contradiction.
           ++ destruct H as (c0 & Hc & Hk). injection Hc as <-. congruence.
           ++ right. exists c. auto.
           ++ eauto.
    + destruct Ha as [m ->]. splits; split; intros H; try discriminate.
      * destruct H as [H|H]; discriminate.
      * destruct H as (c0 & Hc & Hk). discriminate.
      * now left.
      * eauto.
  - exact Ka.
  - exact Kc.
  - intros ->. rewrite Ebody. cbn [snd]. splits.
    + reflexivity.
    + rewrite cancelAppointment_eq. cbv zeta.
      destruct (dbError (env w1) (queried w1)); reflexivity.
    + intros Hdb a. rewrite cancelAppointment_eq. cbv zeta. rewrite Hdb.
      cbn [snd appointments setAppointments]. intros Hin Hid.
      apply updateWhere_hit in Hin.
      destruct Hin as [(r0 & _ & _ & ->)|[_ Hne]]; [reflexivity|contradiction].
  - intros Hr. rewrite Ebody.
    pose proof (checkGoogleEventExists_raises this
                  (render (a_google_event_id appt))
                  (i_calendar_id integration) tok w HW) as [_ Rr].
    rewrite Ec in Rr. simpl in Rr.
    destruct r as [[|]|[m|]|]; try reflexivity;
      try contradiction; try discriminate Rr.
  - intros rows.
    pose proof (sweeping_pure this integration tok rows Pure w HW) as [_ Rl].
    destruct (forOf rows _ w) as [[[]|[m|]|] w'] eqn:El; simpl in Rl;
      try contradiction; try discriminate Rl.
    exists w'. reflexivity.
Qed.


(** ** Phase C: the candidates of the sweep *)

Lemma synced_spec (companyId : string) (a : Appointment) :
  synced companyId a = true <->
  a_company_id a = companyId
  /\ a_google_event_id a <> None
  /\ a_status a <> "cancelled"%string.
Proof.
  unfold synced, isNull. rewrite !andb_true_iff, !negb_true_iff.
  destruct (String.eqb_spec (a_company_id a) companyId);
    destruct (a_google_event_id a);
    destruct (String.eqb_spec (a_status a) "cancelled");
    split; intros; try (splits; congruence); try tauto;
    try (exfalso; intuition congruence).
Qed.

Lemma firstn_In {A} (n : nat) (l : list A) (x : A) :
  In x (firstn n l) -> In x l.
Proof.
  revert l. induction n as [|k IH]; intros l H; [destruct H|].
  destruct l as [|y t]; [destruct H|]. simpl in H.
  destruct H as [<-|H]; [now left|right; apply IH, H].
Qed.



Lemma selectSynced_In (companyId : string) (table : list Appointment)
    (a : Appointment) :
  In a (selectSynced companyId table) ->
  In a table /\ synced companyId a = true.
Proof.
  unfold selectSynced. intros H. apply firstn_In in H.
  apply orderBy_In in H. apply filter_In in H. exact H.
Qed.




Lemma getSyncedAppointments_eq (companyId : string)
    (googleCalendarId : option string) (w : World) :
  getSyncedAppointments companyId googleCalendarId w =
  let failure := dbError (env w) (queried w) in
  let w' := record (Query (SelectSynced companyId) failure) (countQuery w) in
  match failure with
  | Some m => (Throw (Error m), w')
  | None => (Ok (selectSynced companyId (appointments w)), w')
  end.
Proof.
  unfold getSyncedAppointments, bind, gets, supabase, throw, ret.
  simpl. destruct (dbError (env w) (queried w)); reflexivity.
Qed.





(** ** Phase B: the upsert of an active event *)

Lemma getAppointmentByGoogleEventId_eq (companyId googleEventId : string)
    (w : World) :
  getAppointmentByGoogleEventId companyId googleEventId w =
  let failure := dbError (env w) (queried w) in
  let w' := record (Query (SelectByGoogleEventId companyId googleEventId)
                      failure) (countQuery w) in
  match failure with
  | Some _ => (Ok None, w')
  | None =>
      (Ok match filter (sameKey companyId googleEventId) (appointments w) with
          | [r] => Some r
          | _ => None
          end, w')
  end.
Proof.
  unfold getAppointmentByGoogleEventId, bind, gets, supabase, ret.
  simpl. destruct (dbError (env w) (queried w)); [reflexivity|].
  destruct (filter _ _) as [|r [|]]; reflexivity.
Qed.

Lemma find_filter {A} (p : A -> bool) (l : list A) (x : A) (t : list A) :
  filter p l = x :: t -> find p l = Some x.
Proof.
  induction l as [|y l' IH]; simpl; [discriminate|].
  destruct (p y); [intros H; injection H as -> _; reflexivity|exact IH].
Qed.

Lemma filter_single {A} (p : A -> bool) (l : list A) (x r : A) :
  filter p l = [x] -> In r l -> p r = true -> r = x.
Proof.
  intros H Hin Hp.
  assert (Hr : In r (filter p l)) by (apply filter_In; auto).
  rewrite H in Hr. destruct Hr as [<-|[]]. reflexivity.
Qed.

Lemma truthy_nonempty (s : string) : s <> EmptyString -> Js.truthy (Some s) = true.
Proof.
  intros H. unfold Js.truthy. destruct (String.eqb_spec s ""); [contradiction|].
  reflexivity.
Qed.

(** C9 (as amended).  When the lookup finds the one local appointment
    with the tenant and external id of an active remote event, and the
    store accepts the upsert, that row keeps its id, created_by and
    created_at (and updated_at); title, attendee list and all-day flag
    are overwritten; description, start, end, location and meeting link
    are overwritten with the value the event carries and kept when it
    carries none; and, besides these, status is reset to 'scheduled' and
    google_calendar_id is set to the organizer's email or 'primary'.  No
    other row changes. *)
Theorem upsert_keeps_identity :
  forall (companyId : string) (googleEvent : GoogleEvent) (w : World)
         (existing : Appointment) (start finish : EventTime),
    filter (sameKey companyId (g_id googleEvent)) (appointments w)
    = [existing] ->
    g_start googleEvent = Some start ->
    g_end googleEvent = Some finish ->
    a_created_by existing <> EmptyString ->
    dbError (env w) (queried w) = None ->
    dbError (env w) (S (queried w)) = None ->
    let updated :=
      {| a_id := a_id existing;
         a_company_id := companyId;
         a_title := Js.orElse (g_summary googleEvent) "Evento sem título";
         a_description :=
           put (g_description googleEvent) (a_description existing);
         a_start_time :=
           put (Js.or (dateTime start) (date start)) (a_start_time existing);
         a_end_time :=
           put (Js.or (dateTime finish) (date finish)) (a_end_time existing);
         a_location := put (g_location googleEvent) (a_location existing);
         a_google_event_id := Some (g_id googleEvent);
         a_google_calendar_id :=
           Some (Js.orElse (g_organizer_email googleEvent) "primary");
         a_google_meet_link :=
           put (g_meet_uri googleEvent) (a_google_meet_link existing);
         a_attendees := Some (parseAttendees (g_attendees googleEvent));
         a_all_day := negb (Js.truthy (dateTime start));
         a_status := "scheduled";
         a_created_by := a_created_by existing;
         a_created_at := a_created_at existing;
         a_updated_at := a_updated_at existing |} in
    fst (upsertAppointmentFromGoogleEvent companyId googleEvent w) = Ok tt
    /\ appointments
         (snd (upsertAppointmentFromGoogleEvent companyId googleEvent w))
       = map (fun r =>
                if sameKey companyId (g_id googleEvent) r then updated else r)
             (appointments w).
Proof.
  intros companyId ev w existing start finish Hone Hs He Hcb Hdb1 Hdb2 updated.
  unfold upsertAppointmentFromGoogleEvent.
  rewrite bind_eq, getAppointmentByGoogleEventId_eq. cbv zeta.
  rewrite Hdb1, Hone, Hs, He.
  set (w1 := record _ (countQuery w)).
  set (d := {| d_company_id := companyId; d_title := _ |}).
  assert (Eup : upsertAppointment d w1
                = (Ok (merge d existing),
                   setAppointments (mergeInto d (appointments w))
                     (record (Query (UpsertAppointment d) None)
                        (countQuery w1)))).
  { unfold upsertAppointment. rewrite catch_eq.
    assert (Ht : Js.truthy (d_created_by d) = true)
      by (apply truthy_nonempty, Hcb).
    rewrite Ht. cbn [negb].
    cbv beta iota delta [bind ret now gets supabase].
    change (queried w1) with (S (queried w)). change (env w1) with (env w).
    rewrite Hdb2. cbv beta iota zeta.
    change (appointments (record (Query (UpsertAppointment d) None)
                            (countQuery w1))) with (appointments w).
    assert (Hf : find (conflicts d) (appointments w) = Some existing).
    { apply (find_filter _ _ _ []). exact Hone. }
    rewrite Hf. reflexivity. }
  rewrite bind_eq, Eup. split; [reflexivity|].
  cbn [snd appointments setAppointments]. unfold mergeInto.
  apply map_ext_in. intros r Hr.
  change (conflicts d r) with (sameKey companyId (g_id ev) r).
  destruct (sameKey companyId (g_id ev) r) eqn:Ek; [|reflexivity].
  rewrite (filter_single _ _ _ _ Hone Hr Ek). reflexivity.
Qed.


(** ** The access token *)

Lemma updateIntegrationTokens_eq (integrationId : string) (tokens : Tokens)
    (w : World) :
  updateIntegrationTokens integrationId tokens w =
  match expiryDate (clock w) (t_expires_in tokens) with
  | None => (Ok false, w)
  | Some expiresAt =>
      let refreshToken :=
        if Js.truthy (t_refresh_token tokens) then t_refresh_token tokens
        else None in
      let failure := dbError (env w) (queried w) in
      let w' := record (Query (UpdateTokens integrationId
                                 (t_access_token tokens)
                                 refreshToken expiresAt) failure)
                  (countQuery w) in
      match failure with
      | Some _ => (Ok false, w')
      | None =>
          (Ok true,
           setIntegrations
             (updateWhere i_id integrationId
                (withTokens (t_access_token tokens) refreshToken expiresAt
                   (clock w)) (integrations w)) w')
      end
  end.
Proof.
  unfold updateIntegrationTokens. rewrite bind_eq. cbn [now gets].
  destruct (expiryDate (clock w) (t_expires_in tokens)); [|reflexivity].
  unfold bind, supabase, modify, ret.
  simpl. destruct (dbError (env w) (queried w)); reflexivity.
Qed.

Lemma expiryDate_some (t : Z) (expiresIn : option Z) (expiry : Z) :
  expiryDate t expiresIn = Some expiry <->
  exists seconds,
    expiresIn = Some seconds
    /\ Js.validTime (t + seconds * 1000) = true
    /\ expiry = t + seconds * 1000.
Proof.
  unfold expiryDate. destruct expiresIn as [seconds|].
  - destruct (Js.validTime (t + seconds * 1000)) eqn:E; split.
    + intros [= <-]. exists seconds. auto.
    + intros (x & [= <-] & _ & ->). reflexivity.
    + discriminate.
    + intros (x & [= <-] & Hv & _). congruence.
  - split; [discriminate|]. intros (x & Hx & _). discriminate.
Qed.

Lemma or_truthy (a b : option string) :
  Js.truthy b = true -> Js.truthy (Js.or a b) = true.
Proof. intros H. unfold Js.or. destruct (Js.truthy a) eqn:E; assumption. Qed.

Lemma truthy_some (o : option string) :
  Js.truthy o = true -> exists s, o = Some s.
Proof. destruct o; [eauto|discriminate]. Qed.

Lemma emitsOnly_extends (w w' : World) :
  emitsOnly (fun _ => True) w w' -> exists d, trace w' = d ++ trace w.
Proof. intros (d & E & _). eauto. Qed.

Lemma refreshAccessToken_calls (this : Service)
    (refreshToken clientId clientSecret : string) (w : World) :
  1 <= retryAttempts this ->
  exists s d,
    trace (snd (refreshAccessToken this refreshToken clientId clientSecret w))
    = d ++ Fetch (RefreshGrant refreshToken clientId clientSecret) s
           :: trace w.
Proof.
  intros Hn. unfold refreshAccessToken, withRetry.
  destruct (Z.to_nat (retryAttempts this)) as [|k] eqn:Ek; [lia|].
  cbn [retryLoop]. rewrite catch_eq.
  set (fn := bind (fetch tokenReply _) _).
  assert (Efn : trace (snd (fn w))
                = Fetch (RefreshGrant refreshToken clientId clientSecret)
                    (statusOf (tokenReply (env w) (fetched w))) :: trace w).
  { unfold fn. rewrite bind_eq. unfold fetch.
    destruct (tokenReply (env w) (fetched w)) as [m|c t [j|m]];
      [reflexivity| |];
      cbn [status]; unfold responseJson; cbn [json];
      destruct (negb (ok c)); reflexivity. }
  exists (statusOf (tokenReply (env w) (fetched w))).
  destruct (fn w) as [[a|e|] w1]; cbn [snd] in *;
    try (exists []; exact Efn).
  match goal with
  | |- exists d, trace (snd (?h w1)) = _ =>
      assert (K : keeps (emitsOnly (fun _ => True)) h)
  end.
  { apply keeps_bind; [apply keeps_isPersistentError|]. intros p.
    destruct (p || _); [apply keeps_throw|].
    apply keeps_bind; [apply keeps_log; exact I|]. intros _.
    apply keeps_bind; [apply keeps_setTimeout; exact I|]. intros _.
    apply keeps_retryLoop; try (intros; exact I).
    unfold fn. keeps_auto. }
  destruct (emitsOnly_extends _ _ (K w1)) as [d Ed].
  exists d. rewrite Ed, Efn. reflexivity.
Qed.

(** C6.  [ensureValidToken], case by case; the margin is 300000 ms.
    Without an access token (null or the empty text) the call fails at
    once, before the expiry is looked at: nothing is requested, nothing
    is written and no token is returned.  With an access token: when the
    token expires more than five minutes from now, the stored access
    token is returned and nothing is done.  When it expires within five
    minutes (five included): without a refresh token the call fails;
    with one, a refresh-grant request is sent first.  When the grant
    succeeds the new access token is returned in every case; if
    [expires_in] gives a valid date, one update is sent with the new
    access token, the new expiry and the refresh token that came back
    (the old one if none or an empty one came back), and the row holds
    them when the store accepts the update and is unchanged when it
    rejects it; if [expires_in] is absent or gives no valid date,
    nothing is sent and nothing is written.  When the grant fails its
    error is the result and nothing is written. *)
Theorem token_refresh_boundary :
  forall (this : Service) (integration : Integration) (w : World),
    1 <= retryAttempts this ->
    let expiresAt := putOr (i_token_expires_at integration) 0 in
    let run := ensureValidToken this integration w in
    let refreshToken := render (i_refresh_token integration) in
    let grant :=
      RefreshGrant refreshToken (i_client_id integration)
        (i_client_secret integration) in
    fiveMinutes = 300000
    /\ (Js.truthy (i_access_token integration) = false ->
        run = (Throw (Error "No access token available"), w))
    /\ (Js.truthy (i_access_token integration) = true ->
        (fiveMinutes < expiresAt - clock w ->
         run = (Ok (render (i_access_token integration)), w))
        /\ (expiresAt - clock w <= fiveMinutes ->
            Js.truthy (i_refresh_token integration) = false ->
            run = (Throw (Error "No refresh token available"), w))
        /\ (expiresAt - clock w <= fiveMinutes ->
            Js.truthy (i_refresh_token integration) = true ->
            (exists s d, trace (snd run) = d ++ Fetch grant s :: trace w)
            /\ (forall newTokens w1,
                  refreshAccessToken this refreshToken
                    (i_client_id integration) (i_client_secret integration) w
                  = (Ok newTokens, w1) ->
                  fst run = Ok (access_token newTokens)
                  /\ (forall seconds,
                        expires_in newTokens = Some seconds ->
                        Js.validTime (clock w1 + seconds * 1000) = true ->
                        let expiry := clock w1 + seconds * 1000 in
                        (exists stored,
                           trace (snd run)
                           = Query (UpdateTokens (i_id integration)
                                      (access_token newTokens)
                                      (Some stored) expiry)
                               (dbError (env w1) (queried w1)) :: trace w1
                           /\ (forall r,
                                 refresh_token newTokens = Some r ->
                                 r <> EmptyString -> stored = r)
                           /\ (Js.truthy (refresh_token newTokens) = false ->
                               i_refresh_token integration = Some stored))
                        /\ (dbError (env w1) (queried w1) = None ->
                            forall i,
                              In i (integrations (snd run)) ->
                              i_id i = i_id integration ->
                              i_access_token i
                              = Some (access_token newTokens)
                              /\ i_token_expires_at i = Some expiry
                              /\ (forall r,
                                    refresh_token newTokens = Some r ->
                                    r <> EmptyString ->
                                    i_refresh_token i = Some r)
                              /\ (Js.truthy (refresh_token newTokens) = false ->
                                  i_refresh_token i
                                  = i_refresh_token integration))
                        /\ (dbError (env w1) (queried w1) <> None ->
                            integrations (snd run) = integrations w1))
                  /\ (expiryDate (clock w1) (expires_in newTokens) = None ->
                      snd run = w1))
            /\ (forall e w1,
                  refreshAccessToken this refreshToken
                    (i_client_id integration) (i_client_secret integration) w
                  = (Throw e, w1) ->
                  run = (Throw e, w1)))).
Proof.
  intros this integration w Hn expiresAt run refreshToken grant.
  split; [reflexivity|]. split.
  { intros Hat. unfold run, ensureValidToken. rewrite Hat. reflexivity. }
  intros Hat.
  assert (Erun : run =
            if expiresAt <=? clock w + fiveMinutes then
              if negb (Js.truthy (i_refresh_token integration)) then
                (Throw (Error "No refresh token available"), w)
              else
                match refreshAccessToken this refreshToken
                        (i_client_id integration)
                        (i_client_secret integration) w with
                | (Ok newTokens, w1) =>
                    (Ok (access_token newTokens),
                     snd (updateIntegrationTokens (i_id integration)
                            {| t_access_token := access_token newTokens;
                               t_refresh_token :=
                                 Js.or (refresh_token newTokens)
                                   (i_refresh_token integration);
                               t_expires_in := expires_in newTokens |} w1))
                | (Throw e, w1) => (Throw e, w1)
                | (Diverge, w1) => (Diverge, w1)
                end
            else (Ok (render (i_access_token integration)), w)).
  { unfold run, ensureValidToken. rewrite Hat. cbn [negb].
    rewrite bind_eq. cbn [now gets]. fold expiresAt.
    destruct (expiresAt <=? clock w + fiveMinutes); [|reflexivity].
    destruct (negb (Js.truthy (i_refresh_token integration))); [reflexivity|].
    rewrite bind_eq. fold refreshToken.
    destruct (refreshAccessToken this refreshToken _ _ w) as [[nt|e|] w1];
      try reflexivity.
    rewrite bind_eq, updateIntegrationTokens_eq.
    destruct (expiryDate _ _); [|reflexivity]. cbv zeta.
    destruct (dbError (env w1) (queried w1)); reflexivity. }
  splits.
  - intros H. rewrite Erun.
    destruct (Z.leb_spec expiresAt (clock w + fiveMinutes)); [lia|reflexivity].
  - intros H Hr. rewrite Erun, Hr.
    destruct (Z.leb_spec expiresAt (clock w + fiveMinutes)); [reflexivity|lia].
  - intros H Hr. rewrite Hr in Erun. cbn [negb] in Erun.
    destruct (Z.leb_spec expiresAt (clock w + fiveMinutes)); [|lia].
    splits.
    + destruct (refreshAccessToken_calls this refreshToken
                  (i_client_id integration) (i_client_secret integration)
                  w Hn) as (s & d & Ed).
      fold grant in Ed. rewrite Erun.
      destruct (refreshAccessToken this refreshToken _ _ w)
        as [[nt|e|] w1]; cbn [snd] in *;
        try (exists s, d; exact Ed).
      rewrite updateIntegrationTokens_eq.
      destruct (expiryDate _ _); [|exists s, d; exact Ed]. cbv zeta.
      destruct (dbError (env w1) (queried w1));
        cbn [snd trace setIntegrations record countQuery]; rewrite Ed;
        exists s; eexists (_ :: d); reflexivity.
    + intros nt w1 Er. rewrite Erun, Er. cbn [fst snd].
      rewrite updateIntegrationTokens_eq.
      cbn [t_access_token t_refresh_token t_expires_in].
      set (rotated := Js.or (refresh_token nt) (i_refresh_token integration)).
      assert (Hrot : Js.truthy rotated = true) by (apply or_truthy, Hr).
      destruct (truthy_some _ Hrot) as [stored Hx].
      assert (Hnew : forall r, refresh_token nt = Some r ->
                               r <> EmptyString -> stored = r).
      { intros r Hr1 Hr2. unfold rotated, Js.or in Hx. rewrite Hr1 in Hx.
        cbn [Js.truthy] in Hx.
        destruct (String.eqb_spec r ""); [contradiction|].
        cbn in Hx. congruence. }
      assert (Hold : Js.truthy (refresh_token nt) = false ->
                     i_refresh_token integration = Some stored).
      { intros Hf. unfold rotated, Js.or in Hx. rewrite Hf in Hx. exact Hx. }
      splits.
      * reflexivity.
      * intros seconds Hs Hv. set (expiry := clock w1 + seconds * 1000).
        assert (Ed : expiryDate (clock w1) (expires_in nt) = Some expiry).
        { apply expiryDate_some. exists seconds. auto. }
        rewrite Ed. cbv zeta. rewrite Hrot, Hx. splits.
        -- exists stored. splits; auto.
           destruct (dbError (env w1) (queried w1)); reflexivity.
        -- intros Hdb i. rewrite Hdb.
           cbn [snd integrations setIntegrations]. intros Hin Hid.
           apply updateWhere_hit in Hin.
           destruct Hin as [(r0 & _ & _ & ->)|[_ Hne]]; [|contradiction].
           unfold withTokens. cbn. splits; auto.
           ++ intros r Hr1 Hr2. rewrite (Hnew r Hr1 Hr2). reflexivity.
           ++ intros Hf. rewrite (Hold Hf). reflexivity.
        -- intros Hdb.
           destruct (dbError (env w1) (queried w1)); [reflexivity|].
           contradiction Hdb; reflexivity.
      * intros Ed. rewrite Ed. reflexivity.
    + intros e w1 Er. rewrite Erun, Er. reflexivity.
Qed.


(** ** The retry executor *)

Arguments slept : simpl never.

Lemma sleptIn_app (a b : list Event) : sleptIn (a ++ b) = sleptIn a ++ sleptIn b.
Proof. apply flat_map_app. Qed.

Lemma sleptIn_none (l : list Event) :
  Forall (without sleeping) l -> sleptIn l = [].
Proof.
  induction 1 as [|e t He _ IH]; [reflexivity|]. simpl. rewrite IH.
  destruct e; try reflexivity. discriminate He.
Qed.

Lemma slept_kept (w w' : World) :
  emitsOnly (without sleeping) w w' -> slept w' = slept w.
Proof.
  intros (d & E & F). unfold slept, history.
  rewrite E, rev_app_distr, sleptIn_app.
  rewrite (sleptIn_none (rev d)); [apply app_nil_r|].
  apply Forall_rev. exact F.
Qed.

Lemma slept_backoff (a m d : Z) (w : World) :
  slept (snd ((log (RetryAttempt a m d) ;; setTimeout (Some d)) w))
  = slept w ++ [Some d].
Proof.
  cbv beta iota delta [bind log emit modify setTimeout snd].
  unfold slept, history. cbn [trace setClock record rev].
  rewrite !sleptIn_app. simpl. rewrite app_nil_r. reflexivity.
Qed.

Section Retry.
Context {A : Type}.
Variable this : Service.
Variable fn : M A.
Variable maxRetries : Z.
Hypothesis fn_throws_errors : forall w, fst (fn w) <> Throw Undefined.

Lemma retryLoop_step (rounds : nat) (i : Z) (lastError : exn) (w : World) :
  retryLoop this fn maxRetries (S rounds) i lastError w =
  match fn w with
  | (Throw (Error message), w1) =>
      if persistentMessage (Js.toLowerCase message) || (i =? maxRetries - 1)
      then (Throw (Error message), w1)
      else
        retryLoop this fn maxRetries rounds (i + 1) (Error message)
          (snd ((log (RetryAttempt (i + 1) maxRetries
                        (retryDelay this * (i + 1))) ;;
                 setTimeout (Some (retryDelay this * (i + 1)))) w1))
  | (Throw Undefined, w1) =>
      (Throw (Error
         "Cannot read properties of undefined (reading 'message')"), w1)
  | r => r
  end.
Proof.
  cbn [retryLoop]. rewrite catch_eq.
  destruct (fn w) as [[a|[m|]|] w1]; try reflexivity.
  cbv beta iota delta [bind isPersistentError messageOf ret].
  destruct (persistentMessage (Js.toLowerCase m) || (i =? maxRetries - 1));
    reflexivity.
Qed.

Lemma retryLoop_executes (rounds : nat) :
  forall (i : Z) (lastError : exn) (w : World),
    rounds <> O ->
    Z.of_nat rounds = maxRetries - i ->
    Executes this fn maxRetries (i + 1) w
      (fst (retryLoop this fn maxRetries rounds i lastError w))
      (snd (retryLoop this fn maxRetries rounds i lastError w)).
Proof.
  induction rounds as [|k IH]; intros i lastError w Hr Hn; [contradiction|].
  rewrite retryLoop_step. pose proof (fn_throws_errors w) as Hu.
  destruct (fn w) as [[a|[m|]|] w1] eqn:Ef; cbn [fst snd] in *.
  - apply executes_ok, Ef.
  - destruct (persistentMessage (Js.toLowerCase m)) eqn:Ep; cbn [orb fst snd].
    + eapply executes_terminal; eassumption.
    + destruct (Z.eqb_spec i (maxRetries - 1)) as [Hi|Hi]; cbn [fst snd].
      * eapply executes_last; [exact Ef|lia].
      * eapply executes_retry; [exact Ef|exact Ep|lia|].
        apply IH; [|lia]. intros ->. simpl in Hn. lia.
  - contradiction.
  - apply executes_hung, Ef.
Qed.

Hypothesis fn_never_sleeps : keeps (emitsOnly (without sleeping)) fn.

Lemma retryLoop_sleeps (rounds : nat) :
  forall (i : Z) (lastError : exn) (w : World),
    Z.of_nat rounds = maxRetries - i ->
    exists k,
      (k < rounds \/ rounds = O)%nat
      /\ slept (snd (retryLoop this fn maxRetries rounds i lastError w))
         = slept w
           ++ map (fun j => Some (retryDelay this * (i + Z.of_nat j)))
                  (seq 1 k).
Proof.
  induction rounds as [|n IH]; intros i lastError w Hn.
  - exists O. split; [now right|]. simpl. symmetry. apply app_nil_r.
  - rewrite retryLoop_step.
    pose proof (slept_kept _ _ (fn_never_sleeps w)) as Hs.
    destruct (fn w) as [[a|[m|]|] w1]; cbn [snd] in *;
      try (exists O; split; [left; lia|];
           simpl; rewrite app_nil_r; exact Hs).
    destruct (persistentMessage (Js.toLowerCase m) || (i =? maxRetries - 1))
      eqn:Estop.
    + exists O. split; [left; lia|]. simpl. rewrite app_nil_r. exact Hs.
    + apply orb_false_iff in Estop. destruct Estop as [_ Hi].
      apply Z.eqb_neq in Hi.
      destruct (IH (i + 1) (Error m)
                  (snd ((log (RetryAttempt (i + 1) maxRetries
                                (retryDelay this * (i + 1))) ;;
                         setTimeout (Some (retryDelay this * (i + 1))))
                          w1))) as (k & Hk & Ek); [lia|].
      exists (S k). split; [left; lia|].
      rewrite Ek, slept_backoff, Hs, <- app_assoc. f_equal.
      cbn [seq map app]. f_equal.
      rewrite <- (seq_shift k 1), map_map. apply map_ext. intros j.
      do 2 f_equal. lia.
Qed.
End Retry.

Lemma prefix_lower (n h : string) :
  String.prefix n h = true ->
  String.prefix (Js.toLowerCase n) (Js.toLowerCase h) = true.
Proof.
  revert h. induction n as [|c n IH]; intros h H; [destruct h; reflexivity|].
  destruct h as [|d h]; [discriminate|]. simpl in *.
  destruct (ascii_dec c d) as [->|]; [|discriminate].
  destruct (ascii_dec (Js.lowerChar d) (Js.lowerChar d)); [|contradiction].
  apply IH, H.
Qed.

Lemma includes_lower (h n : string) :
  Js.includes h n = true ->
  Js.includes (Js.toLowerCase h) (Js.toLowerCase n) = true.
Proof.
  induction h as [|c h IH]; simpl; intros H.
  - apply orb_true_iff in H. destruct H as [H|H]; [|discriminate].
    apply (prefix_lower n "") in H. simpl in H. rewrite H. reflexivity.
  - apply orb_true_iff in H. apply orb_true_iff. destruct H as [H|H].
    + left. apply (prefix_lower n (String c h)), H.
    + right. apply IH, H.
Qed.

Lemma terminal_mark (message mark : string) :
  In mark terminalMarks ->
  Js.includes message mark = true ->
  persistentMessage (Js.toLowerCase message) = true.
Proof.
  intros Hin H. apply includes_lower in H.
  assert (L : Js.toLowerCase mark = mark).
  { unfold terminalMarks in Hin. simpl in Hin.
    destruct Hin as [<-|[<-|[<-|[<-|[<-|[<-|[]]]]]]]; reflexivity. }
  rewrite L in H. unfold persistentMessage, terminalMarks in *. simpl in Hin.
  destruct Hin as [<-|[<-|[<-|[<-|[<-|[<-|[]]]]]]]; rewrite H;
    repeat rewrite orb_true_r; reflexivity.
Qed.

Lemma retryLoop_transient {A} (this : Service) (fn : M A) (maxRetries : Z)
    (rounds : nat) :
  (forall w0, exists message w1,
      fn w0 = (Throw (Error message), w1)
      /\ persistentMessage (Js.toLowerCase message) = false) ->
  keeps (emitsOnly (without sleeping)) fn ->
  forall (i : Z) (lastError : exn) (w : World),
    rounds <> O ->
    Z.of_nat rounds = maxRetries - i ->
    slept (snd (retryLoop this fn maxRetries rounds i lastError w))
    = slept w
      ++ map (fun j => Some (retryDelay this * (i + Z.of_nat j)))
             (seq 1 (pred rounds))
    /\ exists wl message,
         fn wl = (Throw (Error message),
                  snd (retryLoop this fn maxRetries rounds i lastError w))
         /\ fst (retryLoop this fn maxRetries rounds i lastError w)
            = Throw (Error message).
Proof.
  intros Ht Hq. induction rounds as [|n IH]; intros i lastError w Hr Hn;
    [contradiction|].
  rewrite retryLoop_step.
  pose proof (slept_kept _ _ (Hq w)) as Hs.
  destruct (Ht w) as (m & w1 & Ef & Ep). rewrite Ef in *. cbn [snd] in Hs.
  rewrite Ep. cbn [orb].
  destruct (Z.eqb_spec i (maxRetries - 1)) as [Hi|Hi]; cbn [fst snd].
  - assert (n = O) by lia. subst n. simpl. rewrite app_nil_r.
    split; [exact Hs|]. exists w, m. split; [exact Ef|reflexivity].
  - assert (Hn0 : n <> O) by (intros ->; simpl in Hn; lia).
    destruct (IH (i + 1) (Error m)
                (snd ((log (RetryAttempt (i + 1) maxRetries
                              (retryDelay this * (i + 1))) ;;
                       setTimeout (Some (retryDelay this * (i + 1)))) w1))
                Hn0) as (Es & wl & m' & El & Er); [lia|].
    split; [|exists wl, m'; split; assumption].
    rewrite Es, slept_backoff, Hs, <- app_assoc. f_equal.
    destruct n as [|n']; [contradiction|]. cbn [pred seq map app]. f_equal.
    rewrite <- (seq_shift n' 1), map_map. apply map_ext. intros j.
    do 2 f_equal. lia.
Qed.

(** C5.  [withRetry] with at least one attempt allowed, on an operation
    that throws error objects and does not sleep itself.  It behaves as
    the retry executor is specified.  In particular an error whose
    message contains one of the terminal marks ends the call at once with
    that error: nothing more is attempted and no timer is set.  Whatever
    the operation does, the timers set are [retryDelay * 1],
    [retryDelay * 2], ..., fewer than [maxRetries] of them, strictly
    increasing for a positive [retryDelay]; and when every attempt fails
    with a non-terminal error there are exactly [maxRetries - 1] of them
    and the error of the last attempt is the one thrown. *)
Theorem retry_policy :
  forall (A : Type) (this : Service) (fn : M A) (maxRetries : Z) (w : World),
    1 <= maxRetries ->
    (forall w0, fst (fn w0) <> Throw Undefined) ->
    keeps (emitsOnly (without sleeping)) fn ->
    let run := withRetry this fn maxRetries w in
    let delays (k : nat) :=
      map (fun j => Some (retryDelay this * Z.of_nat j)) (seq 1 k) in
    Executes this fn maxRetries 1 w (fst run) (snd run)
    /\ (forall message mark w1,
          fn w = (Throw (Error message), w1) ->
          In mark terminalMarks ->
          Js.includes message mark = true ->
          run = (Throw (Error message), w1))
    /\ (exists k, Z.of_nat k < maxRetries
                  /\ slept (snd run) = slept w ++ delays k)
    /\ (0 < retryDelay this ->
        forall j, retryDelay this * Z.of_nat j
                  < retryDelay this * Z.of_nat (S j))
    /\ ((forall w0, exists message w1,
            fn w0 = (Throw (Error message), w1)
            /\ persistentMessage (Js.toLowerCase message) = false) ->
        slept (snd run) = slept w ++ delays (Z.to_nat maxRetries - 1)%nat
        /\ exists wl message,
             fn wl = (Throw (Error message), snd run)
             /\ fst run = Throw (Error message)).
Proof.
  intros A this fn maxRetries w Hn Hu Hq run delays.
  assert (Hr : Z.to_nat maxRetries <> O) by lia.
  assert (Hz : Z.of_nat (Z.to_nat maxRetries) = maxRetries - 0) by lia.
  splits.
  - apply (retryLoop_executes this fn maxRetries Hu (Z.to_nat maxRetries)
             0 Undefined w Hr Hz).
  - intros m mark w1 Ef Hin Hinc. unfold run, withRetry.
    destruct (Z.to_nat maxRetries) as [|k]; [contradiction|].
    rewrite retryLoop_step, Ef, (terminal_mark m mark Hin Hinc). reflexivity.
  - destruct (retryLoop_sleeps this fn maxRetries Hq (Z.to_nat maxRetries)
                0 Undefined w Hz) as (k & Hk & Ek).
    exists k. split; [lia|]. exact Ek.
  - intros Hd j. nia.
  - intros Ht.
    destruct (retryLoop_transient this fn maxRetries (Z.to_nat maxRetries)
                Ht Hq 0 Undefined w Hr Hz) as (Es & Hl).
    split; [|exact Hl].
    unfold run, withRetry. rewrite Es. unfold delays.
    replace (Z.to_nat maxRetries - 1)%nat with (pred (Z.to_nat maxRetries))
      by lia.
    reflexivity.
Qed.


(** ** The theorems on sample data *)

Lemma sample_healthy (e : Env) (capacity : Z) (table : list Appointment) :
  1 <= capacity -> Healthy (Sample.world e capacity table).
Proof.
  intros H. unfold Healthy. simpl. splits; [exact H|lia|constructor].
Qed.

Lemma not_in_by_filter {A} (p : A -> bool) (x : A) (l : list A) :
  p x = true -> filter p l = [] -> ~ In x l.
Proof.
  intros Hp Hf Hin.
  assert (H : In x (filter p l)) by (apply filter_In; auto).
  rewrite Hf in H. destruct H.
Qed.

(** C1, the claim as first stated fails: with the remote calendar down,
    phase B throws after its retries, phase C is never started, and the
    error leaves [syncSingleIntegration]. *)
Lemma phase_B_failure_skips_phase_C :
  let run :=
    syncSingleIntegration Sample.service Sample.integration Sample.outage in
  let atPhaseB :=
    record (Log Phase2)
      (snd (syncLocalAppointmentsToGoogle Sample.service Sample.integration
              "token-0"
              (record (Log Phase1)
                 (record (Log (SyncStart "int-1")) Sample.outage)))) in
  fst (syncGoogleEventsToLocal Sample.service Sample.integration "token-0"
         atPhaseB)
  = Throw (Error "Google Calendar API error: 500 - boom")
  /\ fst run = Throw (Error "Google Calendar API error: 500 - boom")
  /\ phases (snd run) = [Log Phase1; Log Phase2]
  /\ ~ In (Log Phase3) (history (snd run)).
Proof.
  cbv zeta. splits; try (vm_compute; reflexivity).
  apply (not_in_by_filter
           (fun e => match e with Log Phase3 => true | _ => false end));
    vm_compute; reflexivity.
Qed.

Lemma phases_in_order_witness :
  Healthy Sample.calm
  /\ ensureValidToken Sample.service Sample.integration
       (record (Log (SyncStart "int-1")) Sample.calm)
     = (Ok "token-0"%string, record (Log (SyncStart "int-1")) Sample.calm)
  /\ exists w2,
       syncLocalAppointmentsToGoogle Sample.service Sample.integration
         "token-0" (record (Log Phase1)
                      (record (Log (SyncStart "int-1")) Sample.calm))
       = (Ok tt, w2)
       /\ phases (snd (syncSingleIntegration Sample.service
                         Sample.integration Sample.calm))
          = [Log Phase1; Log Phase2; Log Phase3].
Proof.
  assert (H : Healthy Sample.calm) by (apply sample_healthy; lia).
  split; [exact H|]. split; [reflexivity|].
  destruct (phases_in_order Sample.service Sample.integration Sample.calm
              "token-0"
              (record (Log (SyncStart "int-1")) Sample.calm) H eq_refl)
    as (w2 & EA & HB).
  exists w2. split; [exact EA|].
  assert (E2 : w2 = snd (syncLocalAppointmentsToGoogle Sample.service
                           Sample.integration "token-0"
                           (record (Log Phase1)
                              (record (Log (SyncStart "int-1"))
                                 Sample.calm))))
    by (rewrite EA; reflexivity).
  rewrite E2 in HB. vm_compute in HB.
  destruct HB as (w4 & _ & _ & HP). vm_compute. exact HP.
Defined.

(** C7, the claim as first stated fails: with the remote calendar down
    the retries of the listing are exhausted, the error is not terminal,
    and the batch leaves the integration 'connected'. *)
Lemma exhausted_retries_leave_integration_connected :
  let atStart := snd (getActiveGoogleCalendarIntegrations Sample.outage) in
  let run :=
    syncSingleIntegration Sample.service Sample.integration atStart in
  let after := snd (syncAllIntegrations Sample.service Sample.outage) in
  fst run = Throw (Error "Google Calendar API error: 500 - boom")
  /\ persistentMessage
       (Js.toLowerCase "Google Calendar API error: 500 - boom") = false
  /\ slept (snd run) = [Some 1000; Some 2000]
  /\ map i_status (integrations after) = ["connected"%string]
  /\ filter markingError (history after) = [].
Proof. cbv zeta. splits; vm_compute; reflexivity. Qed.

Lemma batch_marks_terminal_errors_witness :
  Healthy Sample.outage
  /\ syncSingleIntegration Sample.service Sample.integration Sample.outage
     = (Throw (Error "Google Calendar API error: 500 - boom"),
        snd (syncSingleIntegration Sample.service Sample.integration
               Sample.outage))
  /\ syncOne Sample.service Sample.integration Sample.noCounts Sample.outage
     = (Ok {| processedCount := 1; successCount := 0; errorCount := 1 |},
        snd (syncSingleIntegration Sample.service Sample.integration
               Sample.outage))
  /\ exists c' w',
       batchLoop Sample.service [Sample.integration; Sample.integration]
         Sample.noCounts Sample.outage = (Ok c', w')
       /\ processedCount c' = 2.
Proof.
  assert (H : Healthy Sample.outage) by (apply sample_healthy; lia).
  assert (E : syncSingleIntegration Sample.service Sample.integration
                Sample.outage
              = (Throw (Error "Google Calendar API error: 500 - boom"),
                 snd (syncSingleIntegration Sample.service Sample.integration
                        Sample.outage)))
    by (vm_compute; reflexivity).
  split; [exact H|]. split; [exact E|].
  destruct (batch_marks_terminal_errors Sample.service Sample.integration
              [Sample.integration] Sample.noCounts Sample.outage _ _ H E)
    as (m & Em & _ & Htransient & c' & w' & Eloop & Hc & _).
  injection Em as <-. split.
  - apply Htransient. vm_compute. reflexivity.
  - exists c', w'. split; [exact Eloop|exact Hc].
Defined.

Lemma cursor_written_once_witness :
  Healthy Sample.pulling
  /\ buildSyncParams Sample.integration Sample.pulling
     = (Ok (FullWindow (-2591000000) 31537000000), Sample.pulling)
  /\ fst (fetchGoogleCalendarEvents Sample.service "token-0" "primary"
            (FullWindow (-2591000000) 31537000000) Sample.pulling)
     = Ok Sample.listing
  /\ List.length
       (filter rejectedWrite
          (history (snd (syncGoogleEventsToLocal Sample.service
                           Sample.integration "token-0" Sample.pulling))))
     = 1%nat
  /\ fst (syncGoogleEventsToLocal Sample.service Sample.integration
            "token-0" Sample.pulling) = Ok 2
  /\ cursorWrites (snd (syncGoogleEventsToLocal Sample.service
                          Sample.integration "token-0" Sample.pulling))
     = 1%nat
  /\ forall i,
       In i (integrations (snd (syncGoogleEventsToLocal Sample.service
                                  Sample.integration "token-0"
                                  Sample.pulling))) ->
       i_id i = "int-1"%string -> i_sync_token i = Some "cursor-2"%string.
Proof.
  assert (H : Healthy Sample.pulling) by (apply sample_healthy; lia).
  assert (Eb : buildSyncParams Sample.integration Sample.pulling
               = (Ok (FullWindow (-2591000000) 31537000000), Sample.pulling))
    by reflexivity.
  assert (Ef : fetchGoogleCalendarEvents Sample.service "token-0"
                 (i_calendar_id Sample.integration)
                 (FullWindow (-2591000000) 31537000000) Sample.pulling
               = (Ok Sample.listing,
                  snd (fetchGoogleCalendarEvents Sample.service "token-0"
                         "primary" (FullWindow (-2591000000) 31537000000)
                         Sample.pulling)))
    by (vm_compute; reflexivity).
  split; [exact H|]. split; [exact Eb|].
  split; [vm_compute; reflexivity|]. split; [vm_compute; reflexivity|].
  destruct (cursor_written_once Sample.service Sample.integration "token-0"
              Sample.pulling _ _ _ H Eb Ef)
    as (w2 & El & Er & Hc).
  split; [exact Er|].
  change (newCursor Sample.listing) with (Some "cursor-2"%string) in Hc.
  destruct Hc as (Hcount & _ & Hstored).
  split; [exact Hcount|].
  intros i Hin Hid. apply Hstored; [|exact Hin|exact Hid].
  assert (E2 : w2 = snd (forOf (itemsOf Sample.listing)
                           (processGoogleEvent
                              (i_company_id Sample.integration))
                           (snd (fetchGoogleCalendarEvents Sample.service
                                   "token-0" "primary"
                                   (FullWindow (-2591000000) 31537000000)
                                   Sample.pulling))))
    by (rewrite El; reflexivity).
  rewrite E2. vm_compute. reflexivity.
Defined.

Lemma orphan_sweep_safety_witness :
  Healthy Sample.outage
  /\ 1 <= retryAttempts Sample.service
  /\ checkGoogleEventExists Sample.service "ev-other" "primary" "token-0"
       Sample.outage
     = (Throw (Error "Google Calendar API error: 500 - boom"),
        snd (checkGoogleEventExists Sample.service "ev-other" "primary"
               "token-0" Sample.outage))
  /\ sweepAppointment Sample.service Sample.integration "token-0"
       Sample.orphan Sample.outage
     = (Ok tt,
        snd (checkGoogleEventExists Sample.service "ev-other" "primary"
               "token-0" Sample.outage))
  /\ appointments
       (snd (checkGoogleEventExists Sample.service "ev-other" "primary"
               "token-0" Sample.outage))
     = appointments Sample.outage.
Proof.
  assert (H : Healthy Sample.outage) by (apply sample_healthy; lia).
  assert (Hn : 1 <= retryAttempts Sample.service) by (simpl; lia).
  assert (E : checkGoogleEventExists Sample.service
                (render (a_google_event_id Sample.orphan))
                (i_calendar_id Sample.integration) "token-0" Sample.outage
              = (Throw (Error "Google Calendar API error: 500 - boom"),
                 snd (checkGoogleEventExists Sample.service "ev-other"
                        "primary" "token-0" Sample.outage)))
    by (vm_compute; reflexivity).
  split; [exact H|]. split; [exact Hn|]. split; [exact E|].
  destruct (orphan_sweep_safety Sample.service Sample.integration "token-0"
              Sample.orphan Sample.outage _ _ H Hn E)
    as (_ & Hsame & _ & _ & Hskip & _).
  split; [apply Hskip; discriminate|exact Hsame].
Defined.

Lemma retry_policy_witness :
  1 <= 3
  /\ (forall w0, fst (Sample.timingOut w0) <> Throw Undefined)
  /\ keeps (emitsOnly (without sleeping)) Sample.timingOut
  /\ slept (snd (withRetry Sample.service Sample.timingOut 3 Sample.calm))
     = [Some 1000; Some 2000]
  /\ (exists wl message,
        Sample.timingOut wl
        = (Throw (Error message),
           snd (withRetry Sample.service Sample.timingOut 3 Sample.calm))
        /\ fst (withRetry Sample.service Sample.timingOut 3 Sample.calm)
           = Throw (Error message)).
Proof.
  assert (Hn : 1 <= 3) by lia.
  assert (Hu : forall w0, fst (Sample.timingOut w0) <> Throw Undefined)
    by (intros w0; discriminate).
  assert (Hq : keeps (emitsOnly (without sleeping)) Sample.timingOut)
    by (intros w0; apply emitsOnly_refl).
  split; [exact Hn|]. split; [exact Hu|]. split; [exact Hq|].
  destruct (retry_policy bool Sample.service Sample.timingOut 3 Sample.calm
              Hn Hu Hq) as (_ & _ & _ & _ & Htransient).
  apply Htransient. intros w0. exists "timeout"%string, w0.
  split; reflexivity.
Defined.

Lemma token_refresh_boundary_witness :
  1 <= retryAttempts Sample.service
  /\ fst (ensureValidToken Sample.service (Sample.expiringIn 4)
            Sample.rotating) = Ok "token-1"%string
  /\ (forall i,
        In i (integrations (snd (ensureValidToken Sample.service
                                   (Sample.expiringIn 4) Sample.rotating))) ->
        i_id i = "int-1"%string ->
        i_access_token i = Some "token-1"%string
        /\ i_token_expires_at i = Some (1000000 + 3600 * 1000)
        /\ i_refresh_token i = Some "refresh-1"%string)
  /\ (forall i,
        In i (integrations (snd (ensureValidToken Sample.service
                                   (Sample.expiringIn 4) Sample.renewing))) ->
        i_id i = "int-1"%string ->
        i_access_token i = Some "token-1"%string
        /\ i_token_expires_at i = Some (1000000 + 3600 * 1000)
        /\ i_refresh_token i = Some "refresh-0"%string).
Proof.
  assert (Hn : 1 <= retryAttempts Sample.service) by (simpl; lia).
  split; [exact Hn|].
  destruct (token_refresh_boundary Sample.service (Sample.expiringIn 4)
              Sample.rotating Hn) as (_ & _ & Hwith).
  destruct (Hwith eq_refl) as (_ & _ & Hrefresh).
  destruct Hrefresh as (_ & Hgrant & _).
  { vm_compute. discriminate. }
  { reflexivity. }
  destruct (Hgrant Sample.rotated
              (snd (refreshAccessToken Sample.service "refresh-0" "client"
                      "secret" Sample.rotating)))
    as (Hret & Hdated & _).
  { vm_compute. reflexivity. }
  destruct (Hdated 3600 eq_refl) as (_ & Hrow & _).
  { vm_compute. reflexivity. }
  split; [exact Hret|]. split.
  - intros i Hin Hid.
    destruct (Hrow eq_refl i Hin Hid) as (Ha & He & Hr & _).
    split; [exact Ha|]. split; [exact He|].
    apply Hr; [reflexivity|discriminate].
  - destruct (token_refresh_boundary Sample.service (Sample.expiringIn 4)
                Sample.renewing Hn) as (_ & _ & Hwith').
    destruct (Hwith' eq_refl) as (_ & _ & Hrefresh').
    destruct Hrefresh' as (_ & Hgrant' & _).
    { vm_compute. discriminate. }
    { reflexivity. }
    destruct (Hgrant' Sample.granted
                (snd (refreshAccessToken Sample.service "refresh-0" "client"
                        "secret" Sample.renewing)))
      as (_ & Hdated' & _).
    { vm_compute. reflexivity. }
    destruct (Hdated' 3600 eq_refl) as (_ & Hrow' & _).
    { vm_compute. reflexivity. }
    intros i Hin Hid.
    destruct (Hrow' eq_refl i Hin Hid) as (Ha & He & _ & Hr).
    split; [exact Ha|]. split; [exact He|].
    apply Hr. reflexivity.
Defined.

(** The other side of the boundary: six minutes before expiry nothing is
    refreshed. *)
Example six_minutes_before_expiry :
  ensureValidToken Sample.service (Sample.expiringIn 6) Sample.renewing
  = (Ok "token-0"%string, Sample.renewing).
Proof. reflexivity. Qed.

(** The boundary itself: exactly five minutes before expiry the token is
    refreshed. *)
Example five_minutes_before_expiry :
  fst (ensureValidToken Sample.service (Sample.expiringIn 5) Sample.renewing)
  = Ok "token-1"%string
  /\ refreshing
       (history (snd (ensureValidToken Sample.service (Sample.expiringIn 5)
                        Sample.renewing)))
     = 1%nat.
Proof. split; vm_compute; reflexivity. Qed.

(** C6, the claim as first stated fails.  An integration whose access
    token is the empty text passes the filter of the cycle, yet
    [ensureValidToken] refuses it before it looks at the expiry: four
    minutes before expiry no refresh is requested, and six minutes
    before expiry the stored token is not returned.  And a grant that
    carries no [expires_in] is answered with the new access token while
    nothing is sent to the store and the row keeps the old tokens. *)
Lemma empty_access_token_is_refused_unrefreshed :
  let soon := Sample.tokenless 4 in
  let late := Sample.tokenless 6 in
  let undated :=
    ensureValidToken Sample.service (Sample.expiringIn 4) Sample.undating in
  eligible soon = true
  /\ i_refresh_token soon = Some "refresh-0"%string
  /\ putOr (i_token_expires_at soon) 0 - clock Sample.renewing
     = 4 * 60 * 1000
  /\ ensureValidToken Sample.service soon Sample.renewing
     = (Throw (Error "No access token available"), Sample.renewing)
  /\ putOr (i_token_expires_at late) 0 - clock Sample.renewing
     = 6 * 60 * 1000
  /\ ensureValidToken Sample.service late Sample.renewing
     = (Throw (Error "No access token available"), Sample.renewing)
  /\ fst undated = Ok "token-1"%string
  /\ refreshing (history (snd undated)) = 1%nat
  /\ filter writingTokens (history (snd undated)) = []
  /\ integrations (snd undated) = [Sample.expiringIn 4].
Proof. cbv zeta. splits; vm_compute; reflexivity. Qed.

Lemma rate_limiter_sliding_window_witness :
  enabled (limiter Sample.narrow) = true
  /\ canMakeRequest Sample.narrow = (Ok true, setRequests [] Sample.narrow)
  /\ exists w2 w3,
       (makeRequest (ret tt) ;; makeRequest (ret tt)) Sample.narrow
       = (Ok tt, w2)
       /\ makeRequest (ret tt) w2 = (Ok tt, w3)
       /\ Js.min (inTrailingWindow w2) = Some (clock Sample.narrow)
       /\ clock Sample.narrow + 60000 - clock w2 <= clock w3 - clock w2.
Proof.
  assert (He : enabled (limiter Sample.narrow) = true) by reflexivity.
  assert (Ec : canMakeRequest Sample.narrow
               = (Ok true, setRequests [] Sample.narrow)) by reflexivity.
  split; [exact He|]. split; [exact Ec|].
  destruct (rate_limiter_sliding_window Sample.narrow _ _ He Ec)
    as (_ & _ & _ & _ & Hthree).
  apply Hthree; reflexivity.
Defined.

(** C9, the claim as first stated fails: the upsert of an active event
    over a cancelled appointment of another calendar resets the status
    and the calendar, two fields outside the claim's list, and leaves the
    description, a field inside it, as it was because the event carries
    none. *)
Lemma upsert_resets_status_and_calendar :
  let after :=
    appointments
      (snd (upsertAppointmentFromGoogleEvent "acme"
              (Sample.event "ev-other" None) Sample.revived)) in
  appointments Sample.revived = [Sample.cancelled]
  /\ sameKey "acme" "ev-other" Sample.cancelled = true
  /\ exists updated,
       after = [updated]
       /\ a_id updated = a_id Sample.cancelled
       /\ a_status Sample.cancelled = "cancelled"%string
       /\ a_status updated = "scheduled"%string
       /\ a_google_calendar_id Sample.cancelled
          = Some "team@example.com"%string
       /\ a_google_calendar_id updated = Some "primary"%string
       /\ g_description (Sample.event "ev-other" None) = None
       /\ a_description updated = Some "quarterly"%string.
Proof.
  cbv zeta. splits; try reflexivity.
  eexists. splits; vm_compute; reflexivity.
Qed.

Lemma upsert_keeps_identity_witness :
  filter (sameKey "acme" (g_id (Sample.event "ev-other" None)))
    (appointments Sample.revived) = [Sample.cancelled]
  /\ g_start (Sample.event "ev-other" None)
     = Some {| dateTime := Some "2025-02-01T09:00:00Z"%string; date := None |}
  /\ g_end (Sample.event "ev-other" None)
     = Some {| dateTime := Some "2025-02-01T10:00:00Z"%string; date := None |}
  /\ a_created_by Sample.cancelled <> EmptyString
  /\ dbError (env Sample.revived) (queried Sample.revived) = None
  /\ dbError (env Sample.revived) (S (queried Sample.revived)) = None
  /\ fst (upsertAppointmentFromGoogleEvent "acme"
            (Sample.event "ev-other" None) Sample.revived) = Ok tt
  /\ map (fun r => (a_id r, a_created_by r, a_created_at r, a_status r))
       (appointments
          (snd (upsertAppointmentFromGoogleEvent "acme"
                  (Sample.event "ev-other" None) Sample.revived)))
     = [("appt-1", "user-7", 10, "scheduled")%string].
Proof.
  assert (H1 : filter (sameKey "acme" (g_id (Sample.event "ev-other" None)))
                 (appointments Sample.revived) = [Sample.cancelled])
    by reflexivity.
  assert (H4 : a_created_by Sample.cancelled <> EmptyString)
    by discriminate.
  split; [exact H1|]. split; [reflexivity|]. split; [reflexivity|].
  split; [exact H4|]. split; [reflexivity|]. split; [reflexivity|].
  destruct (upsert_keeps_identity "acme" (Sample.event "ev-other" None)
              Sample.revived Sample.cancelled _ _ H1 eq_refl eq_refl H4
              eq_refl eq_refl) as [E1 E2].
  split; [exact E1|]. rewrite E2. reflexivity.
Defined.


(** * Further properties *)

(** ** The rate limiter between calls *)

Lemma filter_inWindow_later (a b : Z) (l : list Z) :
  b <= a ->
  filter (inWindow a) (filter (inWindow b) l) = filter (inWindow a) l.
Proof.
  intros H. induction l as [|x t IH]; [reflexivity|]. simpl.
  destruct (inWindow b x) eqn:Eb; simpl.
  - destruct (inWindow a x); [rewrite IH|]; auto.
  - rewrite IH. destruct (inWindow a x) eqn:Ea; [|reflexivity].
    unfold inWindow in *. apply Z.ltb_lt in Ea. apply Z.ltb_ge in Eb. lia.
Qed.

Lemma sameStore_refl (w : World) : sameStore w w.
Proof. unfold sameStore. splits; reflexivity. Qed.

Lemma sameStore_trans (a b c : World) :
  sameStore a b -> sameStore b c -> sameStore a c.
Proof. unfold sameStore. intuition congruence. Qed.

(** When the wait is over, the buffer holds exactly the recorded
    timestamps that are still inside the window, and fewer than the
    capacity. *)
Lemma waitLoop_admits (fuel : nat) :
  forall w,
    Healthy w ->
    enabled (limiter w) = true ->
    (List.length (inTrailingWindow w) < fuel)%nat ->
    exists w',
      waitLoop fuel w = (Ok tt, w')
      /\ Healthy w'
      /\ sameStore w w'
      /\ clock w <= clock w'
      /\ requests (limiter w')
         = filter (inWindow (clock w' - windowSizeMs (limiter w)))
             (requests (limiter w))
      /\ Z.of_nat (List.length (requests (limiter w')))
         < maxRequestsPerMinute (limiter w).
Proof.
  induction fuel as [|k IH]; intros w HW En Hlen; [lia|].
  pose proof (canMakeRequest_eq w) as E. rewrite En in E. simpl in E.
  destruct (maxRequestsPerMinute (limiter w)
            <=? Z.of_nat (List.length (inTrailingWindow w))) eqn:Efull.
  2:{ eexists. rewrite (waitLoop_free k _ _ E). splits; try reflexivity.
      - eapply Healthy_later; eauto; simpl; try lia.
        unfold inTrailingWindow. intros x Hx. apply filter_In in Hx. tauto.
      - unfold sameStore; simpl. splits; reflexivity.
      - simpl. apply Z.leb_gt in Efull. exact Efull. }
  apply Z.leb_le in Efull.
  destruct HW as (HC & HWin & HF).
  destruct (Js.min (inTrailingWindow w)) as [o|] eqn:Emin.
  2:{ apply min_none in Emin. rewrite Emin in Efull. simpl in Efull. lia. }
  destruct (min_spec _ _ Emin) as [Hin Hleast].
  assert (Ho : o <= clock w).
  { unfold inTrailingWindow in Hin. apply filter_In in Hin.
    rewrite Forall_forall in HF. apply HF. tauto. }
  rewrite (waitLoop_round k _ _ E). rewrite Emin. simpl.
  set (d := Z.max 1000 (o + windowSizeMs (limiter w) - clock w)).
  assert (Hd : 1 <= d <= 2147483647) by (unfold d; lia).
  rewrite (timerDelay_in_range _ Hd).
  match goal with |- exists w', waitLoop k ?W = _ /\ _ => set (w2 := W) end.
  assert (H2 : Healthy w2).
  { unfold Healthy, w2; simpl. splits; auto.
    apply Forall_forall. intros x Hx. unfold inTrailingWindow in Hx.
    apply filter_In in Hx. rewrite Forall_forall in HF.
    specialize (HF x (proj1 Hx)). lia. }
  assert (L2 : (List.length (inTrailingWindow w2) < k)%nat).
  { unfold inTrailingWindow at 1, w2. simpl.
    assert (Hdrop : inWindow (clock w + d - windowSizeMs (limiter w)) o = false).
    { unfold inWindow. apply Z.ltb_ge. unfold d. lia. }
    pose proof (filter_drops _ _ _ Hin Hdrop). lia. }
  assert (En2 : enabled (limiter w2) = true) by exact En.
  destruct (IH w2 H2 En2 L2) as (w' & Ew & Hw' & Hs & Hclk & Hreq & Hcap).
  exists w'. splits; auto.
  - unfold w2 in Hclk; simpl in Hclk. lia.
  - rewrite Hreq.
    apply filter_inWindow_later. unfold w2 in Hclk; simpl in Hclk. lia.
Qed.

Lemma waitForAvailability_admits (w : World) :
  Healthy w ->
  enabled (limiter w) = true ->
  exists w',
    waitForAvailability w = (Ok tt, w')
    /\ Healthy w'
    /\ sameStore w w'
    /\ clock w <= clock w'
    /\ requests (limiter w')
       = filter (inWindow (clock w' - windowSizeMs (limiter w)))
           (requests (limiter w))
    /\ Z.of_nat (List.length (requests (limiter w')))
       < maxRequestsPerMinute (limiter w).
Proof.
  intros H En. unfold waitForAvailability. apply waitLoop_admits; auto.
  pose proof (filter_length_le
                (inWindow (clock w - windowSizeMs (limiter w)))
                (requests (limiter w))).
  unfold inTrailingWindow. lia.
Qed.

(** One request let through: its timestamp joins the timestamps still
    inside the window, of which there were fewer than the capacity. *)
Lemma makeRequest_now (w : World) :
  Healthy w ->
  enabled (limiter w) = true ->
  exists w',
    makeRequest now w = (Ok (clock w'), w')
    /\ Healthy w'
    /\ sameStore w w'
    /\ clock w <= clock w'
    /\ requests (limiter w')
       = filter (inWindow (clock w' - windowSizeMs (limiter w)))
           (requests (limiter w)) ++ [clock w']
    /\ Z.of_nat
         (List.length
            (filter (inWindow (clock w' - windowSizeMs (limiter w)))
               (requests (limiter w))))
       < maxRequestsPerMinute (limiter w).
Proof.
  intros HW En.
  destruct (waitForAvailability_admits w HW En)
    as (w1 & E1 & H1 & S1 & Hc & Hr & Hcap).
  rewrite (makeRequest_eq _ _ _ E1), recordRequest_eq.
  assert (En1 : enabled (limiter w1) = true).
  { destruct S1 as (_ & _ & _ & _ & _ & _ & _ & _ & _ & ->). exact En. }
  rewrite En1. simpl.
  exists (setRequests (requests (limiter w1) ++ [clock w1]) w1).
  splits; try reflexivity.
  - destruct H1 as (A & B & F). unfold Healthy; simpl. splits; auto.
    apply Forall_app. split; [exact F|]. repeat constructor. lia.
  - unfold sameStore in *. simpl. tauto.
  - exact Hc.
  - simpl. rewrite Hr. reflexivity.
  - simpl. rewrite <- Hr. exact Hcap.
Qed.

Lemma filter_all {A} (p : A -> bool) (l : list A) :
  Forall (fun x => p x = true) l -> filter p l = l.
Proof.
  induction 1 as [|x t Hx _ IH]; [reflexivity|]. simpl. rewrite Hx, IH.
  reflexivity.
Qed.

(** Among timestamps in ascending order, [n] consecutive ones from
    position [i] on that precede position [i + n] are all counted by a
    window that contains the first of them. *)
Lemma window_counts (ts : list Z) :
  StronglySorted Z.le ts ->
  forall (i n : nat) (a c : Z),
    nth_error ts i = Some a ->
    (i + n <= List.length ts)%nat ->
    c < a ->
    (n <= List.length (filter (inWindow c) (firstn (i + n) ts)))%nat.
Proof.
  induction 1 as [|x t Hs IH Hall]; intros i n a c Hi Hlen Hc.
  - destruct i; discriminate.
  - destruct i as [|i].
    + simpl in Hi. injection Hi as ->.
      assert (F : Forall (fun y => inWindow c y = true) (firstn n (a :: t))).
      { apply Forall_forall. intros y Hy. apply firstn_In in Hy.
        unfold inWindow. apply Z.ltb_lt.
        destruct Hy as [<-|Hy]; [exact Hc|].
        rewrite Forall_forall in Hall. specialize (Hall y Hy). lia. }
      simpl (0 + n)%nat. rewrite (filter_all _ _ F).
      rewrite length_firstn. simpl in Hlen. simpl. lia.
    + simpl in Hi, Hlen. simpl.
      specialize (IH i n a c Hi ltac:(lia) Hc).
      destruct (inWindow c x); simpl; lia.
Qed.

Lemma acquisitions_run (k : nat) :
  forall w,
    Healthy w ->
    enabled (limiter w) = true ->
    exists ts w',
      acquisitions k w = (Ok ts, w')
      /\ List.length ts = k
      /\ Forall (fun t => clock w <= t) ts
      /\ StronglySorted Z.le ts
      /\ forall j b,
           nth_error ts j = Some b ->
           Z.of_nat
             (List.length
                (filter (inWindow (b - windowSizeMs (limiter w)))
                   (requests (limiter w) ++ firstn j ts)))
           < maxRequestsPerMinute (limiter w).
Proof.
  induction k as [|k IH]; intros w HW En.
  - exists [], w. splits; try reflexivity; try constructor.
    intros [|j] b H; discriminate.
  - destruct (makeRequest_now w HW En)
      as (w1 & E1 & H1 & S1 & Hc & Hr & Hcap).
    assert (En1 : enabled (limiter w1) = true).
    { destruct S1 as (_ & _ & _ & _ & _ & _ & _ & _ & _ & ->). exact En. }
    assert (EW : windowSizeMs (limiter w1) = windowSizeMs (limiter w)).
    { destruct S1 as (_ & _ & _ & _ & _ & _ & _ & _ & -> & _). reflexivity. }
    assert (EC : maxRequestsPerMinute (limiter w1)
                 = maxRequestsPerMinute (limiter w)).
    { destruct S1 as (_ & _ & _ & _ & _ & _ & _ & -> & _). reflexivity. }
    destruct (IH w1 H1 En1) as (ts & w' & E & Hlen & Hge & Hs & Hcount).
    exists (clock w1 :: ts), w'. splits.
    + simpl. rewrite (bind_ok _ _ _ _ _ E1), (bind_ok _ _ _ _ _ E).
      reflexivity.
    + simpl. rewrite Hlen. reflexivity.
    + constructor; [exact Hc|].
      eapply Forall_impl; [|exact Hge]. simpl. intros; lia.
    + constructor; [exact Hs|exact Hge].
    + intros [|j] b Hb.
      * simpl in Hb. injection Hb as <-. simpl. rewrite app_nil_r.
        exact Hcap.
      * simpl in Hb. specialize (Hcount j b Hb).
        rewrite EW, EC, Hr in Hcount.
        assert (Hle : clock w1 <= b).
        { rewrite Forall_forall in Hge. apply Hge.
          eapply nth_error_In; eauto. }
        rewrite <- app_assoc, filter_app, filter_inWindow_later in Hcount
          by lia.
        rewrite <- filter_app in Hcount. exact Hcount.
Qed.

(** X1.  The guarantee of the sliding window over a run of requests.
    With the limiter enabled and a capacity of at least one, each of [k]
    requests sent through [makeRequest] is let through, and at the time a
    request is let through fewer than [C] of the requests recorded before
    it (before the run or during it) lie inside the window that ends at
    that time.  Hence any [C + 1] consecutive admissions span at least
    the length [W] of the window. *)
Theorem admissions_respect_window :
  forall (k : nat) (w : World),
    Healthy w ->
    enabled (limiter w) = true ->
    let W := windowSizeMs (limiter w) in
    let C := maxRequestsPerMinute (limiter w) in
    exists ts w',
      acquisitions k w = (Ok ts, w')
      /\ List.length ts = k
      /\ (forall j b,
            nth_error ts j = Some b ->
            Z.of_nat
              (List.length
                 (filter (inWindow (b - W))
                    (requests (limiter w) ++ firstn j ts)))
            < C)
      /\ (forall i a b,
            nth_error ts i = Some a ->
            nth_error ts (i + Z.to_nat C) = Some b ->
            a + W <= b).
Proof.
  intros k w HW En W C.
  destruct (acquisitions_run k w HW En) as (ts & w' & E & Hlen & _ & Hs & Hcount).
  exists ts, w'. splits; auto.
  intros i a b Ha Hb.
  destruct (Z_le_gt_dec (a + W) b) as [Hle|Hgt]; [exact Hle|exfalso].
  specialize (Hcount _ _ Hb). fold W C in Hcount.
  assert (Hi : (i + Z.to_nat C <= List.length ts)%nat).
  { apply Nat.lt_le_incl. apply nth_error_Some. congruence. }
  pose proof (window_counts ts Hs i (Z.to_nat C) a (b - W) Ha Hi ltac:(lia))
    as Hn.
  rewrite filter_app, length_app in Hcount.
  destruct HW as (HC & _). fold C in HC. lia.
Qed.

(** X2.  A disabled limiter is transparent, whatever its capacity: the
    check answers yes without pruning the buffer, nothing is recorded,
    the wait returns at once, and [makeRequest] runs the request in the
    current world and ends as the request ends (a request that throws
    something other than [undefined]). *)
Theorem disabled_limiter_is_transparent :
  forall (A : Type) (requestFn : M A) (w : World) (r : outcome A)
         (w1 : World),
    enabled (limiter w) = false ->
    requestFn w = (r, w1) ->
    r <> Throw Undefined ->
    canMakeRequest w = (Ok true, w)
    /\ recordRequest w = (Ok tt, w)
    /\ waitForAvailability w = (Ok tt, w)
    /\ makeRequest requestFn w = (r, w1).
Proof.
  intros A requestFn w r w1 En Erun Hr.
  assert (Ec : canMakeRequest w = (Ok true, w)).
  { rewrite canMakeRequest_eq, En. reflexivity. }
  assert (Ew : waitForAvailability w = (Ok tt, w)).
  { apply waitForAvailability_free. exact Ec. }
  splits; auto.
  - rewrite recordRequest_eq, En. reflexivity.
  - rewrite (makeRequest_eq _ _ _ Ew), recordRequest_eq, En. simpl.
    rewrite catch_eq, Erun.
    destruct r as [a|[m|]|]; try reflexivity. contradiction Hr. reflexivity.
Qed.

Lemma getStats_eq (w : World) :
  getStats w =
  (Ok {| s_enabled := enabled (limiter w);
         s_maxRequestsPerMinute := maxRequestsPerMinute (limiter w);
         s_currentRequests := Z.of_nat (List.length (inTrailingWindow w));
         s_remainingRequests :=
           Z.max 0 (maxRequestsPerMinute (limiter w)
                    - Z.of_nat (List.length (inTrailingWindow w)));
         s_windowSizeMs := windowSizeMs (limiter w) |}, w).
Proof. reflexivity. Qed.

(** X3.  [getStats] reads the limiter without changing it (the check
    prunes the buffer, the statistics do not), counts the timestamps
    inside the window, and agrees with the check of an enabled limiter: a
    request would be let through at once exactly when
    [remainingRequests] is positive, and the buffer the check leaves has
    [currentRequests] entries. *)
Theorem getStats_agrees_with_the_check :
  forall (w : World),
    enabled (limiter w) = true ->
    exists st,
      getStats w = (Ok st, w)
      /\ 0 <= s_remainingRequests st
      /\ s_currentRequests st + s_remainingRequests st
         = Z.max (s_currentRequests st) (maxRequestsPerMinute (limiter w))
      /\ (fst (canMakeRequest w) = Ok true <-> 0 < s_remainingRequests st)
      /\ Z.of_nat (List.length (requests (limiter (snd (canMakeRequest w)))))
         = s_currentRequests st.
Proof.
  intros w En. eexists. split; [apply getStats_eq|]. simpl.
  rewrite canMakeRequest_eq, En. simpl.
  destruct (maxRequestsPerMinute (limiter w)
            <=? Z.of_nat (List.length (inTrailingWindow w))) eqn:E;
    simpl; splits; try lia; try reflexivity.
  - apply Z.leb_le in E. split; [discriminate|lia].
  - apply Z.leb_gt in E. split; [lia|reflexivity].
Qed.


(** ** A synchronisation cycle as a whole *)

Lemma getActiveGoogleCalendarIntegrations_eq (w : World) :
  getActiveGoogleCalendarIntegrations w =
  let failure := dbError (env w) (queried w) in
  (Ok match failure with
      | Some _ => []
      | None => filter eligible (integrations w)
      end,
   record (Query SelectActiveIntegrations failure) (countQuery w)).
Proof.
  unfold getActiveGoogleCalendarIntegrations, bind, supabase, gets, ret.
  simpl. destruct (dbError (env w) (queried w)); reflexivity.
Qed.

(** The batch loop counts every integration once, as a success or as a
    failure. *)
Lemma syncOne_tally (this : Service) (integration : Integration)
    (c c1 : Counts) (w w1 : World) :
  syncOne this integration c w = (Ok c1, w1) ->
  (successCount c1 = successCount c + 1 /\ errorCount c1 = errorCount c)
  \/ (successCount c1 = successCount c /\ errorCount c1 = errorCount c + 1).
Proof.
  unfold syncOne. rewrite catch_eq.
  set (Q := fun x : Counts =>
              (successCount x = successCount c + 1
               /\ errorCount x = errorCount c)
              \/ (successCount x = successCount c
                  /\ errorCount x = errorCount c + 1)).
  match goal with |- _ -> ?G => change G with (Q c1) end.
  destruct (bind (syncSingleIntegration this integration) _ w)
    as [[c0|e|] w0] eqn:E.
  - intros E1. rewrite E1 in E. revert E. apply (result_bind Q).
    intros a w2 E2. inversion E2. left. split; reflexivity.
  - apply (result_bind Q). intros m w2. apply (result_bind Q). intros _ w3.
    apply (result_bind Q). intros p w4. apply (result_bind Q). intros _ w5 E2.
    inversion E2. right. split; reflexivity.
  - discriminate.
Qed.

Lemma batchLoop_tally (this : Service) (batch : list Integration) :
  forall (c c' : Counts) (w w' : World),
    batchLoop this batch c w = (Ok c', w') ->
    successCount c' + errorCount c'
    = successCount c + errorCount c + Z.of_nat (List.length batch)
    /\ successCount c <= successCount c'
    /\ errorCount c <= errorCount c'.
Proof.
  induction batch as [|i t IH]; intros c c' w w' E.
  - simpl in E. inversion E. simpl. lia.
  - cbn [batchLoop] in E. rewrite bind_eq in E.
    destruct (syncOne this i c w) as [[c1|e|] w1] eqn:E1; try discriminate.
    apply syncOne_tally in E1. apply IH in E.
    cbn [List.length]. lia.
Qed.

Lemma slice0_length {A} (l : list A) (n : Z) :
  0 <= n -> Z.of_nat (List.length (Js.slice0 l n)) <= n.
Proof.
  intros H. unfold Js.slice0.
  destruct (n <? 0) eqn:E; [apply Z.ltb_lt in E; lia|].
  rewrite length_firstn. lia.
Qed.

(** X4.  A synchronisation cycle always comes to an end and never
    throws, whatever the remote calendar, the token endpoint and the
    store answer, as long as the limiter has room for one request; it
    leaves the limiter usable.  When the query for the integrations
    fails, or none is eligible, the cycle consists of that query and one
    log line. *)
Theorem sync_cycle_always_returns :
  forall (this : Service) (w : World),
    Healthy w ->
    exists w',
      syncAllIntegrations this w = (Ok tt, w')
      /\ Healthy w'
      /\ (dbError (env w) (queried w) <> None
          \/ filter eligible (integrations w) = [] ->
          w' = record (Log NoActiveIntegrations)
                 (record (Query SelectActiveIntegrations
                            (dbError (env w) (queried w)))
                    (countQuery w))).
Proof.
  intros this w HW.
  destruct (syncAllIntegrations_pure this Pure w HW) as [H' Hr].
  destruct (syncAllIntegrations this w) as [[[]|[m|]|] w'] eqn:E;
    simpl in Hr; try contradiction; try discriminate; try congruence.
  exists w'. splits; auto.
  intros Hnone. revert E. unfold syncAllIntegrations.
  rewrite catch_eq, bind_eq, getActiveGoogleCalendarIntegrations_eq.
  cbv zeta.
  assert (L : match dbError (env w) (queried w) with
              | Some _ => []
              | None => filter eligible (integrations w)
              end = []).
  { destruct (dbError (env w) (queried w)); [reflexivity|].
    destruct Hnone as [H|H]; [contradiction H; reflexivity|exact H]. }
  rewrite L. simpl. intros E. inversion E. reflexivity.
Qed.

(** X5.  When the query for the integrations succeeds, the cycle starts
    the synchronisation of the first [maxCompaniesPerBatch] eligible
    integrations (active, connected, enabled, with an access token), in
    the order of the table, each once and whatever happens to the ones
    before; the final log line counts each of them as a success or as a
    failure. *)
Theorem batch_takes_the_first_integrations :
  forall (this : Service) (w : World),
    Healthy w ->
    dbError (env w) (queried w) = None ->
    let batch :=
      Js.slice0 (filter eligible (integrations w))
        (maxCompaniesPerBatch this) in
    exists w',
      syncAllIntegrations this w = (Ok tt, w')
      /\ started w' = started w ++ map i_id batch
      /\ (0 <= maxCompaniesPerBatch this ->
          Z.of_nat (List.length batch) <= maxCompaniesPerBatch this)
      /\ (filter eligible (integrations w) <> [] ->
          exists s e,
            head (trace w')
            = Some (Log (BatchComplete (Z.of_nat (List.length batch)) s e))
            /\ s + e = Z.of_nat (List.length batch)
            /\ 0 <= s /\ 0 <= e).
Proof.
  intros this w HW Hdb batch.
  unfold syncAllIntegrations.
  rewrite catch_eq, bind_eq, getActiveGoogleCalendarIntegrations_eq.
  cbv zeta. rewrite Hdb.
  set (w0 := record (Query SelectActiveIntegrations None) (countQuery w)).
  assert (H0 : Healthy w0) by exact HW.
  assert (S0 : started w0 = started w).
  { unfold w0, started. rewrite history_record, startedIn_app. simpl.
    apply app_nil_r. }
  destruct (filter eligible (integrations w)) as [|i rest] eqn:El.
  - exists (record (Log NoActiveIntegrations) w0). subst batch.
    assert (Hs : @Js.slice0 Integration [] (maxCompaniesPerBatch this) = []).
    { unfold Js.slice0. destruct (_ <? 0); apply firstn_nil. }
    rewrite Hs. simpl. splits.
    + reflexivity.
    + unfold started. rewrite history_record, startedIn_app. simpl.
      fold (started w0). rewrite S0. rewrite !app_nil_r. reflexivity.
    + intros; lia.
    + intros H. contradiction H. reflexivity.
  - fold batch.
    destruct (batchLoop_runs this batch
                {| processedCount := 0; successCount := 0; errorCount := 0 |}
                w0 H0) as (c' & w1 & E & H1 & Hp & Hst).
    pose proof (batchLoop_tally _ _ _ _ _ _ E) as (Hsum & Hs & He).
    simpl in Hp, Hsum, Hs, He.
    rewrite bind_eq, E. simpl.
    exists (record (Log (BatchComplete (processedCount c') (successCount c')
                           (errorCount c'))) w1).
    splits.
    + reflexivity.
    + unfold started. rewrite history_record, startedIn_app. simpl.
      fold (started w1). rewrite Hst, S0, app_nil_r. reflexivity.
    + apply slice0_length.
    + intros _. exists (successCount c'), (errorCount c'). simpl.
      rewrite Hp. splits; auto; lia.
Qed.


(** ** The table of integrations *)

#[export] Instance staysErrored_tolerates (integrationId : string) :
  Tolerates (staysErrored integrationId) (fun _ => True).
Proof. constructor; unfold staysErrored; auto. Qed.

#[export] Instance staysErrored_writes_appointments (integrationId : string) :
  WritesAppointments (staysErrored integrationId).
Proof. intros l w H. exact H. Qed.

Lemma errored_updateWhere (integrationId k : string)
    (f : Integration -> Integration) (w : World) :
  (forall i, i_id (f i) = i_id i
             /\ (i_status (f i) = i_status i
                 \/ i_status (f i) = "error"%string)) ->
  staysErrored integrationId w
    (setIntegrations (updateWhere i_id k f (integrations w)) w).
Proof.
  intros Hf He i Hin Hid. simpl in Hin. apply updateWhere_hit in Hin.
  destruct Hin as [(r0 & Hr0 & _ & ->)|[Hin _]]; [|apply He; assumption].
  destruct (Hf r0) as [E1 [E2|E2]]; [|exact E2].
  rewrite E2. apply He; [exact Hr0|congruence].
Qed.

Ltac errored_tables :=
  apply keeps_modify; intros ?; apply errored_updateWhere; intros ?;
  split; [reflexivity|first [left; reflexivity|right; reflexivity]].

Lemma syncOne_staysErrored (this : Service) (integrationId : string)
    (integration : Integration) (c : Counts) :
  keeps (staysErrored integrationId) (syncOne this integration c).
Proof. keeps_auto; errored_tables. Qed.

Lemma syncAllIntegrations_staysErrored (this : Service)
    (integrationId : string) :
  keeps (staysErrored integrationId) (syncAllIntegrations this).
Proof.
  unfold syncAllIntegrations.
  apply keeps_catch; [|intros; keeps_auto].
  apply keeps_bind; [keeps_auto|]. intros l.
  destruct l; [keeps_auto|].
  apply keeps_bind; [|intros; keeps_auto].
  apply keeps_batchLoop. intros. apply syncOne_staysErrored.
Qed.

Lemma syncAllIntegrations_started (this : Service) (w : World) :
  Healthy w ->
  exists ids,
    started (snd (syncAllIntegrations this w)) = started w ++ ids
    /\ forall k, In k ids ->
         exists i, In i (integrations w) /\ i_id i = k /\ eligible i = true.
Proof.
  intros HW. unfold syncAllIntegrations.
  rewrite catch_eq, bind_eq, getActiveGoogleCalendarIntegrations_eq.
  cbv zeta.
  set (w0 := record (Query SelectActiveIntegrations
                       (dbError (env w) (queried w))) (countQuery w)).
  assert (H0 : Healthy w0) by exact HW.
  assert (S0 : started w0 = started w).
  { unfold w0, started. rewrite history_record, startedIn_app. simpl.
    apply app_nil_r. }
  assert (Hlog : forall l w1, started w1 = started w ++ l ->
                 started (record (Log NoActiveIntegrations) w1)
                 = started w ++ l).
  { intros l w1 E. unfold started. rewrite history_record, startedIn_app.
    simpl. fold (started w1). rewrite E, app_nil_r. reflexivity. }
  destruct (match dbError (env w) (queried w) with
            | Some _ => []
            | None => filter eligible (integrations w)
            end) as [|i rest] eqn:El.
  - exists []. simpl. split; [|intros k []].
    apply Hlog. rewrite S0, app_nil_r. reflexivity.
  - set (batch := Js.slice0 (i :: rest) (maxCompaniesPerBatch this)).
    destruct (batchLoop_runs this batch
                {| processedCount := 0; successCount := 0; errorCount := 0 |}
                w0 H0) as (c' & w1 & E & H1 & Hp & Hst).
    rewrite bind_eq, E. simpl.
    exists (map i_id batch). split.
    + unfold started. rewrite history_record, startedIn_app. simpl.
      fold (started w1). rewrite Hst, S0, app_nil_r. reflexivity.
    + intros k Hk. apply in_map_iff in Hk. destruct Hk as (j & <- & Hj).
      assert (Hin : In j (i :: rest)).
      { unfold batch, Js.slice0 in Hj.
        destruct (_ <? 0); eapply firstn_In; exact Hj. }
      rewrite <- El in Hin.
      destruct (dbError (env w) (queried w)); [destruct Hin|].
      apply filter_In in Hin. exists j. tauto.
Qed.

(** X6.  An integration marked as failed stays out of service: once
    [markIntegrationAsError] has been accepted by the store every row of
    the integration carries status 'error'; no step of a synchronisation
    cycle changes that status again; and a cycle that begins in such a
    state does not start the synchronisation of that integration. *)
Theorem failed_integration_stays_out :
  forall (this : Service) (integrationId : string) (w : World),
    (forall message w1,
        markIntegrationAsError integrationId message w = (Ok true, w1) ->
        errored integrationId w1)
    /\ (errored integrationId w ->
        errored integrationId (snd (syncAllIntegrations this w)))
    /\ (Healthy w ->
        errored integrationId w ->
        exists ids,
          started (snd (syncAllIntegrations this w)) = started w ++ ids
          /\ ~ In integrationId ids).
Proof.
  intros this k w. splits.
  - intros message w1. rewrite markIntegrationAsError_eq. cbv zeta.
    destruct (dbError (env w) (queried w)); [discriminate|].
    intros E; injection E as <-. intros i Hin Hid. simpl in Hin.
    apply updateWhere_hit in Hin.
    destruct Hin as [(r0 & _ & _ & ->)|[_ Hne]]; [reflexivity|contradiction].
  - apply syncAllIntegrations_staysErrored.
  - intros HW He.
    destruct (syncAllIntegrations_started this w HW) as (ids & E & Hids).
    exists ids. split; [exact E|]. intros Hin.
    destruct (Hids k Hin) as (i & Hi & Hid & Hel).
    specialize (He i Hi Hid). unfold eligible in Hel. rewrite He in Hel.
    simpl in Hel. rewrite andb_false_r in Hel. discriminate.
Qed.

Lemma sameSettings_refl (i : Integration) : sameSettings i i.
Proof. unfold sameSettings. splits; reflexivity. Qed.

Lemma sameSettings_trans (a b c : Integration) :
  sameSettings a b -> sameSettings b c -> sameSettings a c.
Proof. unfold sameSettings. intuition congruence. Qed.

Lemma keptExcept_refl (k : string) (i : Integration) : keptExcept k i i.
Proof. split; [apply sameSettings_refl|reflexivity]. Qed.

Lemma keptExcept_trans (k : string) (a b c : Integration) :
  keptExcept k a b -> keptExcept k b c -> keptExcept k a c.
Proof.
  intros [S1 E1] [S2 E2]. split; [eapply sameSettings_trans; eauto|].
  intros Hne. rewrite E2; [apply E1, Hne|].
  destruct S1 as (-> & _). exact Hne.
Qed.

Section Rowwise.
Variable P : Integration -> Integration -> Prop.
Hypothesis P_refl : forall i, P i i.
Hypothesis P_trans : forall a b c, P a b -> P b c -> P a c.

Lemma Forall2_same (l : list Integration) : Forall2 P l l.
Proof. induction l; constructor; auto. Qed.

Lemma Forall2_through (a b c : list Integration) :
  Forall2 P a b -> Forall2 P b c -> Forall2 P a c.
Proof.
  intros H. revert c. induction H as [|x y s t Hxy _ IH]; intros c Hc.
  - inversion Hc. constructor.
  - inversion Hc; subst. constructor; [eapply P_trans; eauto|auto].
Qed.

Lemma rowwise_tolerates : Tolerates (rowwise P) (fun _ => True).
Proof.
  constructor; unfold rowwise; simpl; intros;
    try apply Forall2_same.
  eapply Forall2_through; eauto.
Qed.

Lemma rowwise_writes_appointments : WritesAppointments (rowwise P).
Proof. intros l w. apply Forall2_same. Qed.

Lemma rowwise_updateWhere (k : string) (f : Integration -> Integration)
    (w : World) :
  (forall i, i_id i = k -> P i (f i)) ->
  rowwise P w (setIntegrations (updateWhere i_id k f (integrations w)) w).
Proof.
  intros Hf. unfold rowwise. simpl.
  induction (integrations w) as [|i t IH]; simpl; constructor; auto.
  destruct (String.eqb_spec (i_id i) k); auto.
Qed.
End Rowwise.

#[export] Instance sameSettings_tolerates :
  Tolerates (rowwise sameSettings) (fun _ => True).
Proof.
  apply rowwise_tolerates; [apply sameSettings_refl|apply sameSettings_trans].
Qed.

#[export] Instance sameSettings_writes_appointments :
  WritesAppointments (rowwise sameSettings).
Proof. apply rowwise_writes_appointments, sameSettings_refl. Qed.

#[export] Instance keptExcept_tolerates (k : string) :
  Tolerates (rowwise (keptExcept k)) (fun _ => True).
Proof.
  apply rowwise_tolerates; [apply keptExcept_refl|apply keptExcept_trans].
Qed.

#[export] Instance keptExcept_writes_appointments (k : string) :
  WritesAppointments (rowwise (keptExcept k)).
Proof. apply rowwise_writes_appointments, keptExcept_refl. Qed.

Ltac settings_tables :=
  apply keeps_modify; intros ?; apply rowwise_updateWhere;
  [first [apply sameSettings_refl|apply keptExcept_refl]|];
  intros ? ?;
  first [ unfold sameSettings; simpl; splits; reflexivity
        | split; [unfold sameSettings; simpl; splits; reflexivity
                 |intros Hne; contradiction Hne] ].

Lemma syncOne_settings (this : Service) (integration : Integration)
    (c : Counts) :
  keeps (rowwise sameSettings) (syncOne this integration c).
Proof. keeps_auto; settings_tables. Qed.

Lemma syncOne_keptExcept (this : Service) (integration : Integration)
    (c : Counts) :
  keeps (rowwise (keptExcept (i_id integration)))
    (syncOne this integration c).
Proof. keeps_auto; settings_tables. Qed.

(** X7.  What a cycle may write in the table of integrations.  The
    synchronisation of one integration, the marking of its failure
    included, leaves the rows of every other integration exactly as they
    were; and a whole cycle neither adds nor removes nor reorders rows
    and writes none of the columns that identify and configure an
    integration (it writes tokens, cursor, status and timestamps
    only). *)
Theorem cycle_writes_only_its_own_rows :
  forall (this : Service) (w : World),
    (forall integration c,
        Forall2 (fun i i' =>
                   sameSettings i i'
                   /\ (i_id i <> i_id integration -> i' = i))
          (integrations w)
          (integrations (snd (syncOne this integration c w))))
    /\ Forall2 sameSettings (integrations w)
         (integrations (snd (syncAllIntegrations this w))).
Proof.
  intros this w. split.
  - intros integration c. apply (syncOne_keptExcept this integration c w).
  - assert (K : keeps (rowwise sameSettings) (syncAllIntegrations this)).
    { unfold syncAllIntegrations.
      apply keeps_catch; [|intros; keeps_auto].
      apply keeps_bind; [keeps_auto|]. intros l.
      destruct l; [keeps_auto|].
      apply keeps_bind; [|intros; keeps_auto].
      apply keeps_batchLoop. intros. apply syncOne_settings. }
    apply (K w).
Qed.


(** ** The table of appointments *)

Lemma getCompanyAdminUser_eq (companyId : string) (w : World) :
  getCompanyAdminUser companyId w =
  (Ok (adminUser companyId w),
   record (Query (SelectAdmin companyId) (dbError (env w) (queried w)))
     (countQuery w)).
Proof.
  unfold getCompanyAdminUser, adminUser, bind, supabase, gets, ret. simpl.
  destruct (dbError (env w) (queried w)); [reflexivity|].
  destruct (filter _ _); reflexivity.
Qed.

Lemma resolved_world (d : AppointmentData) (w : World) :
  env (snd (resolved d w)) = env w
  /\ appointments (snd (resolved d w)) = appointments w
  /\ integrations (snd (resolved d w)) = integrations w
  /\ clock (snd (resolved d w)) = clock w
  /\ limiter (snd (resolved d w)) = limiter w.
Proof.
  unfold resolved. destruct (negb _); simpl; splits; reflexivity.
Qed.

Lemma resolved_payload (d : AppointmentData) (w : World) :
  fst (resolved d w) = d
  \/ exists owner, owner <> EmptyString
                   /\ fst (resolved d w) = withCreatedBy owner d.
Proof.
  unfold resolved. destruct (negb _); simpl; [right|left; reflexivity].
  unfold adminUser. destruct (dbError _ _).
  { eexists. split; [|reflexivity]. discriminate. }
  destruct (filter _ _) as [|u t].
  { eexists. split; [|reflexivity]. discriminate. }
  destruct (String.eqb_spec (u_id u) "").
  { eexists. split; [|reflexivity]. discriminate. }
  exists (u_id u). split; [assumption|reflexivity].
Qed.

Lemma upsertAppointment_eq (d : AppointmentData) (w : World) :
  upsertAppointment d w =
  let d' := fst (resolved d w) in
  let w1 := snd (resolved d w) in
  let failure := dbError (env w1) (queried w1) in
  let w2 := record (Query (UpsertAppointment d') failure) (countQuery w1) in
  match failure with
  | Some m => (Throw (Error m), w2)
  | None =>
      match find (conflicts d') (appointments w) with
      | Some r =>
          (Ok (merge d' r),
           setAppointments (mergeInto d' (appointments w)) w2)
      | None =>
          if keyTaken d' (appointments w) then
            (Throw (Error "duplicate key value violates unique constraint"),
             w2)
          else
            (Ok (inserted (genId (env w1) (queried w1)) (clock w1) d'),
             setAppointments
               (appointments w
                ++ [inserted (genId (env w1) (queried w1)) (clock w1) d'])
               w2)
      end
  end.
Proof.
  unfold upsertAppointment, resolved. rewrite catch_eq, bind_eq.
  destruct (negb (Js.truthy (d_created_by d))).
  - rewrite bind_eq, getCompanyAdminUser_eq.
    set (w1 := record _ (countQuery w)).
    assert (E : (match adminUser (d_company_id d) w with
                 | Some owner => ret (withCreatedBy owner d)
                 | None =>
                     ret (withCreatedBy
                            "00000000-0000-0000-0000-000000000000" d)
                 end) w1
                = (Ok (withCreatedBy
                         match adminUser (d_company_id d) w with
                         | Some owner => owner
                         | None => "00000000-0000-0000-0000-000000000000"%string
                         end d), w1)).
    { destruct (adminUser _ _); reflexivity. }
    rewrite E. cbn [fst snd].
    set (d' := withCreatedBy _ d).
    cbv beta iota delta [bind ret now gets supabase modify throw].
    destruct (dbError (env w1) (queried w1)); [reflexivity|].
    cbv beta iota zeta.
    change (appointments (record (Query (UpsertAppointment d') None)
                            (countQuery w1))) with (appointments w).
    destruct (find (conflicts d') (appointments w)); [reflexivity|].
    cbv beta iota.
    destruct (keyTaken d' _); reflexivity.
  - cbn [fst snd ret].
    cbv beta iota delta [bind ret now gets supabase modify throw].
    destruct (dbError (env w) (queried w)); [reflexivity|].
    cbv beta iota zeta.
    change (appointments (record (Query (UpsertAppointment d) None)
                            (countQuery w))) with (appointments w).
    destruct (find (conflicts d) (appointments w)); [reflexivity|].
    cbv beta iota.
    destruct (keyTaken d _); reflexivity.
Qed.

Lemma upsertAppointmentFromGoogleEvent_eq (companyId : string)
    (googleEvent : GoogleEvent) (w : World) :
  upsertAppointmentFromGoogleEvent companyId googleEvent w =
  let w1 := record (Query (SelectByGoogleEventId companyId (g_id googleEvent))
                      (dbError (env w) (queried w))) (countQuery w) in
  match g_start googleEvent, g_end googleEvent with
  | Some start, Some finish =>
      (_ <- upsertAppointment
              (payloadFor companyId googleEvent start finish
                 (lookup companyId (g_id googleEvent) w)) ;;
       ret tt) w1
  | _, _ => undefinedProperty "dateTime" w1
  end.
Proof.
  unfold upsertAppointmentFromGoogleEvent.
  rewrite bind_eq, getAppointmentByGoogleEventId_eq. cbv zeta.
  unfold lookup.
  destruct (dbError (env w) (queried w));
    destruct (g_start googleEvent); destruct (g_end googleEvent);
    reflexivity.
Qed.

Lemma resolved_fields (d : AppointmentData) (w : World) :
  d_company_id (fst (resolved d w)) = d_company_id d
  /\ d_google_event_id (fst (resolved d w)) = d_google_event_id d
  /\ d_id (fst (resolved d w)) = d_id d
  /\ d_created_at (fst (resolved d w)) = d_created_at d.
Proof.
  destruct (resolved_payload d w) as [->|(o & _ & ->)];
    splits; reflexivity.
Qed.

Lemma lookup_payload (companyId : string) (googleEvent : GoogleEvent)
    (start finish : EventTime) (w : World) :
  let d := payloadFor companyId googleEvent start finish
             (lookup companyId (g_id googleEvent) w) in
  d_id d = None /\ d_created_at d = None
  \/ exists existing,
       filter (sameKey companyId (d_google_event_id d)) (appointments w)
       = [existing]
       /\ d_id d = Some (a_id existing)
       /\ d_created_at d = Some (a_created_at existing).
Proof.
  cbv zeta. unfold lookup. simpl.
  destruct (dbError (env w) (queried w)); [left; split; reflexivity|].
  destruct (filter _ _) as [|r [|]] eqn:E;
    try (left; split; reflexivity).
  right. exists r. splits; reflexivity.
Qed.

(** What the upsert of an active event does to the table. *)
Lemma upsertAppointmentFromGoogleEvent_step (companyId : string)
    (googleEvent : GoogleEvent) (w : World) :
  let w' := snd (upsertAppointmentFromGoogleEvent companyId googleEvent w) in
  env w' = env w
  /\ PullStep companyId (env w) (appointments w) (appointments w').
Proof.
  cbv zeta. rewrite upsertAppointmentFromGoogleEvent_eq. cbv zeta.
  set (w1 := record _ (countQuery w)).
  destruct (g_start googleEvent) as [start|];
    [|split; [reflexivity|constructor]].
  destruct (g_end googleEvent) as [finish|];
    [|split; [reflexivity|constructor]].
  rewrite bind_eq, upsertAppointment_eq. cbv zeta.
  set (d := payloadFor _ _ _ _ _).
  destruct (resolved_world d w1) as (Ee & Ea & _).
  destruct (resolved_fields d w1) as (Fc & Fg & Fi & Ft).
  set (d' := fst (resolved d w1)) in *.
  set (w2 := snd (resolved d w1)) in *.
  change (appointments w1) with (appointments w) in *.
  change (env w1) with (env w) in *.
  assert (Same : PullStep companyId (env w) (appointments w) (appointments w2)).
  { rewrite Ea. constructor. }
  destruct (dbError (env w2) (queried w2));
    [split; [exact Ee|exact Same]|].
  destruct (find (conflicts d') (appointments w)) eqn:Ef.
  - simpl. split; [exact Ee|]. apply pull_merge; [exact Fc|].
    rewrite Fi, Ft, Fg. apply lookup_payload.
  - destruct (keyTaken d' (appointments w)); simpl;
      (split; [exact Ee|]); [exact Same|].
    rewrite Ee.
    assert (Hid : d_id d' = None).
    { rewrite Fi.
      destruct (lookup_payload companyId googleEvent start finish w)
        as [[H _]|(existing & Hone & _ & _)]; [exact H|exfalso].
      fold d in Hone.
      assert (Hf : find (conflicts d') (appointments w) = Some existing).
      { apply (find_filter _ _ _ []). unfold conflicts. rewrite Fc, Fg.
        exact Hone. }
      congruence. }
    apply pull_insert; [exact Fc|exact Hid].
Qed.

Lemma processGoogleEvent_step (companyId : string)
    (googleEvent : GoogleEvent) (w : World) :
  let w' := snd (processGoogleEvent companyId googleEvent w) in
  env w' = env w
  /\ PullStep companyId (env w) (appointments w) (appointments w').
Proof.
  cbv zeta. unfold processGoogleEvent. rewrite catch_eq.
  destruct (eqCol (g_status googleEvent) "cancelled").
  - rewrite bind_eq, getAppointmentByGoogleEventId_eq. cbv zeta.
    set (w1 := record _ (countQuery w)).
    destruct (dbError (env w) (queried w)); [split; [reflexivity|constructor]|].
    destruct (filter _ _) as [|r [|]] eqn:E;
      try (split; [reflexivity|constructor]).
    rewrite bind_eq, cancelAppointment_eq. cbv zeta.
    destruct (dbError (env w1) (queried w1));
      [split; [reflexivity|constructor]|].
    simpl. split; [reflexivity|]. eapply pull_cancel. exact E.
  - pose proof (upsertAppointmentFromGoogleEvent_step companyId googleEvent w)
      as [Ee Hs].
    destruct (upsertAppointmentFromGoogleEvent companyId googleEvent w)
      as [[[]|[m|]|] w1]; simpl in *; auto.
Qed.

(** ** Row by row *)

Section Pointwise.
Context {A : Type}.
Variable P : A -> A -> Prop.
Hypothesis P_refl : forall x, P x x.
Hypothesis P_trans : forall a b c, P a b -> P b c -> P a c.

Lemma pointwise_refl (l : list A) : Forall2 P l l.
Proof. induction l; constructor; auto. Qed.

Lemma pointwise_trans (a b c : list A) :
  Forall2 P a b -> Forall2 P b c -> Forall2 P a c.
Proof.
  intros H. revert c. induction H as [|x y s t Hxy _ IH]; intros c Hc.
  - inversion Hc. constructor.
  - inversion Hc; subst. constructor; [eapply P_trans; eauto|auto].
Qed.

Lemma pointwise_map (f : A -> A) (l : list A) :
  (forall x, In x l -> P x (f x)) -> Forall2 P l (map f l).
Proof.
  induction l as [|x t IH]; intros H; simpl; constructor.
  - apply H. now left.
  - apply IH. intros y Hy. apply H. now right.
Qed.

Lemma pointwise_updateWhere (key : A -> string) (k : string) (f : A -> A)
    (l : list A) :
  (forall x, In x l -> key x = k -> P x (f x)) ->
  Forall2 P l (updateWhere key k f l).
Proof.
  intros H. apply pointwise_map. intros x Hx.
  destruct (String.eqb_spec (key x) k); auto.
Qed.
End Pointwise.

Section RowsKept.
Variable P : Appointment -> Appointment -> Prop.
Hypothesis P_refl : forall x, P x x.
Hypothesis P_trans : forall a b c, P a b -> P b c -> P a c.

Lemma rowsKept_refl (w w' : World) :
  appointments w' = appointments w -> rowsKept P w w'.
Proof.
  intros E. exists (appointments w), []. rewrite E, app_nil_r.
  split; [reflexivity|apply pointwise_refl, P_refl].
Qed.

Lemma rowsKept_trans (a b c : World) :
  rowsKept P a b -> rowsKept P b c -> rowsKept P a c.
Proof.
  intros (k1 & a1 & E1 & F1) (k2 & a2 & E2 & F2).
  rewrite E1 in F2. apply Forall2_app_inv_l in F2.
  destruct F2 as (k2a & k2b & Fa & Fb & ->).
  exists k2a, (k2b ++ a2). split.
  - rewrite E2. symmetry. apply app_assoc.
  - eapply pointwise_trans; eauto.
Qed.

Lemma rowsKept_tolerates : Tolerates (rowsKept P) (fun _ => True).
Proof.
  constructor; intros; try (apply rowsKept_refl; reflexivity).
  eapply rowsKept_trans; eauto.
Qed.

Lemma rowsKept_writes_integrations : WritesIntegrations (rowsKept P).
Proof. intros l w. apply rowsKept_refl. reflexivity. Qed.

Lemma rowsKept_each (l : list Appointment) (w : World) :
  Forall2 P (appointments w) l -> rowsKept P w (setAppointments l w).
Proof.
  intros H. exists l, []. simpl. rewrite app_nil_r. auto.
Qed.

Lemma rowsKept_added (l : list Appointment) (w : World) :
  rowsKept P w (setAppointments (appointments w ++ l) w).
Proof.
  exists (appointments w), l. simpl.
  split; [reflexivity|apply pointwise_refl, P_refl].
Qed.

Lemma rowsEach_tolerates : Tolerates (rowsEach P) (fun _ => True).
Proof.
  constructor; unfold rowsEach; simpl; intros;
    try (apply pointwise_refl, P_refl).
  eapply pointwise_trans; eauto.
Qed.

Lemma rowsEach_writes_integrations : WritesIntegrations (rowsEach P).
Proof. intros l w. apply pointwise_refl, P_refl. Qed.
End RowsKept.

Lemma sameIdentity_refl (r : Appointment) : sameIdentity r r.
Proof. unfold sameIdentity. splits; reflexivity. Qed.

Lemma sameIdentity_trans (a b c : Appointment) :
  sameIdentity a b -> sameIdentity b c -> sameIdentity a c.
Proof. unfold sameIdentity. intuition congruence. Qed.

Lemma cancelledOrSame_refl (r : Appointment) : cancelledOrSame r r.
Proof. left. reflexivity. Qed.

Lemma cancelledOrSame_trans (a b c : Appointment) :
  cancelledOrSame a b -> cancelledOrSame b c -> cancelledOrSame a c.
Proof.
  intros [->|(t1 & ->)] [->|(t2 & ->)].
  - left. reflexivity.
  - right. exists t2. reflexivity.
  - right. exists t1. reflexivity.
  - right. exists t2. reflexivity.
Qed.

#[export] Instance sameIdentity_tolerates :
  Tolerates (rowsKept sameIdentity) (fun _ => True).
Proof.
  apply rowsKept_tolerates; [apply sameIdentity_refl|apply sameIdentity_trans].
Qed.

#[export] Instance sameIdentity_writes_integrations :
  WritesIntegrations (rowsKept sameIdentity).
Proof. apply rowsKept_writes_integrations, sameIdentity_refl. Qed.

#[export] Instance cancelledOrSame_tolerates :
  Tolerates (rowsEach cancelledOrSame) (fun _ => True).
Proof.
  apply rowsEach_tolerates;
    [apply cancelledOrSame_refl|apply cancelledOrSame_trans].
Qed.

#[export] Instance cancelledOrSame_writes_integrations :
  WritesIntegrations (rowsEach cancelledOrSame).
Proof. apply rowsEach_writes_integrations, cancelledOrSame_refl. Qed.

(** A step of the pull keeps every row there was, with its key, its
    tenant and its creation time. *)
Lemma PullStep_identity (companyId : string) (e : Env)
    (table table' : list Appointment) :
  PullStep companyId e table table' ->
  exists kept added,
    table' = kept ++ added /\ Forall2 sameIdentity table kept.
Proof.
  intros [|g existing t Hone|d Hc Hd|d n t Hc Hd].
  - exists table, []. rewrite app_nil_r.
    split; [reflexivity|apply pointwise_refl, sameIdentity_refl].
  - eexists _, []. rewrite app_nil_r. split; [reflexivity|].
    apply pointwise_updateWhere; [apply sameIdentity_refl|].
    intros x _ _. unfold sameIdentity. simpl. splits; reflexivity.
  - eexists _, []. rewrite app_nil_r. split; [reflexivity|].
    unfold mergeInto. apply pointwise_map. intros r Hr.
    destruct (conflicts d r) eqn:Ek; [|apply sameIdentity_refl].
    assert (Ec : a_company_id r = d_company_id d).
    { unfold conflicts, sameKey in Ek. apply andb_prop in Ek.
      apply String.eqb_eq. tauto. }
    unfold sameIdentity. simpl.
    destruct Hd as [[-> ->]|(existing & Hone & -> & ->)]; simpl.
    + splits; auto.
    + assert (r = existing).
      { eapply filter_single; eauto. rewrite <- Hc. exact Ek. }
      subst r. splits; auto.
  - exists table, [inserted (genId e n) t d].
    split; [reflexivity|apply pointwise_refl, sameIdentity_refl].
Qed.

Lemma processGoogleEvent_identity (companyId : string)
    (googleEvent : GoogleEvent) :
  keeps (rowsKept sameIdentity) (processGoogleEvent companyId googleEvent).
Proof.
  intros w.
  destruct (processGoogleEvent_step companyId googleEvent w) as [_ H].
  apply PullStep_identity in H. exact H.
Qed.

Ltac identity_tables :=
  apply keeps_modify; intros ?; apply rowsKept_each;
  apply pointwise_updateWhere; [apply sameIdentity_refl|];
  intros ? _ _; unfold sameIdentity; simpl; splits; reflexivity.

Lemma syncOne_identity (this : Service) (integration : Integration)
    (c : Counts) :
  keeps (rowsKept sameIdentity) (syncOne this integration c).
Proof.
  unfold syncOne, syncSingleIntegration, syncGoogleEventsToLocal.
  repeat keeps_step; try exact I;
    try apply processGoogleEvent_identity;
    try (keeps_auto; identity_tables).
Qed.

(** X8.  A synchronisation cycle never deletes a local appointment and
    never moves one to another key or tenant: every row there was before
    the cycle is there after it, in its place, with the same key, the
    same tenant and the same creation time; whatever the cycle creates
    is added after the rows there were. *)
Theorem cycle_never_deletes_appointments :
  forall (this : Service) (w : World),
    exists kept added,
      appointments (snd (syncAllIntegrations this w)) = kept ++ added
      /\ Forall2 (fun r r' =>
                    a_id r' = a_id r
                    /\ a_company_id r' = a_company_id r
                    /\ a_created_at r' = a_created_at r)
           (appointments w) kept.
Proof.
  intros this w.
  assert (K : keeps (rowsKept sameIdentity) (syncAllIntegrations this)).
  { unfold syncAllIntegrations.
    apply keeps_catch; [|intros; keeps_auto].
    apply keeps_bind; [keeps_auto|]. intros l.
    destruct l; [keeps_auto|].
    apply keeps_bind; [|intros; keeps_auto].
    apply keeps_batchLoop. intros. apply syncOne_identity. }
  exact (K w).
Qed.


(** ** Phase C on the table *)

Lemma cancelledAmong_refl (keys : list string) (r : Appointment) :
  cancelledAmong keys r r.
Proof. left. reflexivity. Qed.

Lemma cancelledAmong_trans (keys : list string) (a b c : Appointment) :
  cancelledAmong keys a b -> cancelledAmong keys b c ->
  cancelledAmong keys a c.
Proof.
  intros [->|(K1 & t1 & ->)] [->|(K2 & t2 & ->)].
  - left. reflexivity.
  - right. split; [exact K2|]. exists t2. reflexivity.
  - right. split; [exact K1|]. exists t1. reflexivity.
  - right. split; [exact K1|]. exists t2. reflexivity.
Qed.

#[export] Instance cancelledAmong_tolerates (keys : list string) :
  Tolerates (rowsEach (cancelledAmong keys)) (fun _ => True).
Proof.
  apply rowsEach_tolerates;
    [apply cancelledAmong_refl|apply cancelledAmong_trans].
Qed.

#[export] Instance cancelledAmong_writes_integrations (keys : list string) :
  WritesIntegrations (rowsEach (cancelledAmong keys)).
Proof. apply rowsEach_writes_integrations, cancelledAmong_refl. Qed.

Lemma sweepAppointment_cancels (this : Service) (integration : Integration)
    (accessToken : string) (keys : list string) (a : Appointment) :
  In (a_id a) keys ->
  keeps (rowsEach (cancelledAmong keys))
    (sweepAppointment this integration accessToken a).
Proof.
  intros Hin. keeps_auto.
  apply keeps_modify. intros w. unfold rowsEach. simpl.
  apply pointwise_updateWhere; [apply cancelledAmong_refl|].
  intros x _ Hx. right. split; [rewrite Hx; exact Hin|].
  eexists. reflexivity.
Qed.

Lemma cleanup_sameIntegrations (this : Service) (integration : Integration)
    (accessToken : string) :
  keeps sameIntegrations
    (cleanupOrphanedAppointments this integration accessToken).
Proof. keeps_auto. Qed.

(** X9.  Phase C only ever cancels.  It leaves every row of the table in
    its place, untouched or with status 'cancelled' and a new
    [updated_at] and nothing else changed, and a row it cancels has the
    key of one of the rows the sweep selected at its start; it does not
    write the table of integrations.  When [Math.random()] is not below
    one tenth the phase does nothing at all but log that it was
    skipped. *)
Theorem orphan_sweep_only_cancels :
  forall (this : Service) (integration : Integration)
         (accessToken : string) (w : World),
    let w' :=
      snd (cleanupOrphanedAppointments this integration accessToken w) in
    let selected :=
      selectSynced (i_company_id integration) (appointments w) in
    Forall2 (fun r r' =>
               r' = r
               \/ (In (a_id r) (map a_id selected)
                   /\ exists t, r' = withStatus "cancelled" t r))
      (appointments w) (appointments w')
    /\ integrations w' = integrations w
    /\ (belowOneTenth (mathRandom (env w) (drawn w)) = false ->
        w' = record (Log OrphanCleanupSkipped) (countDraw w)).
Proof.
  intros this integration accessToken w. cbv zeta.
  set (rows := selectSynced (i_company_id integration) (appointments w)).
  set (R := rowsEach (cancelledAmong (map a_id rows))).
  splits.
  - change (R w (snd (cleanupOrphanedAppointments this integration
                        accessToken w))).
    unfold cleanupOrphanedAppointments. rewrite catch_eq, bind_eq.
    unfold mathRandomDraw at 1.
    assert (E0 : R w (countDraw w)) by apply tol_draw.
    destruct (negb (belowOneTenth (mathRandom (env w) (drawn w)))).
    { eapply tol_trans; [exact E0|]. apply tol_record. exact I. }
    rewrite bind_eq, getSyncedAppointments_eq. cbv zeta.
    change (appointments (countDraw w)) with (appointments w). fold rows.
    set (w1 := record _ (countQuery (countDraw w))).
    assert (E1 : R w w1).
    { eapply tol_trans; [exact E0|].
      eapply tol_trans; [apply tol_query|]. apply tol_record. exact I. }
    destruct (dbError (env (countDraw w)) (queried (countDraw w))).
    { exact E1. }
    assert (K : keeps R
                  (catch
                     (forOf rows
                        (sweepAppointment this integration accessToken))
                     (fun error => _ <- messageOf error ;; ret tt))).
    { apply keeps_catch; [|intros; keeps_auto].
      apply keeps_forOf. intros x Hx. apply sweepAppointment_cancels.
      apply in_map, Hx. }
    specialize (K w1). rewrite catch_eq in K.
    eapply tol_trans; [exact E1|].
    destruct rows as [|r0 rest]; [apply tol_refl|exact K].
  - apply (cleanup_sameIntegrations this integration accessToken w).
  - intros Hskip. unfold cleanupOrphanedAppointments.
    rewrite catch_eq, bind_eq. unfold mathRandomDraw at 1.
    rewrite Hskip. reflexivity.
Qed.


(** ** Phase B on the table *)

Lemma length_updateWhere {A} (key : A -> string) (k : string) (f : A -> A)
    (l : list A) :
  List.length (updateWhere key k f l) = List.length l.
Proof. apply length_map. Qed.

(** X10.  A remote event that arrives cancelled never creates a row.
    When the lookup finds exactly one local row with the tenant and the
    event's id and the store accepts the statement, the rows with that
    row's key are cancelled and nothing else changes; when the lookup
    finds no row, finds several, or fails, nothing is written at all.
    In every case the handling of the event returns normally. *)
Theorem remote_cancellation_is_mirrored :
  forall (companyId : string) (googleEvent : GoogleEvent) (w : World),
    eqCol (g_status googleEvent) "cancelled" = true ->
    let run := processGoogleEvent companyId googleEvent w in
    let asked :=
      record (Query (SelectByGoogleEventId companyId (g_id googleEvent))
                (dbError (env w) (queried w))) (countQuery w) in
    fst run = Ok tt
    /\ List.length (appointments (snd run)) = List.length (appointments w)
    /\ (lookup companyId (g_id googleEvent) w = None -> snd run = asked)
    /\ (forall existing,
          lookup companyId (g_id googleEvent) w = Some existing ->
          trace (snd run)
          = Query (CancelAppointment (a_id existing))
              (dbError (env w) (S (queried w))) :: trace asked
          /\ (dbError (env w) (S (queried w)) = None ->
              appointments (snd run)
              = updateWhere a_id (a_id existing)
                  (withStatus "cancelled" (clock w)) (appointments w))
          /\ (dbError (env w) (S (queried w)) <> None ->
              appointments (snd run) = appointments w)).
Proof.
  intros companyId googleEvent w Hc. cbv zeta.
  unfold processGoogleEvent. rewrite Hc, catch_eq, bind_eq.
  rewrite getAppointmentByGoogleEventId_eq. cbv zeta.
  unfold lookup.
  set (w1 := record _ (countQuery w)).
  destruct (dbError (env w) (queried w)) as [m|] eqn:Edb.
  { simpl. splits; auto. intros existing H; discriminate. }
  destruct (filter (sameKey companyId (g_id googleEvent)) (appointments w))
    as [|r [|r' rest]] eqn:Ef.
  - simpl. splits; auto. intros existing H; discriminate.
  - rewrite bind_eq, cancelAppointment_eq. cbv zeta.
    change (dbError (env w1) (queried w1))
      with (dbError (env w) (S (queried w))).
    destruct (dbError (env w) (S (queried w))) as [m|] eqn:Ec; simpl.
    + splits; auto; try discriminate.
      intros existing E; injection E as <-. splits; auto. discriminate.
    + splits; auto; try discriminate.
      * apply length_updateWhere.
      * intros existing E; injection E as <-. splits; auto.
        intros H; contradiction H; reflexivity.
  - simpl. splits; auto. intros existing H; discriminate.
Qed.

Lemma find_none_filter {A} (p : A -> bool) (l : list A) :
  filter p l = [] -> find p l = None.
Proof.
  induction l as [|x t IH]; simpl; [reflexivity|].
  destruct (p x); [discriminate|exact IH].
Qed.

(** The pull of an active event that has no local row yet, with the
    lookup and the upsert accepted by the store. *)
Lemma pull_new (companyId : string) (googleEvent : GoogleEvent) (w : World)
    (start finish : EventTime) :
  filter (sameKey companyId (g_id googleEvent)) (appointments w) = [] ->
  g_start googleEvent = Some start ->
  g_end googleEvent = Some finish ->
  dbError (env w) (queried w) = None ->
  dbError (env w) (S (S (queried w))) = None ->
  let owner :=
    match adminUser companyId (countQuery w) with
    | Some o => o
    | None => systemUser
    end in
  let row := pulledRow companyId googleEvent start finish owner
               (genId (env w) (S (S (queried w)))) (clock w) in
  exists w',
    upsertAppointmentFromGoogleEvent companyId googleEvent w = (Ok tt, w')
    /\ appointments w' = appointments w ++ [row]
    /\ env w' = env w
    /\ queried w' = S (S (S (queried w)))
    /\ clock w' = clock w.
Proof.
  intros Hnone Hs He Hdb0 Hdb2. cbv zeta.
  rewrite upsertAppointmentFromGoogleEvent_eq. cbv zeta.
  rewrite Hs, He. unfold lookup. rewrite Hdb0, Hnone.
  set (w1 := record _ (countQuery w)).
  rewrite bind_eq, upsertAppointment_eq. cbv zeta.
  unfold resolved. cbn [payloadFor d_created_by option_map Js.truthy negb].
  cbn [fst snd].
  set (d' := withCreatedBy _ _).
  set (w2 := record _ (countQuery w1)).
  change (env w2) with (env w). change (queried w2) with (S (S (queried w))).
  rewrite Hdb2.
  change (appointments w1) with (appointments w).
  assert (Hf : find (conflicts d') (appointments w) = None).
  { apply find_none_filter. exact Hnone. }
  rewrite Hf.
  assert (Hk : keyTaken d' (appointments w) = false) by reflexivity.
  rewrite Hk. eexists. split; [reflexivity|].
  cbn [appointments setAppointments record countQuery env queried clock].
  splits; reflexivity.
Qed.

(** The pull of an active event that has exactly one local row, created
    by someone, with the lookup and the upsert accepted by the store. *)
Lemma pull_existing (companyId : string) (googleEvent : GoogleEvent)
    (w : World) (existing : Appointment) (start finish : EventTime) :
  filter (sameKey companyId (g_id googleEvent)) (appointments w)
  = [existing] ->
  g_start googleEvent = Some start ->
  g_end googleEvent = Some finish ->
  a_created_by existing <> EmptyString ->
  dbError (env w) (queried w) = None ->
  dbError (env w) (S (queried w)) = None ->
  let d := payloadFor companyId googleEvent start finish (Some existing) in
  exists w',
    upsertAppointmentFromGoogleEvent companyId googleEvent w = (Ok tt, w')
    /\ appointments w'
       = map (fun r =>
                if sameKey companyId (g_id googleEvent) r
                then merge d existing else r) (appointments w)
    /\ env w' = env w
    /\ queried w' = S (S (queried w))
    /\ clock w' = clock w.
Proof.
  intros Hone Hs He Hcb Hdb0 Hdb1. cbv zeta.
  rewrite upsertAppointmentFromGoogleEvent_eq. cbv zeta.
  rewrite Hs, He. unfold lookup. rewrite Hdb0, Hone.
  set (w1 := record _ (countQuery w)).
  set (d := payloadFor _ _ _ _ _).
  rewrite bind_eq, upsertAppointment_eq. cbv zeta.
  assert (Hr : resolved d w1 = (d, w1)).
  { unfold resolved, d. cbn [payloadFor d_created_by option_map].
    rewrite (truthy_nonempty _ Hcb). reflexivity. }
  rewrite Hr. cbn [fst snd].
  change (env w1) with (env w). change (queried w1) with (S (queried w)).
  rewrite Hdb1.
  change (appointments w1) with (appointments w).
  assert (Hf : find (conflicts d) (appointments w) = Some existing).
  { apply (find_filter _ _ _ []). exact Hone. }
  rewrite Hf. eexists. split; [reflexivity|].
  cbn [appointments setAppointments record countQuery env queried clock].
  splits; try reflexivity.
  unfold mergeInto. apply map_ext_in. intros r Hr'.
  change (conflicts d r) with (sameKey companyId (g_id googleEvent) r).
  destruct (sameKey companyId (g_id googleEvent) r) eqn:Ek; [|reflexivity].
  rewrite (filter_single _ _ _ _ Hone Hr' Ek). reflexivity.
Qed.

Lemma lookup_single (companyId googleEventId : string) (w : World) :
  dbError (env w) (queried w) = None ->
  lookup companyId googleEventId w
  = single (filter (sameKey companyId googleEventId) (appointments w)).
Proof. intros H. unfold lookup. rewrite H. reflexivity. Qed.

Lemma resolved_accepted (d : AppointmentData) (w : World) :
  (forall n, dbError (env w) n = None) ->
  fst (resolved d w) = resolvedPayload (ownerOf (d_company_id d) (users w)) d.
Proof.
  intros H. unfold resolved, resolvedPayload.
  destruct (negb (Js.truthy (d_created_by d))); [|reflexivity].
  simpl. unfold adminUser, ownerOf. rewrite H.
  destruct (filter _ _) as [|u t]; [reflexivity|].
  destruct (String.eqb (u_id u) ""); reflexivity.
Qed.

Lemma resolved_store (d : AppointmentData) (w : World) :
  env (snd (resolved d w)) = env w
  /\ users (snd (resolved d w)) = users w
  /\ clock (snd (resolved d w)) = clock w
  /\ appointments (snd (resolved d w)) = appointments w.
Proof.
  unfold resolved. destruct (negb _); simpl; splits; reflexivity.
Qed.

(** With a store that accepts every statement, the handling of a remote
    event makes of the table what [pulled] says. *)
Lemma processGoogleEvent_pulled (companyId : string)
    (googleEvent : GoogleEvent) (w : World) :
  (forall n, dbError (env w) n = None) ->
  let w' := snd (processGoogleEvent companyId googleEvent w) in
  env w' = env w
  /\ users w' = users w
  /\ clock w' = clock w
  /\ exists fresh,
       appointments w'
       = pulled companyId googleEvent (ownerOf companyId (users w)) fresh
           (clock w) (appointments w).
Proof.
  intros Hdb. cbv zeta. unfold processGoogleEvent, pulled.
  rewrite catch_eq.
  destruct (eqCol (g_status googleEvent) "cancelled").
  - rewrite bind_eq, getAppointmentByGoogleEventId_eq. cbv zeta.
    rewrite Hdb. set (w1 := record _ (countQuery w)).
    destruct (filter _ _) as [|r [|]] eqn:Ef; simpl;
      try (splits; try reflexivity; exists EmptyString; reflexivity).
    rewrite bind_eq, cancelAppointment_eq. cbv zeta.
    change (env w1) with (env w). rewrite Hdb. simpl.
    splits; try reflexivity. exists EmptyString. reflexivity.
  - rewrite upsertAppointmentFromGoogleEvent_eq. cbv zeta.
    set (w1 := record _ (countQuery w)).
    destruct (g_start googleEvent) as [start|];
      [|simpl; splits; try reflexivity; exists EmptyString; reflexivity].
    destruct (g_end googleEvent) as [finish|];
      [|simpl; splits; try reflexivity; exists EmptyString; reflexivity].
    rewrite (lookup_single _ _ _ (Hdb _)).
    set (d := payloadFor _ _ _ _ _).
    rewrite bind_eq, upsertAppointment_eq. cbv zeta.
    assert (Hdb1 : forall n, dbError (env w1) n = None) by exact Hdb.
    rewrite (resolved_accepted d w1 Hdb1).
    change (d_company_id d) with companyId.
    change (users w1) with (users w).
    change (appointments w1) with (appointments w).
    set (d' := resolvedPayload _ d).
    destruct (resolved_store d w1) as (Ee & Eu & Ec & Ea).
    set (w2 := snd (resolved d w1)) in *.
    change (appointments w1) with (appointments w) in Ea.
    change (env w1) with (env w) in Ee.
    change (users w1) with (users w) in Eu.
    change (clock w1) with (clock w) in Ec.
    rewrite Ee, Hdb.
    destruct (find (conflicts d') (appointments w)).
    + simpl. splits; auto. exists EmptyString. reflexivity.
    + destruct (keyTaken d' (appointments w)); simpl.
      * splits; auto. exists EmptyString. exact Ea.
      * splits; auto. rewrite Ec. eexists. reflexivity.
Qed.


(** ** Pulling the same event again *)

Lemma ownerOf_nonempty (companyId : string) (people : list User) :
  ownerOf companyId people <> EmptyString.
Proof.
  unfold ownerOf. destruct (filter _ _) as [|u t]; [discriminate|].
  destruct (String.eqb_spec (u_id u) ""); [discriminate|assumption].
Qed.

Lemma put_again {A} (a b : option A) : put a (put a b) = put a b.
Proof. destruct a; reflexivity. Qed.

Lemma put_same {A} (a : option A) : put a a = a.
Proof. destruct a; reflexivity. Qed.

Lemma filter_map_same {A} (p : A -> bool) (f : A -> A) (l : list A) :
  (forall x, In x l -> p (f x) = p x) ->
  filter p (map f l) = map f (filter p l).
Proof.
  induction l as [|x t IH]; intros H; [reflexivity|]. simpl.
  rewrite (H x (or_introl eq_refl)).
  rewrite IH by (intros y Hy; apply H; now right).
  destruct (p x); reflexivity.
Qed.

Lemma single_map {A} (f : A -> A) (l : list A) :
  single (map f l) = option_map f (single l).
Proof. destruct l as [|x [|y t]]; reflexivity. Qed.

Lemma single_In {A} (l : list A) (x : A) : single l = Some x -> l = [x].
Proof. destruct l as [|y [|z t]]; simpl; congruence. Qed.

Lemma find_some_filter {A} (p : A -> bool) (l : list A) :
  filter p l <> [] -> exists x, find p l = Some x.
Proof.
  induction l as [|y t IH]; simpl; [intros H; contradiction H; reflexivity|].
  destruct (p y); [eexists; reflexivity|exact IH].
Qed.

Lemma find_is_filter {A} (p : A -> bool) (l : list A) :
  find p l = None -> filter p l = [].
Proof.
  induction l as [|y t IH]; simpl; [reflexivity|].
  destruct (p y); [discriminate|exact IH].
Qed.

Lemma filter_nil_false {A} (p : A -> bool) (l : list A) (x : A) :
  filter p l = [] -> In x l -> p x = false.
Proof.
  intros H Hin. destruct (p x) eqn:E; [|reflexivity].
  assert (Hf : In x (filter p l)) by (apply filter_In; auto).
  rewrite H in Hf. destruct Hf.
Qed.

(** The event's part of a payload does not depend on what the lookup
    found. *)
Lemma payload_key (companyId : string) (googleEvent : GoogleEvent)
    (start finish : EventTime) (found : option Appointment) (owner : string)
    (r : Appointment) :
  conflicts
    (resolvedPayload owner
       (payloadFor companyId googleEvent start finish found)) r
  = sameKey companyId (g_id googleEvent) r.
Proof.
  unfold resolvedPayload. destruct (negb _); reflexivity.
Qed.

Lemma merge_key (companyId : string) (googleEvent : GoogleEvent)
    (start finish : EventTime) (found : option Appointment) (owner : string)
    (r : Appointment) :
  sameKey companyId (g_id googleEvent)
    (merge (resolvedPayload owner
              (payloadFor companyId googleEvent start finish found)) r)
  = true.
Proof.
  unfold resolvedPayload, sameKey. destruct (negb _); simpl;
    rewrite !String.eqb_refl; reflexivity.
Qed.

Lemma mergeInto_key (companyId : string) (googleEvent : GoogleEvent)
    (start finish : EventTime) (found : option Appointment) (owner : string)
    (table : list Appointment) :
  let d := resolvedPayload owner
             (payloadFor companyId googleEvent start finish found) in
  filter (sameKey companyId (g_id googleEvent)) (mergeInto d table)
  = map (merge d) (filter (sameKey companyId (g_id googleEvent)) table).
Proof.
  cbv zeta. unfold mergeInto.
  induction table as [|x t IH]; [reflexivity|]. simpl.
  rewrite payload_key.
  destruct (sameKey companyId (g_id googleEvent) x) eqn:E.
  - rewrite merge_key. simpl. rewrite IH. reflexivity.
  - rewrite E. exact IH.
Qed.

Lemma eqb_nonempty (s : string) : s <> EmptyString -> String.eqb s "" = false.
Proof. intros H. apply String.eqb_neq. exact H. Qed.

Ltac same_row :=
  unfold merge, inserted; cbn;
  f_equal; first [reflexivity | apply put_again | apply put_same].

(** Merging the payload of an event a second time changes nothing. *)
Lemma merge_found_again (companyId : string) (googleEvent : GoogleEvent)
    (start finish : EventTime) (owner : string) (r : Appointment) :
  owner <> EmptyString ->
  let d := resolvedPayload owner
             (payloadFor companyId googleEvent start finish (Some r)) in
  let d2 := resolvedPayload owner
              (payloadFor companyId googleEvent start finish
                 (Some (merge d r))) in
  merge d2 (merge d r) = merge d r.
Proof.
  intros Ho. cbv zeta. unfold resolvedPayload.
  cbn [payloadFor d_created_by option_map Js.truthy negb].
  destruct (String.eqb_spec (a_created_by r) "") as [E|E]; cbn.
  - rewrite (eqb_nonempty _ Ho). cbn. same_row.
  - rewrite (eqb_nonempty _ E). cbn. same_row.
Qed.

Lemma merge_unfound_again (companyId : string) (googleEvent : GoogleEvent)
    (start finish : EventTime) (owner : string) (x : Appointment) :
  let d := resolvedPayload owner
             (payloadFor companyId googleEvent start finish None) in
  merge d (merge d x) = merge d x.
Proof. cbv zeta. unfold resolvedPayload. cbn. same_row. Qed.

Lemma merge_inserted (companyId : string) (googleEvent : GoogleEvent)
    (start finish : EventTime) (owner fresh : string) (t : Z) :
  owner <> EmptyString ->
  let d := resolvedPayload owner
             (payloadFor companyId googleEvent start finish None) in
  let row := inserted fresh t d in
  let d2 := resolvedPayload owner
              (payloadFor companyId googleEvent start finish (Some row)) in
  merge d2 row = row.
Proof.
  intros Ho. cbv zeta. unfold resolvedPayload. cbn.
  rewrite (eqb_nonempty _ Ho). cbn. same_row.
Qed.

Lemma conflicts_filter (companyId : string) (googleEvent : GoogleEvent)
    (start finish : EventTime) (found : option Appointment) (owner : string)
    (l : list Appointment) :
  filter (conflicts
            (resolvedPayload owner
               (payloadFor companyId googleEvent start finish found))) l
  = filter (sameKey companyId (g_id googleEvent)) l.
Proof. apply filter_ext. intros r. apply payload_key. Qed.

Lemma sameKey_inserted (companyId : string) (googleEvent : GoogleEvent)
    (start finish : EventTime) (found : option Appointment)
    (owner fresh : string) (t : Z) :
  sameKey companyId (g_id googleEvent)
    (inserted fresh t
       (resolvedPayload owner
          (payloadFor companyId googleEvent start finish found)))
  = true.
Proof.
  unfold resolvedPayload, sameKey. destruct (negb _); simpl;
    rewrite !String.eqb_refl; reflexivity.
Qed.

Lemma pulled_again (companyId : string) (googleEvent : GoogleEvent)
    (owner fresh1 fresh2 : string) (t1 t2 : Z) (table : list Appointment) :
  owner <> EmptyString ->
  pulled companyId googleEvent owner fresh2 t2
    (pulled companyId googleEvent owner fresh1 t1 table)
  = pulled companyId googleEvent owner fresh1
      (if eqCol (g_status googleEvent) "cancelled" then t2 else t1) table.
Proof.
  intros Ho.
  set (key := sameKey companyId (g_id googleEvent)).
  set (F := filter key table).
  destruct (eqCol (g_status googleEvent) "cancelled") eqn:Ec.
  - (* a cancelled event *)
    assert (E1 : forall f t,
               pulled companyId googleEvent owner f t table
               = match single F with
                 | Some existing =>
                     updateWhere a_id (a_id existing)
                       (withStatus "cancelled" t) table
                 | None => table
                 end).
    { intros f t. unfold pulled. rewrite Ec. reflexivity. }
    rewrite !E1. destruct (single F) as [r|] eqn:Es.
    + unfold pulled. rewrite Ec. fold key.
      set (g := fun x : Appointment =>
                  if String.eqb (a_id x) (a_id r)
                  then withStatus "cancelled" t1 x else x).
      change (updateWhere a_id (a_id r) (withStatus "cancelled" t1) table)
        with (map g table).
      rewrite filter_map_same.
      2:{ intros x _. unfold g.
          destruct (String.eqb (a_id x) (a_id r)); reflexivity. }
      fold F. rewrite single_map, Es. simpl.
      assert (Eg : a_id (g r) = a_id r).
      { unfold g. rewrite String.eqb_refl. reflexivity. }
      rewrite Eg. unfold updateWhere.
      rewrite map_map. apply map_ext. intros x. unfold g.
      destruct (String.eqb (a_id x) (a_id r)) eqn:E; simpl; rewrite E;
        reflexivity.
    + unfold pulled. rewrite Ec. fold key. fold F. rewrite Es. reflexivity.
  - (* an active event *)
    unfold pulled. rewrite Ec. fold key. fold F.
    destruct (g_start googleEvent) as [start|] eqn:Hs.
    2:{ fold F. reflexivity. }
    destruct (g_end googleEvent) as [finish|] eqn:He.
    2:{ fold F. reflexivity. }
    set (d := resolvedPayload owner
                (payloadFor companyId googleEvent start finish (single F))).
    destruct (find (conflicts d) table) as [x0|] eqn:Ef.
    + (* the rows with the key are merged *)
      assert (HF : F <> []).
      { intros HF. unfold F, key in HF.
        rewrite <- (conflicts_filter companyId googleEvent start finish
                      (single F) owner) in HF.
        apply find_none_filter in HF. fold d in HF. congruence. }
      pose proof (mergeInto_key companyId googleEvent start finish
                    (single F) owner table) as Ek.
      cbv zeta in Ek. fold d key F in Ek. rewrite Ek, single_map.
      set (d2 := resolvedPayload owner
                   (payloadFor companyId googleEvent start finish
                      (option_map (merge d) (single F)))).
      assert (Hf2 : exists y, find (conflicts d2) (mergeInto d table)
                              = Some y).
      { apply find_some_filter. unfold d2. rewrite conflicts_filter.
        fold key. rewrite Ek. destruct F; [contradiction HF; reflexivity|].
        discriminate. }
      destruct Hf2 as (y & ->).
      assert (Kd : forall z, conflicts d z = key z)
        by (intros z; apply payload_key).
      assert (Kd2 : forall z, conflicts d2 z = key z)
        by (intros z; apply payload_key).
      assert (Km : forall z, key (merge d z) = true)
        by (intros z; apply merge_key).
      unfold mergeInto. rewrite map_map. apply map_ext_in. intros x Hx.
      rewrite Kd. destruct (key x) eqn:Ex.
      * rewrite Kd2, Km. unfold d2, d.
        destruct (single F) as [r|] eqn:Es.
        -- apply single_In in Es.
           assert (x = r) by (eapply filter_single; eauto). subst x.
           apply merge_found_again, Ho.
        -- apply merge_unfound_again.
      * rewrite Kd2, Ex. reflexivity.
    + (* a row is added *)
      assert (HF : F = []).
      { unfold F, key.
        rewrite <- (conflicts_filter companyId googleEvent start finish
                      (single F) owner). fold d.
        apply find_is_filter, Ef. }
      assert (Es : single F = None) by (rewrite HF; reflexivity).
      assert (Hk : keyTaken d table = false).
      { unfold d. rewrite Es. unfold resolvedPayload. reflexivity. }
      rewrite Hk.
      set (row := inserted fresh1 t1 d).
      assert (Hrow : key row = true).
      { unfold row, d, key. apply sameKey_inserted. }
      assert (EF : filter key (table ++ [row]) = [row]).
      { rewrite filter_app. fold F. rewrite HF. simpl. rewrite Hrow.
        reflexivity. }
      rewrite EF. simpl (single [row]).
      set (d2 := resolvedPayload owner
                   (payloadFor companyId googleEvent start finish
                      (Some row))).
      assert (Hf2 : exists y, find (conflicts d2) (table ++ [row]) = Some y).
      { apply find_some_filter. unfold d2. rewrite conflicts_filter.
        fold key. rewrite EF. discriminate. }
      destruct Hf2 as (y & ->).
      assert (Kd2 : forall z, conflicts d2 z = key z)
        by (intros z; apply payload_key).
      unfold mergeInto. rewrite map_app. simpl.
      rewrite Kd2, Hrow.
      assert (Hm : merge d2 row = row).
      { unfold d2, row, d. rewrite Es. apply merge_inserted, Ho. }
      rewrite Hm. f_equal.
      rewrite <- (map_id table) at 2. apply map_ext_in. intros x Hx.
      rewrite Kd2. rewrite (filter_nil_false key table x HF Hx). reflexivity.
Qed.

(** X11.  The first pull of an event creates one row.  When no local row
    carries the tenant and the id of an active remote event, and the
    store accepts the lookup and the upsert, the handling of the event
    adds exactly one row at the end of the table and changes no other:
    the row carries the event's fields, status 'scheduled', a generated
    key, the current time as creation time, and as creator the first
    owner or administrator of the tenant, or the all-zero system user
    when the tenant has none or the query for one fails.  A lookup of
    the event's id then finds that row and no other. *)
Theorem first_pull_creates_one_row :
  forall (companyId : string) (googleEvent : GoogleEvent) (w : World)
         (start finish : EventTime),
    eqCol (g_status googleEvent) "cancelled" = false ->
    filter (sameKey companyId (g_id googleEvent)) (appointments w) = [] ->
    g_start googleEvent = Some start ->
    g_end googleEvent = Some finish ->
    dbError (env w) (queried w) = None ->
    dbError (env w) (S (S (queried w))) = None ->
    let owner :=
      match dbError (env w) (S (queried w)) with
      | Some _ => systemUser
      | None => ownerOf companyId (users w)
      end in
    let row := pulledRow companyId googleEvent start finish owner
                 (genId (env w) (S (S (queried w)))) (clock w) in
    let w' := snd (processGoogleEvent companyId googleEvent w) in
    fst (processGoogleEvent companyId googleEvent w) = Ok tt
    /\ appointments w' = appointments w ++ [row]
    /\ filter (sameKey companyId (g_id googleEvent)) (appointments w') = [row]
    /\ owner <> EmptyString.
Proof.
  intros companyId googleEvent w start finish Hc Hnone Hs He Hdb0 Hdb2.
  cbv zeta.
  destruct (pull_new companyId googleEvent w start finish Hnone Hs He Hdb0
              Hdb2) as (w' & E & Ea & _).
  assert (Eo : match adminUser companyId (countQuery w) with
               | Some o => o
               | None => systemUser
               end
               = match dbError (env w) (S (queried w)) with
                 | Some _ => systemUser
                 | None => ownerOf companyId (users w)
                 end).
  { unfold adminUser, ownerOf. simpl.
    destruct (dbError (env w) (S (queried w))); [reflexivity|].
    destruct (filter (isAdminOf companyId) (users w)) as [|u t];
      [reflexivity|].
    destruct (String.eqb (u_id u) ""); reflexivity. }
  rewrite Eo in Ea.
  unfold processGoogleEvent. rewrite Hc, catch_eq, E. simpl.
  splits; auto.
  - rewrite Ea, filter_app, Hnone. simpl.
    unfold sameKey at 1. simpl. rewrite !String.eqb_refl. reflexivity.
  - destruct (dbError (env w) (S (queried w))); [discriminate|].
    apply ownerOf_nonempty.
Qed.

Lemma Forall2_maps {A B} (P : B -> B -> Prop) (f g : A -> B) (l : list A) :
  (forall x, P (f x) (g x)) -> Forall2 P (map f l) (map g l).
Proof. intros H. induction l; simpl; constructor; auto. Qed.

Lemma Forall2_maps_id {A} (P : A -> A -> Prop) (l : list A) :
  (forall x, P x x) -> Forall2 P l l.
Proof. intros H. induction l; constructor; auto. Qed.

(** X12.  Pulling the same event again adds nothing.  Take the table
    of appointments as a first pull of a remote event left it, and pull
    the same event again at any time, the administrators of the tenant
    being the same and the store accepting every statement.  If the
    event is not cancelled the table is left exactly as it was: no
    second row is created and no column changes.  If the event is
    cancelled, no row is added or removed and the only thing that may
    change is the [updated_at] of the row the first pull cancelled,
    which is written again; at the same instant nothing changes at
    all. *)
Theorem pull_again_adds_nothing :
  forall (companyId : string) (googleEvent : GoogleEvent)
         (w again : World),
    (forall n, dbError (env w) n = None) ->
    (forall n, dbError (env again) n = None) ->
    appointments again
    = appointments (snd (processGoogleEvent companyId googleEvent w)) ->
    users again = users w ->
    let twice :=
      appointments (snd (processGoogleEvent companyId googleEvent again)) in
    (eqCol (g_status googleEvent) "cancelled" = false ->
     twice = appointments again)
    /\ Forall2 (restamped (clock again)) (appointments again) twice
    /\ (clock again = clock w -> twice = appointments again).
Proof.
  intros companyId googleEvent w again Hdb Hdb2 Ea Eusers. cbv zeta.
  destruct (processGoogleEvent_pulled companyId googleEvent w Hdb)
    as (_ & _ & _ & fresh1 & E1).
  destruct (processGoogleEvent_pulled companyId googleEvent again Hdb2)
    as (_ & _ & _ & fresh2 & E2).
  rewrite Ea, Eusers in E2. rewrite E1 in E2.
  rewrite pulled_again in E2 by apply ownerOf_nonempty.
  rewrite Ea, E1, E2.
  set (owner := ownerOf companyId (users w)).
  destruct (eqCol (g_status googleEvent) "cancelled") eqn:Ec.
  - split; [discriminate|]. split.
    + unfold pulled. rewrite Ec.
      destruct (single _) as [r|].
      * unfold updateWhere. apply Forall2_maps. intros x.
        destruct (String.eqb (a_id x) (a_id r)); [|left; reflexivity].
        right. split; reflexivity.
      * apply Forall2_maps_id. intros x. left. reflexivity.
    + intros H. rewrite H. reflexivity.
  - split; [reflexivity|]. split; [|reflexivity].
    apply Forall2_maps_id. intros x. left. reflexivity.
Qed.


(** ** Tenants do not touch each other's rows *)

Lemma foreign_spec (companyId : string) (r : Appointment) :
  foreign companyId r = true <-> a_company_id r <> companyId.
Proof.
  unfold foreign. destruct (String.eqb_spec (a_company_id r) companyId);
    simpl; split; intros; congruence.
Qed.

Lemma foreign_not (companyId : string) (r : Appointment) :
  foreign companyId r = false <-> a_company_id r = companyId.
Proof.
  unfold foreign. destruct (String.eqb_spec (a_company_id r) companyId);
    simpl; split; intros; congruence.
Qed.

Lemma filter_map_fixed {A} (p : A -> bool) (g : A -> A) (l : list A) :
  (forall x, In x l -> p (g x) = p x) ->
  (forall x, In x l -> p x = true -> g x = x) ->
  filter p (map g l) = filter p l.
Proof.
  induction l as [|x t IH]; intros H1 H2; [reflexivity|]. simpl.
  rewrite (H1 x (or_introl eq_refl)).
  rewrite IH;
    [|intros y Hy; apply H1; now right
     |intros y Hy Hp; apply H2; [now right|exact Hp]].
  destruct (p x) eqn:E; [|reflexivity].
  rewrite (H2 x (or_introl eq_refl) E). reflexivity.
Qed.

#[export] Instance staysApart_tolerates (companyId : string) (w0 : World) :
  Tolerates (staysApart companyId w0) (fun _ => True).
Proof. constructor; unfold staysApart; auto. Qed.

#[export] Instance staysApart_writes_integrations (companyId : string)
    (w0 : World) :
  WritesIntegrations (staysApart companyId w0).
Proof. intros l w H. exact H. Qed.

Section Apart.
Variable companyId : string.
Variable w0 : World.
Hypothesis separate : keysApart companyId w0.

(** A row of another tenant in the current table has no key the
    tenant may use. *)
Lemma foreign_key (w : World) (x : Appointment) :
  apart companyId w0 w ->
  In x (appointments w) ->
  a_company_id x <> companyId ->
  ~ tenantKey companyId w0 (a_id x).
Proof.
  intros (_ & Eo & _) Hin Hne.
  assert (H : In x (others companyId w)).
  { apply filter_In. split; [exact Hin|]. apply foreign_spec, Hne. }
  rewrite Eo in H. apply filter_In in H. apply separate; tauto.
Qed.

Lemma apart_map (g : Appointment -> Appointment) (w : World) :
  apart companyId w0 w ->
  (forall x, In x (appointments w) ->
             a_company_id (g x) = a_company_id x) ->
  (forall x, In x (appointments w) -> a_company_id x <> companyId ->
             g x = x) ->
  (forall x, In x (appointments w) -> a_company_id x = companyId ->
             tenantKey companyId w0 (a_id (g x))) ->
  apart companyId w0 (setAppointments (map g (appointments w)) w).
Proof.
  intros HI Hc Hf Ht. destruct HI as (Ee & Eo & Hk).
  split; [exact Ee|]. split.
  - rewrite <- Eo. unfold others. simpl. apply filter_map_fixed.
    + intros x Hx. unfold foreign. rewrite (Hc x Hx). reflexivity.
    + intros x Hx Hp. apply Hf; [exact Hx|]. apply foreign_spec, Hp.
  - simpl. intros r Hr Hrc. apply in_map_iff in Hr.
    destruct Hr as (x & <- & Hx). apply Ht; [exact Hx|].
    rewrite <- (Hc x Hx). exact Hrc.
Qed.

(** An update by key, for a key the tenant may use, of columns other
    than the key and the tenant. *)
Lemma apart_updateWhere (k : string) (f : Appointment -> Appointment)
    (w : World) :
  tenantKey companyId w0 k ->
  (forall x, a_id (f x) = a_id x /\ a_company_id (f x) = a_company_id x) ->
  staysApart companyId w0 w
    (setAppointments (updateWhere a_id k f (appointments w)) w).
Proof.
  intros Hk Hf HI. apply apart_map; [exact HI| | |].
  - intros x _. destruct (String.eqb (a_id x) k); [apply Hf|reflexivity].
  - intros x Hx Hne. destruct (String.eqb_spec (a_id x) k) as [E|E];
      [|reflexivity].
    exfalso. apply (foreign_key w x HI Hx Hne). rewrite E. exact Hk.
  - intros x Hx Hc. destruct HI as (_ & _ & Hkeys).
    destruct (String.eqb (a_id x) k).
    + rewrite (proj1 (Hf x)). apply Hkeys; assumption.
    + apply Hkeys; assumption.
Qed.

Lemma apart_step (w : World) (table' : list Appointment) :
  apart companyId w0 w ->
  PullStep companyId (env w) (appointments w) table' ->
  apart companyId w0 (setAppointments table' w).
Proof.
  intros HI Hs. pose proof HI as (Ee & Eo & Hkeys).
  destruct Hs as [|g existing t Hone|d Hc Hd|d n t Hc Hd].
  - split; [exact Ee|]. split; [exact Eo|exact Hkeys].
  - assert (Hin : In existing (appointments w)
                  /\ a_company_id existing = companyId).
    { assert (H : In existing (filter (sameKey companyId g)
                                 (appointments w)))
        by (rewrite Hone; now left).
      apply filter_In in H. destruct H as [H1 H2]. split; [exact H1|].
      unfold sameKey in H2. apply andb_prop in H2.
      apply String.eqb_eq. tauto. }
    apply apart_updateWhere; [|intros x; split; reflexivity|exact HI].
    apply Hkeys; tauto.
  - apply apart_map; [exact HI| | |].
    + intros x _. destruct (conflicts d x) eqn:Ek; [|reflexivity].
      simpl. unfold conflicts, sameKey in Ek. apply andb_prop in Ek.
      symmetry. apply String.eqb_eq. tauto.
    + intros x _ Hne. destruct (conflicts d x) eqn:Ek; [|reflexivity].
      exfalso. apply Hne. unfold conflicts, sameKey in Ek.
      apply andb_prop in Ek. rewrite <- Hc. apply String.eqb_eq. tauto.
    + intros x Hx Hxc. destruct (conflicts d x) eqn:Ek;
        [|apply Hkeys; assumption].
      simpl. destruct Hd as [[-> _]|(existing & Hone & -> & _)]; simpl.
      * apply Hkeys; assumption.
      * assert (x = existing).
        { eapply filter_single; eauto. rewrite <- Hc. exact Ek. }
        subst x. apply Hkeys; assumption.
  - split; [exact Ee|]. split.
    + rewrite <- Eo. unfold others. simpl. rewrite filter_app. simpl.
      assert (E : foreign companyId (inserted (genId (env w) n) t d)
                  = false).
      { apply foreign_not. exact Hc. }
      rewrite E. apply app_nil_r.
    + simpl. intros r Hr Hrc. apply in_app_iff in Hr.
      destruct Hr as [Hr|[<-|[]]]; [apply Hkeys; assumption|].
      simpl. rewrite Hd. simpl. right. exists n. rewrite Ee. reflexivity.
Qed.
End Apart.

Lemma apart_ext (companyId : string) (w0 w1 w2 : World) :
  env w2 = env w1 ->
  appointments w2 = appointments w1 ->
  apart companyId w0 w1 -> apart companyId w0 w2.
Proof.
  intros Ee Ea (E & Eo & Hk). unfold apart, others. rewrite Ee, Ea.
  splits; auto.
Qed.

Section Isolation.
Variable this : Service.
Variable integration : Integration.
Variable w0 : World.
Hypothesis separate : keysApart (i_company_id integration) w0.

Let R := staysApart (i_company_id integration) w0.

Lemma processGoogleEvent_apart (googleEvent : GoogleEvent) :
  keeps R (processGoogleEvent (i_company_id integration) googleEvent).
Proof.
  intros w HI.
  destruct (processGoogleEvent_step (i_company_id integration)
              googleEvent w) as [Ee Hs].
  pose proof (apart_step _ _ separate _ _ HI Hs) as H.
  revert H. apply apart_ext; [exact Ee|reflexivity].
Qed.

Lemma phaseB_apart (accessToken : string) :
  keeps R (syncGoogleEventsToLocal this integration accessToken).
Proof.
  unfold syncGoogleEventsToLocal, buildSyncParams,
    fetchGoogleCalendarEvents, updateIntegrationSyncData.
  repeat keeps_step; try exact I; apply processGoogleEvent_apart.
Qed.

Lemma pushAppointment_apart (accessToken : string) (a : Appointment) :
  tenantKey (i_company_id integration) w0 (a_id a) ->
  keeps R (pushAppointment this integration accessToken a).
Proof.
  intros Hk. keeps_auto.
  apply keeps_modify. intros w.
  apply apart_updateWhere; [exact separate|exact Hk|].
  intros x. split; reflexivity.
Qed.

Lemma sweepAppointment_apart (accessToken : string) (a : Appointment) :
  tenantKey (i_company_id integration) w0 (a_id a) ->
  keeps R (sweepAppointment this integration accessToken a).
Proof.
  intros Hk. keeps_auto.
  apply keeps_modify. intros w.
  apply apart_updateWhere; [exact separate|exact Hk|].
  intros x. split; reflexivity.
Qed.

Lemma phaseA_apart (accessToken : string) :
  keeps R (syncLocalAppointmentsToGoogle this integration accessToken).
Proof.
  intros w HI. unfold syncLocalAppointmentsToGoogle.
  rewrite catch_eq, bind_eq, getUnsyncedLocalAppointments_eq. cbv zeta.
  set (w1 := record _ (countQuery w)).
  assert (H1 : apart (i_company_id integration) w0 w1).
  { revert HI. apply apart_ext; reflexivity. }
  destruct (dbError (env w) (queried w)); [exact H1|].
  set (rows := selectUnsynced _ _ (appointments w)).
  assert (Hrows : forall a, In a rows ->
                    tenantKey (i_company_id integration) w0 (a_id a)).
  { intros a Ha. apply selectUnsynced_In in Ha. destruct Ha as [Hin Hu].
    apply unsynced_spec in Hu. destruct HI as (_ & _ & Hk).
    apply Hk; tauto. }
  assert (K : keeps R
                (catch
                   (forOf rows
                      (pushAppointment this integration accessToken))
                   (fun error => _ <- messageOf error ;; ret tt))).
  { apply keeps_catch; [|intros; keeps_auto].
    apply keeps_forOf. intros x Hx. apply pushAppointment_apart, Hrows, Hx. }
  specialize (K w1 H1). rewrite catch_eq in K.
  destruct rows as [|r rest]; [exact H1|exact K].
Qed.

Lemma phaseC_apart (accessToken : string) :
  keeps R (cleanupOrphanedAppointments this integration accessToken).
Proof.
  intros w HI. unfold cleanupOrphanedAppointments.
  rewrite catch_eq, bind_eq. unfold mathRandomDraw at 1.
  assert (H0 : apart (i_company_id integration) w0 (countDraw w)).
  { revert HI. apply apart_ext; reflexivity. }
  destruct (negb (belowOneTenth (mathRandom (env w) (drawn w)))).
  { revert H0. apply apart_ext; reflexivity. }
  rewrite bind_eq, getSyncedAppointments_eq. cbv zeta.
  change (appointments (countDraw w)) with (appointments w).
  set (w1 := record _ (countQuery (countDraw w))).
  assert (H1 : apart (i_company_id integration) w0 w1).
  { revert HI. apply apart_ext; reflexivity. }
  destruct (dbError (env (countDraw w)) (queried (countDraw w)));
    [exact H1|].
  set (rows := selectSynced _ (appointments w)).
  assert (Hrows : forall a, In a rows ->
                    tenantKey (i_company_id integration) w0 (a_id a)).
  { intros a Ha. apply selectSynced_In in Ha. destruct Ha as [Hin Hu].
    apply synced_spec in Hu. destruct HI as (_ & _ & Hk).
    apply Hk; tauto. }
  assert (K : keeps R
                (catch
                   (forOf rows
                      (sweepAppointment this integration accessToken))
                   (fun error => _ <- messageOf error ;; ret tt))).
  { apply keeps_catch; [|intros; keeps_auto].
    apply keeps_forOf. intros x Hx.
    apply sweepAppointment_apart, Hrows, Hx. }
  specialize (K w1 H1). rewrite catch_eq in K.
  destruct rows as [|r rest]; [exact H1|exact K].
Qed.

Lemma syncSingleIntegration_apart :
  keeps R (syncSingleIntegration this integration).
Proof.
  unfold syncSingleIntegration.
  apply keeps_bind; [keeps_auto|]. intros _.
  apply keeps_catch; [|intros; keeps_auto].
  apply keeps_bind; [keeps_auto|]. intros accessToken.
  apply keeps_bind; [keeps_auto|]. intros _.
  apply keeps_bind; [apply phaseA_apart|]. intros _.
  apply keeps_bind; [keeps_auto|]. intros _.
  apply keeps_bind; [apply phaseB_apart|]. intros n.
  apply keeps_bind; [keeps_auto|]. intros _.
  apply keeps_bind; [apply phaseC_apart|]. intros _.
  keeps_auto.
Qed.
End Isolation.

(** X13.  Tenants are kept apart.  If no row of another tenant carries a
    key that one of the tenant's rows carries or that the store
    generates, the synchronisation of an integration of the tenant
    leaves the rows of every other tenant exactly as they were: none is
    changed, added, removed or reordered, whatever the remote calendar
    and the store answer. *)
Theorem other_tenants_are_untouched :
  forall (this : Service) (integration : Integration) (w : World),
    let mine := i_company_id integration in
    (forall r r',
        In r (appointments w) -> In r' (appointments w) ->
        a_company_id r = mine -> a_company_id r' <> mine ->
        a_id r <> a_id r') ->
    (forall n r',
        In r' (appointments w) -> a_company_id r' <> mine ->
        genId (env w) n <> a_id r') ->
    filter (fun r => negb (String.eqb (a_company_id r) mine))
      (appointments (snd (syncSingleIntegration this integration w)))
    = filter (fun r => negb (String.eqb (a_company_id r) mine))
        (appointments w).
Proof.
  intros this integration w mine Hkeys Hfresh.
  assert (Sep : keysApart mine w).
  { intros r' Hr' Hne [(r & Hr & Hc & Hk)|(n & Hk)].
    - apply (Hkeys r r' Hr Hr' Hc Hne). exact Hk.
    - apply (Hfresh n r' Hr' Hne). symmetry. exact Hk. }
  assert (H0 : apart mine w w).
  { unfold apart. splits; try reflexivity.
    intros r Hr Hc. left. exists r. auto. }
  pose proof (syncSingleIntegration_apart this integration w Sep w H0)
    as (_ & Eo & _).
  exact Eo.
Qed.


(** ** Phase A: every unsynchronised appointment is tried *)

Arguments insertions : simpl never.

Lemma insertionsIn_app (a b : list Event) :
  insertionsIn (a ++ b) = insertionsIn a ++ insertionsIn b.
Proof. apply flat_map_app. Qed.

Lemma insertionsIn_none (l : list Event) :
  Forall (without insertion) l -> insertionsIn l = [].
Proof.
  induction 1 as [|e t He _ IH]; [reflexivity|]. simpl. rewrite IH.
  destruct e as [|[]| |]; try reflexivity. discriminate He.
Qed.

Lemma insertions_kept (w w' : World) :
  emitsOnly (without insertion) w w' -> insertions w' = insertions w.
Proof.
  intros (d & E & F). unfold insertions, history.
  rewrite E, rev_app_distr, insertionsIn_app.
  rewrite (insertionsIn_none (rev d)); [apply app_nil_r|].
  apply Forall_rev. exact F.
Qed.

Section Pushing.
Variable this : Service.
Variable integration : Integration.
Variable accessToken : string.

(** The request [createGoogleEvent] hands to [withRetry]. *)
Let attempt (body : EventBody) (a : Appointment) : M GoogleEvent :=
  response <- fetch insertReply
                (InsertEvent (i_calendar_id integration) accessToken
                   body (a_id a)) ;;
  if negb (ok (status response)) then
    throw (apiError (status response) (text response))
  else ret (json response).

Lemma attempt_once (body : EventBody) (a : Appointment) (w : World) :
  insertions (snd (attempt body a w)) = insertions w ++ [a_id a]
  /\ (exists g, fst (attempt body a w) = Ok g)
     \/ insertions (snd (attempt body a w)) = insertions w ++ [a_id a]
        /\ exists m, fst (attempt body a w) = Throw (Error m).
Proof.
  unfold attempt, fetch, bind.
  destruct (insertReply (env w) (fetched w)) as [m|s t j]; simpl.
  - right. split; [|eexists; reflexivity].
    unfold insertions. rewrite history_record, insertionsIn_app.
    reflexivity.
  - destruct (negb (ok s)); simpl.
    + right. split; [|eexists; reflexivity].
      unfold insertions. rewrite history_record, insertionsIn_app.
      reflexivity.
    + left. split; [|eexists; reflexivity].
      unfold insertions. rewrite history_record, insertionsIn_app.
      reflexivity.
Qed.

Lemma backoff_no_insertion (a m d : Z) (w : World) :
  insertions (snd ((log (RetryAttempt a m d) ;; setTimeout (Some d)) w))
  = insertions w.
Proof.
  apply insertions_kept.
  assert (K : keeps (emitsOnly (without insertion))
                (log (RetryAttempt a m d) ;; setTimeout (Some d))).
  { keeps_auto. }
  apply K.
Qed.

Lemma retryLoop_insertions (body : EventBody) (a : Appointment)
    (maxRetries : Z) (rounds : nat) :
  forall (i : Z) (lastError : exn) (w : World),
    exists n,
      (n <= rounds)%nat
      /\ (rounds <> O -> (1 <= n)%nat)
      /\ insertions
           (snd (retryLoop this (attempt body a) maxRetries rounds i
                   lastError w))
         = insertions w ++ repeat (a_id a) n.
Proof.
  induction rounds as [|k IH]; intros i lastError w.
  - exists O. splits; [lia|intros H; contradiction|].
    simpl. symmetry. apply app_nil_r.
  - rewrite retryLoop_step.
    destruct (attempt_once body a w) as [[Hi (g & Hg)]|[Hi (m & Hm)]].
    + destruct (attempt body a w) as [r w1]. cbn [fst snd] in *. subst r.
      exists 1%nat. splits; [lia|intros; lia|exact Hi].
    + destruct (attempt body a w) as [r w1]. cbn [fst snd] in *. subst r.
      destruct (persistentMessage (Js.toLowerCase m) || (i =? maxRetries - 1)).
      * exists 1%nat. splits; [lia|intros; lia|exact Hi].
      * destruct (IH (i + 1) (Error m)
                    (snd ((log (RetryAttempt (i + 1) maxRetries
                                  (retryDelay this * (i + 1))) ;;
                           setTimeout (Some (retryDelay this * (i + 1))))
                            w1))) as (n & Hn & _ & En).
        exists (S n). splits; [lia|intros; lia|].
        rewrite En, backoff_no_insertion, Hi, <- app_assoc. reflexivity.
Qed.
End Pushing.

Lemma insertions_trace (w w' : World) :
  trace w' = trace w -> insertions w' = insertions w.
Proof. intros E. unfold insertions, history. rewrite E. reflexivity. Qed.

Lemma waiting_no_insertion (w : World) :
  insertions (snd (waitForAvailability w)) = insertions w.
Proof.
  apply insertions_kept.
  assert (K : keeps (emitsOnly (without insertion)) waitForAvailability).
  { apply keeps_waitForAvailability; intros; reflexivity. }
  apply K.
Qed.

(** What follows a computation adds no request for a creation if neither
    its continuation nor its handler sends one. *)
Lemma tail_no_insertion {A B} (m : M A) (k : A -> M B) (h : exn -> M B)
    (w : World) :
  (forall a, keeps (emitsOnly (without insertion)) (k a)) ->
  (forall e, keeps (emitsOnly (without insertion)) (h e)) ->
  insertions (snd (catch (bind m k) h w)) = insertions (snd (m w)).
Proof.
  intros Hk Hh. rewrite catch_eq, bind_eq.
  destruct (m w) as [[a|e|] w1]; cbn [snd].
  - pose proof (insertions_kept _ _ (Hk a w1)) as E1.
    destruct (k a w1) as [[b|e|] w2]; cbn [snd] in *; auto.
    rewrite <- E1. apply insertions_kept, Hh.
  - apply insertions_kept, Hh.
  - reflexivity.
Qed.

Lemma createGoogleEvent_insertions (this : Service) (a : Appointment)
    (integration : Integration) (accessToken : string) (w : World) :
  Healthy w ->
  1 <= retryAttempts this ->
  exists n,
    (1 <= n <= Z.to_nat (retryAttempts this))%nat
    /\ insertions (snd (createGoogleEvent this a integration accessToken w))
       = insertions w ++ repeat (a_id a) n.
Proof.
  intros HW Hr. unfold createGoogleEvent. rewrite bind_eq.
  set (pre := if i_auto_create_meet integration
              then t <- now ;;
                   ret (Some ("meet-" ++ Js.show t ++ "-" ++ a_id a)%string)
              else ret None).
  assert (Epre : exists requestId, pre w = (Ok requestId, w)).
  { unfold pre. destruct (i_auto_create_meet integration);
      eexists; reflexivity. }
  destruct Epre as (requestId & ->).
  destruct (waitForAvailability_returns w HW) as (w1 & E1 & _).
  pose proof (waiting_no_insertion w) as I1. rewrite E1 in I1.
  cbn [snd] in I1.
  rewrite (makeRequest_eq _ _ _ E1), recordRequest_eq, catch_eq. cbn [snd].
  set (w2 := if enabled (limiter w1) then _ else w1).
  assert (I2 : insertions w2 = insertions w).
  { rewrite <- I1. apply insertions_trace. unfold w2.
    destruct (enabled (limiter w1)); reflexivity. }
  unfold withRetry.
  match goal with
  | |- context [retryLoop this ?fn ?mx ?rounds 0 Undefined w2] =>
      destruct (retryLoop_insertions this integration accessToken
                  {| b_summary := a_title a;
                     b_description := a_description a;
                     b_start := a_start_time a;
                     b_end := a_end_time a;
                     b_timeZone := i_timezone integration;
                     b_location := a_location a;
                     b_attendees := attendeeEmails (a_attendees a);
                     b_conferenceRequestId := requestId |}
                  a mx rounds 0 Undefined w2) as (n & Hn & Hpos & En);
      destruct (retryLoop this fn mx rounds 0 Undefined w2)
        as [[g|e|] w3]
  end; cbn [snd] in *; exists n; (split; [split; [apply Hpos; lia|exact Hn]|]);
    rewrite <- I2.
  - exact En.
  - destruct e; exact En.
  - exact En.
Qed.

Lemma pushAppointment_pure (this : Service) (integration : Integration)
    (accessToken : string) (a : Appointment) (E : Eff) :
  behaves E (pushAppointment this integration accessToken a).
Proof. behaves_auto. Qed.

Lemma pushAppointment_insertions (this : Service) (integration : Integration)
    (accessToken : string) (a : Appointment) (w : World) :
  Healthy w ->
  1 <= retryAttempts this ->
  exists n w',
    pushAppointment this integration accessToken a w = (Ok tt, w')
    /\ Healthy w'
    /\ (1 <= n <= Z.to_nat (retryAttempts this))%nat
    /\ insertions w' = insertions w ++ repeat (a_id a) n.
Proof.
  intros HW Hr.
  destruct (createGoogleEvent_insertions this a integration accessToken w
              HW Hr) as (n & Hn & En).
  destruct (pushAppointment_pure this integration accessToken a Pure w HW)
    as [H' Hres].
  assert (Ei : insertions (snd (pushAppointment this integration accessToken
                                  a w))
               = insertions w ++ repeat (a_id a) n).
  { rewrite <- En. unfold pushAppointment. apply tail_no_insertion.
    - intros g. keeps_auto.
    - intros e. keeps_auto. }
  destruct (pushAppointment this integration accessToken a w)
    as [[[]|[m|]|] w'] eqn:Ep; simpl in Hres; try contradiction;
    try discriminate; try congruence.
  exists n, w'. splits; auto; lia.
Qed.

Lemma pushing_insertions (this : Service) (integration : Integration)
    (accessToken : string) (rows : list Appointment) :
  1 <= retryAttempts this ->
  forall w,
    Healthy w ->
    exists counts,
      List.length counts = List.length rows
      /\ Forall (fun n => (1 <= n <= Z.to_nat (retryAttempts this))%nat)
           counts
      /\ insertions
           (snd (forOf rows (pushAppointment this integration accessToken) w))
         = insertions w ++ repeated (map a_id rows) counts.
Proof.
  intros Hr. induction rows as [|a t IH]; intros w HW.
  - exists []. splits; [reflexivity|constructor|].
    simpl. symmetry. apply app_nil_r.
  - destruct (pushAppointment_insertions this integration accessToken a w
                HW Hr) as (n & w1 & E1 & H1 & Hn & I1).
    destruct (IH w1 H1) as (counts & Hlen & Hall & It).
    exists (n :: counts). splits.
    + simpl. rewrite Hlen. reflexivity.
    + constructor; assumption.
    + cbn [forOf]. rewrite bind_eq, E1, It, I1, <- app_assoc. reflexivity.
Qed.

Lemma sorted_weaken {A} (R S : A -> A -> Prop) (l : list A) :
  (forall a b, R a b -> S a b) -> StronglySorted R l -> StronglySorted S l.
Proof.
  intros H. induction 1 as [|x t _ IH Hx]; constructor; [exact IH|].
  eapply Forall_impl; [|exact Hx]. intros b. apply H.
Qed.

Lemma ascending_total (a b : Appointment) :
  ascending a b = false -> ascending b a = true.
Proof. unfold ascending. rewrite Z.leb_gt, Z.leb_le. lia. Qed.

Lemma ascending_trans (a b c : Appointment) :
  ascending a b = true -> ascending b c = true -> ascending a c = true.
Proof. unfold ascending. rewrite !Z.leb_le. lia. Qed.

(** X14.  Phase A tries every appointment it selects.  With a usable
    limiter and at least one attempt configured, when the selection
    succeeds the requests for the creation of a remote event that the
    phase sends are, in the order of creation of the appointments, for
    each selected appointment at least one and at most [retryAttempts]
    of them, whatever the requests for the appointments before it came
    to; when the selection fails the phase sends none. *)
Theorem push_tries_every_selected_appointment :
  forall (this : Service) (integration : Integration)
         (accessToken : string) (w : World),
    Healthy w ->
    1 <= retryAttempts this ->
    let rows :=
      selectUnsynced (i_company_id integration) (i_calendar_id integration)
        (appointments w) in
    let w' :=
      snd (syncLocalAppointmentsToGoogle this integration accessToken w) in
    StronglySorted (fun a b => a_created_at a <= a_created_at b) rows
    /\ (dbError (env w) (queried w) = None ->
        exists counts,
          List.length counts = List.length rows
          /\ Forall (fun n => (1 <= n <= Z.to_nat (retryAttempts this))%nat)
               counts
          /\ insertions w'
             = insertions w ++ repeated (map a_id rows) counts)
    /\ (dbError (env w) (queried w) <> None ->
        insertions w' = insertions w).
Proof.
  intros this integration accessToken w HW Hr rows w'. splits.
  - pose proof (orderBy_sorted _ ascending ascending_total ascending_trans
                  (filter (unsynced (i_company_id integration)
                             (i_calendar_id integration)) (appointments w)))
      as S.
    unfold rows, selectUnsynced.
    eapply sorted_weaken; [|exact S].
    unfold ascending. intros a b H. apply Z.leb_le. exact H.
  - intros Hdb. unfold w', syncLocalAppointmentsToGoogle.
    rewrite catch_eq, bind_eq, getUnsyncedLocalAppointments_eq. cbv zeta.
    rewrite Hdb. fold rows.
    set (w1 := record _ (countQuery w)).
    assert (H1 : Healthy w1) by exact HW.
    assert (I1 : insertions w1 = insertions w).
    { unfold insertions, w1. rewrite history_record, insertionsIn_app.
      simpl. apply app_nil_r. }
    destruct (pushing_insertions this integration accessToken rows Hr w1 H1)
      as (counts & Hlen & Hall & Ii).
    exists counts. splits; auto.
    rewrite <- I1.
    destruct rows as [|r rest] eqn:Er.
    + destruct counts; [|discriminate Hlen]. simpl.
      symmetry. apply app_nil_r.
    + rewrite <- Ii.
      destruct (forOf (r :: rest)
                  (pushAppointment this integration accessToken) w1)
        as [[[]|e|] w2]; try reflexivity.
      destruct e; reflexivity.
  - intros Hdb. unfold w', syncLocalAppointmentsToGoogle.
    rewrite catch_eq, bind_eq, getUnsyncedLocalAppointments_eq. cbv zeta.
    destruct (dbError (env w) (queried w)) as [m|];
      [|contradiction Hdb; reflexivity].
    simpl. unfold insertions. rewrite history_record, insertionsIn_app.
    simpl. apply app_nil_r.
Qed.


(** ** The performance monitor *)

Section Monitoring.
Context {doubles : Doubles}.
Import Monitor.

Lemma consistent_fresh (bound now : Z) : consistent (noMetrics bound now).
Proof.
  unfold consistent. simpl. splits; try lia; try reflexivity.
Qed.

Lemma consistent_call (c : Call) (m : PerformanceMonitor) :
  consistent m -> consistent (call c m).
Proof.
  intros H. destruct c as [now d s e|d s p|t|d s| |t|now]; simpl.
  - unfold consistent in *. simpl.
    destruct H as (H1 & H2 & H3 & H4 & H5 & H6 & H7 & H8 & H9 & H10 & H11).
    destruct s; splits; auto; try lia.
    + destruct (c_minDuration (syncCycles m)) as [x|] eqn:Em.
      * intros _. assert (Hp : 0 < c_total (syncCycles m)).
        { destruct (Z.eq_dec (c_total (syncCycles m)) 0) as [E|E];
            [discriminate (H10 E)|lia]. }
        destruct (H11 Hp) as (l & El & Hl). injection El as <-.
        eexists. split; [reflexivity|]. simpl. lia.
      * intros _. eexists. split; [reflexivity|]. lia.
    + destruct (c_minDuration (syncCycles m)) as [x|] eqn:Em.
      * intros _. assert (Hp : 0 < c_total (syncCycles m)).
        { destruct (Z.eq_dec (c_total (syncCycles m)) 0) as [E|E];
            [discriminate (H10 E)|lia]. }
        destruct (H11 Hp) as (l & El & Hl). injection El as <-.
        eexists. split; [reflexivity|]. simpl. lia.
      * intros _. eexists. split; [reflexivity|]. lia.
  - unfold consistent in *. simpl.
    destruct H as (H1 & H2 & H3 & H4 & H5 & H6 & H7 & H8 & H9 & H10 & H11).
    destruct s; splits; auto; lia.
  - unfold recordEventProcessing.
    destruct (String.eqb t "created"); [exact H|].
    destruct (String.eqb t "updated"); [exact H|].
    destruct (String.eqb t "cancelled"); exact H.
  - unfold consistent in *. simpl.
    destruct H as (H1 & H2 & H3 & H4 & H5 & H6 & H7 & H8 & H9 & H10 & H11).
    destruct s; splits; auto; lia.
  - exact H.
  - unfold recordError.
    destruct (String.eqb t "token_refresh"); [exact H|].
    destruct (String.eqb t "api"); [exact H|].
    destruct (String.eqb t "database"); [exact H|].
    destruct (String.eqb t "network"); exact H.
  - apply consistent_fresh.
Qed.

Lemma consistent_after (calls : list Call) :
  forall m, consistent m -> consistent (after calls m).
Proof.
  induction calls as [|c t IH]; intros m H; [exact H|].
  apply IH, consistent_call, H.
Qed.

(** X15.  The counters of the monitor add up.  After any series of
    calls on a new monitor, resets included: the cycles counted are
    the successful plus the failed ones, and so for the integrations
    and for the API calls; a success rate is the number 0 exactly when
    nothing has been counted; and once a cycle has ended the shortest
    duration is known and is at most the last one, which is at most
    the longest. *)
Theorem monitor_counters_add_up :
  forall (calls : list Call) (now : Z),
    let m := after calls (constructor now) in
    let c := syncCycles m in
    let n := integrationsSynced m in
    let p := api m in
    c_total c = c_successful c + c_failed c
    /\ n_totalProcessed n = n_successful n + n_failed n
    /\ p_totalRequests p = p_successful p + p_failed p
    /\ (getSuccessRate OfSyncCycles m = Zero <-> c_total c = 0)
    /\ (getSuccessRate OfIntegrations m = Zero <-> n_totalProcessed n = 0)
    /\ (getSuccessRate OfApi m = Zero <-> p_totalRequests p = 0)
    /\ (c_total c = 0 -> c_minDuration c = None)
    /\ (0 < c_total c ->
        exists least,
          c_minDuration c = Some least
          /\ least <= c_lastDuration c <= c_maxDuration c).
Proof.
  intros calls now m c n p.
  pose proof (consistent_after calls (constructor now)
                (consistent_fresh 100 now)) as H.
  fold m in H. unfold consistent in H. fold c n p in H.
  destruct H as (H1 & H2 & H3 & H4 & H5 & H6 & H7 & H8 & H9 & H10 & H11).
  splits; auto.
  - unfold getSuccessRate. fold c. split.
    + destruct (c_total c =? 0) eqn:E; [apply Z.eqb_eq in E; auto|].
      rewrite E. discriminate.
    + intros E. rewrite E. simpl.
      assert (E2 : c_successful c + c_failed c = 0) by lia.
      rewrite E2. reflexivity.
  - unfold getSuccessRate. fold n. rewrite <- H4. split.
    + destruct (n_totalProcessed n =? 0) eqn:E;
        [apply Z.eqb_eq in E; auto|discriminate].
    + intros E. rewrite E. reflexivity.
  - unfold getSuccessRate. fold p. rewrite <- H7. split.
    + destruct (p_totalRequests p =? 0) eqn:E;
        [apply Z.eqb_eq in E; auto|discriminate].
    + intros E. rewrite E. reflexivity.
Qed.

Lemma lastn_app_one (n : nat) (acc : list RecentSync) (e : RecentSync) :
  (0 < n)%nat ->
  remember (Z.of_nat n) (lastn n acc) e = lastn n (acc ++ [e]).
Proof.
  intros Hn. unfold remember, lastn. rewrite !length_app, length_skipn. simpl.
  destruct (Nat.le_gt_cases (List.length acc) n) as [Hle|Hgt].
  - replace (List.length acc - n)%nat with O by lia. simpl.
    destruct (Nat.eq_dec (List.length acc) n) as [E|E].
    + assert (Hlt : (Z.of_nat n <? Z.of_nat (List.length acc - 0 + 1)) = true)
        by (apply Z.ltb_lt; lia).
      rewrite Hlt.
      replace (List.length acc + 1 - n)%nat with 1%nat by lia.
      destruct acc; reflexivity.
    + assert (Hlt : (Z.of_nat n <? Z.of_nat (List.length acc - 0 + 1)) = false)
        by (apply Z.ltb_ge; lia).
      rewrite Hlt.
      replace (List.length acc + 1 - n)%nat with O by lia. reflexivity.
  - assert (Hlt : (Z.of_nat n
                   <? Z.of_nat (List.length acc
                                - (List.length acc - n) + 1)) = true)
      by (apply Z.ltb_lt; lia).
    rewrite Hlt.
    replace (List.length acc + 1 - n)%nat
      with (S (List.length acc - n)) by lia.
    rewrite skipn_app.
    replace (S (List.length acc - n) - List.length acc)%nat with O by lia.
    simpl (skipn 0 [e]).
    assert (Hs : exists x t, skipn (List.length acc - n) acc = x :: t).
    { destruct (skipn (List.length acc - n) acc) as [|x t] eqn:Es.
      - assert (L : List.length (skipn (List.length acc - n) acc) = O)
          by (rewrite Es; reflexivity).
        rewrite length_skipn in L. lia.
      - eauto. }
    destruct Hs as (x & t & Es).
    assert (Et : skipn (S (List.length acc - n)) acc = t).
    { replace (S (List.length acc - n)) with (1 + (List.length acc - n))%nat
        by lia.
      rewrite <- skipn_skipn, Es. reflexivity. }
    rewrite Et, Es. reflexivity.
Qed.

Lemma recordEventProcessing_history (ty : string)
    (m : PerformanceMonitor) :
  maxRecentSyncs (recordEventProcessing ty m) = maxRecentSyncs m
  /\ recentSyncs (recordEventProcessing ty m) = recentSyncs m.
Proof.
  unfold recordEventProcessing.
  destruct (String.eqb ty "created"); [split; reflexivity|].
  destruct (String.eqb ty "updated"); [split; reflexivity|].
  destruct (String.eqb ty "cancelled"); split; reflexivity.
Qed.

Lemma recordError_history (ty : string) (m : PerformanceMonitor) :
  maxRecentSyncs (recordError ty m) = maxRecentSyncs m
  /\ recentSyncs (recordError ty m) = recentSyncs m.
Proof.
  unfold recordError.
  destruct (String.eqb ty "token_refresh"); [split; reflexivity|].
  destruct (String.eqb ty "api"); [split; reflexivity|].
  destruct (String.eqb ty "database"); [split; reflexivity|].
  destruct (String.eqb ty "network"); split; reflexivity.
Qed.

Lemma history_after (n : nat) (calls : list Call) :
  (0 < n)%nat ->
  forall (m : PerformanceMonitor) (acc : list RecentSync),
    maxRecentSyncs m = Z.of_nat n ->
    recentSyncs m = lastn n acc ->
    recentSyncs (after calls m) = lastn n (ended calls acc).
Proof.
  intros Hn.
  induction calls as [|c t IH]; intros m acc Hb Hr; [exact Hr|].
  destruct c as [now d s e|d s p|ty|d s| |ty|now]; simpl.
  - apply IH; [exact Hb|]. simpl. rewrite Hb, Hr. apply lastn_app_one, Hn.
  - apply IH; [exact Hb|exact Hr].
  - destruct (recordEventProcessing_history ty m) as [E1 E2].
    apply IH; [rewrite E1; exact Hb|rewrite E2; exact Hr].
  - apply IH; [exact Hb|exact Hr].
  - apply IH; [exact Hb|exact Hr].
  - destruct (recordError_history ty m) as [E1 E2].
    apply IH; [rewrite E1; exact Hb|rewrite E2; exact Hr].
  - apply IH; [exact Hb|]. reflexivity.
Qed.

(** X16.  The history of the monitor is a window on the most recent
    cycles.  After any series of calls on a new monitor it holds, in
    the order in which they ended, the entries of the last hundred
    cycles that ended since the last reset (of all of them when fewer
    ended), and never more than a hundred entries. *)
Theorem monitor_keeps_the_last_hundred_cycles :
  forall (calls : list Call) (now : Z),
    let m := after calls (constructor now) in
    recentSyncs m = lastn 100 (ended calls [])
    /\ (List.length (recentSyncs m) <= 100)%nat
    /\ (List.length (recentSyncs m)
        = Nat.min 100 (List.length (ended calls [])))%nat.
Proof.
  intros calls now m.
  assert (E : recentSyncs m = lastn 100 (ended calls [])).
  { apply history_after; [lia|reflexivity|reflexivity]. }
  rewrite E. unfold lastn. rewrite length_skipn. splits; auto; lia.
Qed.

Lemma recordError_tally (ty : string) (m : PerformanceMonitor) :
  errorsSoFar (getSummary (recordError ty m))
  = (if counted ty then errorsSoFar (getSummary m) + 1
     else errorsSoFar (getSummary m))
  /\ recordError ty m
     = (if counted ty then withErrors (errors (recordError ty m)) m else m).
Proof.
  unfold recordError, counted.
  destruct (String.eqb ty "token_refresh"); simpl; [split; [lia|reflexivity]|].
  destruct (String.eqb ty "api"); simpl; [split; [lia|reflexivity]|].
  destruct (String.eqb ty "database"); simpl; [split; [lia|reflexivity]|].
  destruct (String.eqb ty "network"); simpl; split; try lia; reflexivity.
Qed.

Lemma recordEventProcessing_errors (ty : string) (m : PerformanceMonitor) :
  errors (recordEventProcessing ty m) = errors m.
Proof.
  unfold recordEventProcessing.
  destruct (String.eqb ty "created"); [reflexivity|].
  destruct (String.eqb ty "updated"); [reflexivity|].
  destruct (String.eqb ty "cancelled"); reflexivity.
Qed.

Lemma tally_after (calls : list Call) :
  forall (m : PerformanceMonitor) (acc : Z),
    errorsSoFar (getSummary m) = acc ->
    errorsSoFar (getSummary (after calls m)) = tallied calls acc.
Proof.
  induction calls as [|c t IH]; intros m acc Ha; [exact Ha|].
  destruct c as [now d s e|d s p|ty|d s| |ty|now]; simpl;
    try (apply IH; exact Ha).
  - apply IH. unfold getSummary. simpl.
    rewrite recordEventProcessing_errors. exact Ha.
  - apply IH. rewrite (proj1 (recordError_tally ty m)), Ha. reflexivity.
  - apply IH. reflexivity.
Qed.

(** X17.  Every error is counted once, in one of four kinds.  The
    number of errors the summary reports after any series of calls on
    a new monitor is the number of errors recorded since the last
    reset under one of the kinds token_refresh, api, database and
    network; an error recorded under any other kind changes nothing;
    and [categorizeAndRecordError] files an error object under exactly
    one of the four kinds, raising the number by one and changing
    nothing else. *)
Theorem errors_are_counted_once :
  forall (calls : list Call) (now : Z),
    errorsSoFar (getSummary (after calls (constructor now)))
    = tallied calls 0
    /\ (forall errorType m,
          counted errorType = false -> recordError errorType m = m)
    /\ (forall message m,
          exists m',
            categorizeAndRecordError (Error message) m = (Ok tt, m')
            /\ errorsSoFar (getSummary m') = errorsSoFar (getSummary m) + 1
            /\ m' = withErrors (errors m') m).
Proof.
  intros calls now. splits.
  - apply tally_after. reflexivity.
  - intros ty m H. rewrite (proj2 (recordError_tally ty m)), H. reflexivity.
  - intros message m. eexists. split; [reflexivity|].
    destruct (_ || _ || _);
      [|destruct (_ || _ || _); [|destruct (_ || _ || _)]];
      split; try reflexivity; simpl; lia.
Qed.
End Monitoring.


(** ** Where the error of a retried operation comes from *)

Section Origin.
Context {A : Type}.
Variable this : Service.
Variable fn : M A.
Variable maxRetries : Z.
Variable I : World -> Prop.
Variable Q : exn -> Prop.
Hypothesis fn_keeps : forall w, I w -> I (snd (fn w)).
Hypothesis fn_throws : forall w e w1, I w -> fn w = (Throw e, w1) -> Q e.
Hypothesis objects_only : ~ Q Undefined.
Hypothesis sleeping_keeps :
  forall a m d w,
    I w -> I (snd ((log (RetryAttempt a m d) ;; setTimeout (Some d)) w)).

End Origin.





(** A refusal whose body is not JSON: the error is the parser's, and it
    is counted as an error of the API. *)
Example unparsable_refusal_is_an_api_error :
  fst (refreshAccessToken Sample.service "refresh-0" "client" "secret"
         Sample.outage)
  = Throw (Error "Unexpected token b in JSON at position 0")
  /\ @Monitor.categorizeAndRecordError Cases.integers
       (Error "Unexpected token b in JSON at position 0")
       (Monitor.constructor 0)
     = (Ok tt, Monitor.recordError "api" (Monitor.constructor 0)).
Proof. split; vm_compute; reflexivity. Qed.


(** ** The report of changes *)

Lemma differs_false (stored sent : option string) :
  differs stored sent = false <-> bothHold stored sent.
Proof.
  unfold differs, bothHold. destruct stored as [a|]; destruct sent as [b|].
  - destruct (String.eqb_spec a b) as [->|Hne]; simpl; split.
    + intros _. exists b. split; reflexivity.
    + reflexivity.
    + discriminate.
    + intros (v & E1 & E2). congruence.
  - split; [discriminate|]. intros (v & _ & E). discriminate.
  - split; [discriminate|]. intros (v & E & _). discriminate.
  - split; [discriminate|]. intros (v & E & _). discriminate.
Qed.

(** X19.  The report of changes of an update.  [detectChanges] returns
    between one and six lines.  It returns the line for changes that
    could not be identified, alone, exactly when the title is the same
    and start, end, location, description and meeting link each hold the
    same text in the stored row and in the payload; a field that is
    absent on either side counts as changed, so a description absent
    from the remote event or from the row is always reported as
    modified. *)
Theorem change_report_is_never_empty :
  forall (existing : Appointment) (updated : AppointmentData),
    let report := detectChanges existing updated in
    (1 <= List.length report <= 6)%nat
    /\ (report = [unidentified] <->
        a_title existing = d_title updated
        /\ bothHold (a_start_time existing) (d_start_time updated)
        /\ bothHold (a_end_time existing) (d_end_time updated)
        /\ bothHold (a_location existing) (d_location updated)
        /\ bothHold (a_description existing) (d_description updated)
        /\ bothHold (a_google_meet_link existing)
             (d_google_meet_link updated))
    /\ (a_description existing = None \/ d_description updated = None ->
        In "descrição: Modificada"%string report).
Proof.
  intros existing updated. cbv zeta. unfold detectChanges.
  rewrite <- !differs_false.
  assert (Ht : a_title existing = d_title updated
               <-> negb (String.eqb (a_title existing) (d_title updated))
                   = false).
  { destruct (String.eqb_spec (a_title existing) (d_title updated));
      simpl; split; congruence. }
  rewrite Ht.
  assert (Hd : a_description existing = None \/ d_description updated = None
               -> differs (a_description existing) (d_description updated)
                  = true).
  { intros [->| ->]; [reflexivity|].
    destruct (a_description existing); reflexivity. }
  destruct (negb (String.eqb (a_title existing) (d_title updated)));
    destruct (differs (a_start_time existing) (d_start_time updated));
    destruct (differs (a_end_time existing) (d_end_time updated));
    destruct (differs (a_location existing) (d_location updated));
    destruct (differs (a_description existing) (d_description updated));
    destruct (differs (a_google_meet_link existing)
                (d_google_meet_link updated));
    cbn [app List.length];
    (split; [lia|]);
    (split;
     [split;
      [intros H; try discriminate H; repeat split; reflexivity
      |intros (H1 & H2 & H3 & H4 & H5 & H6); try discriminate; reflexivity]
     |intros H; try (specialize (Hd H); discriminate Hd);
      simpl; tauto]).
Qed.


(** ** The scheduled entry point *)

(** X20.  Bookkeeping of the scheduled run.  A run requested while one is
    in progress does nothing at all.  Otherwise, with a usable limiter,
    the cycle ends normally and the run is counted as successful: the
    total and the successful runs grow by one, the last error is cleared
    and the time of the last synchronisation is set, whatever happened
    to the individual integrations.  Every run that ends keeps the total
    equal to the successful plus the failed runs, and a run whose cycle
    does not end leaves the in-progress flag set. *)
Theorem scheduled_run_bookkeeping :
  forall (syncService : Service) (s : Server.State) (w : World),
    let r := Server.performSync syncService s w in
    (Server.isRunning s = true -> r = (Ok tt, (s, w)))
    /\ (Server.isRunning s = false -> Healthy w ->
        exists w',
          syncAllIntegrations syncService w = (Ok tt, w')
          /\ r = (Ok tt,
                  ({| Server.isRunning := false;
                      Server.lastSyncTime := Some (clock w');
                      Server.syncStats :=
                        {| Server.totalRuns :=
                             Server.totalRuns (Server.syncStats s) + 1;
                           Server.successfulRuns :=
                             Server.successfulRuns (Server.syncStats s) + 1;
                           Server.failedRuns :=
                             Server.failedRuns (Server.syncStats s);
                           Server.lastError := None |} |}, w')))
    /\ (fst r <> Diverge ->
        Server.totalRuns (Server.syncStats s)
        = Server.successfulRuns (Server.syncStats s)
          + Server.failedRuns (Server.syncStats s) ->
        Server.isRunning (fst (snd r)) = Server.isRunning s
        /\ Server.totalRuns (Server.syncStats (fst (snd r)))
           = Server.successfulRuns (Server.syncStats (fst (snd r)))
             + Server.failedRuns (Server.syncStats (fst (snd r))))
    /\ (Server.isRunning s = false -> fst r = Diverge ->
        Server.isRunning (fst (snd r)) = true).
Proof.
  intros syncService s w. cbv zeta. unfold Server.performSync.
  destruct (Server.isRunning s) eqn:Er.
  - splits; try discriminate; auto.
  - pose proof (syncAllIntegrations_pure syncService Pure) as Hb.
    splits; try discriminate.
    + intros _ Hw. destruct (Hb w Hw) as [_ Ha].
      destruct (syncAllIntegrations syncService w) as [[[]|[m|]|] w'];
        simpl in Ha; try tauto; try congruence.
      exists w'. split; reflexivity.
    + destruct (syncAllIntegrations syncService w) as [[[]|[m|]|] w'];
        simpl; intros Hd Ht; try congruence; split; auto; lia.
    + destruct (syncAllIntegrations syncService w) as [[[]|[m|]|] w'];
        simpl; intros _ Hd; try discriminate; reflexivity.
Qed.


(** ** Closed instances *)

Lemma admissions_respect_window_witness :
  Healthy Sample.narrow
  /\ enabled (limiter Sample.narrow) = true
  /\ exists ts w',
       acquisitions 3 Sample.narrow = (Ok ts, w')
       /\ List.length ts = 3%nat
       /\ forall i a b,
            nth_error ts i = Some a ->
            nth_error ts (i + 2) = Some b ->
            a + 60000 <= b.
Proof.
  assert (H : Healthy Sample.narrow) by (apply sample_healthy; lia).
  split; [exact H|]. split; [reflexivity|].
  destruct (admissions_respect_window 3 Sample.narrow H eq_refl)
    as (ts & w' & E & Hl & _ & Hs).
  exists ts, w'. split; [exact E|]. split; [exact Hl|]. exact Hs.
Defined.

Lemma disabled_limiter_is_transparent_witness :
  enabled (limiter Cases.unlimited) = false
  /\ Sample.notFound Cases.unlimited
     = (Throw (Error "Google Calendar API error: 404 - Not Found"),
        Cases.unlimited)
  /\ Throw (Error "Google Calendar API error: 404 - Not Found")
     <> @Throw bool Undefined
  /\ makeRequest Sample.notFound Cases.unlimited
     = (Throw (Error "Google Calendar API error: 404 - Not Found"),
        Cases.unlimited).
Proof.
  assert (Hn : Throw (Error "Google Calendar API error: 404 - Not Found")
               <> @Throw bool Undefined) by discriminate.
  split; [reflexivity|]. split; [reflexivity|]. split; [exact Hn|].
  exact (proj2 (proj2 (proj2
    (disabled_limiter_is_transparent bool Sample.notFound
       Cases.unlimited _ _ eq_refl eq_refl Hn)))).
Defined.

Lemma getStats_agrees_with_the_check_witness :
  enabled (limiter Sample.narrow) = true
  /\ exists st,
       getStats Sample.narrow = (Ok st, Sample.narrow)
       /\ 0 <= s_remainingRequests st
       /\ (fst (canMakeRequest Sample.narrow) = Ok true
           <-> 0 < s_remainingRequests st).
Proof.
  split; [reflexivity|].
  destruct (getStats_agrees_with_the_check Sample.narrow eq_refl)
    as (st & E & H0 & _ & Hc & _).
  exists st. split; [exact E|]. split; [exact H0|exact Hc].
Defined.

Lemma sync_cycle_always_returns_witness :
  Healthy Sample.outage
  /\ exists w',
       syncAllIntegrations Sample.service Sample.outage = (Ok tt, w')
       /\ Healthy w'.
Proof.
  assert (H : Healthy Sample.outage) by (apply sample_healthy; lia).
  split; [exact H|].
  destruct (sync_cycle_always_returns Sample.service Sample.outage H)
    as (w' & E & H' & _).
  exists w'. split; [exact E|exact H'].
Defined.

Lemma batch_takes_the_first_integrations_witness :
  Healthy Sample.calm
  /\ dbError (env Sample.calm) (queried Sample.calm) = None
  /\ exists w',
       syncAllIntegrations Sample.service Sample.calm = (Ok tt, w')
       /\ started w' = ["int-1"%string].
Proof.
  assert (H : Healthy Sample.calm) by (apply sample_healthy; lia).
  split; [exact H|]. split; [reflexivity|].
  destruct (batch_takes_the_first_integrations Sample.service Sample.calm
              H eq_refl) as (w' & E & Hs & _).
  exists w'. split; [exact E|exact Hs].
Defined.

Lemma remote_cancellation_is_mirrored_witness :
  eqCol (g_status Cases.withdrawn) "cancelled" = true
  /\ fst (processGoogleEvent "acme" Cases.withdrawn Sample.elsewhere) = Ok tt
  /\ appointments
       (snd (processGoogleEvent "acme" Cases.withdrawn Sample.elsewhere))
     = [withStatus "cancelled" 1000000 Sample.orphan].
Proof.
  split; [reflexivity|].
  destruct (remote_cancellation_is_mirrored "acme" Cases.withdrawn
              Sample.elsewhere eq_refl) as (E & _ & _ & Hx).
  split; [exact E|].
  destruct (Hx Sample.orphan eq_refl) as (_ & Ht & _).
  exact (Ht eq_refl).
Defined.

Lemma first_pull_creates_one_row_witness :
  eqCol (g_status (Sample.event "ev-1" None)) "cancelled" = false
  /\ filter (sameKey "acme" "ev-1") (appointments Sample.calm) = []
  /\ g_start (Sample.event "ev-1" None) = Some Cases.start
  /\ g_end (Sample.event "ev-1" None) = Some Cases.finish
  /\ dbError (env Sample.calm) (queried Sample.calm) = None
  /\ dbError (env Sample.calm) (S (S (queried Sample.calm))) = None
  /\ fst (processGoogleEvent "acme" (Sample.event "ev-1" None) Sample.calm)
     = Ok tt
  /\ appointments
       (snd (processGoogleEvent "acme" (Sample.event "ev-1" None)
               Sample.calm))
     = [pulledRow "acme" (Sample.event "ev-1" None) Cases.start Cases.finish
          systemUser "row-2" 1000000].
Proof.
  destruct (first_pull_creates_one_row "acme" (Sample.event "ev-1" None)
              Sample.calm Cases.start Cases.finish
              eq_refl eq_refl eq_refl eq_refl eq_refl eq_refl)
    as (E & Ha & _ & _).
  do 6 (split; [reflexivity|]). split; [exact E|exact Ha].
Defined.

Lemma pull_again_adds_nothing_witness :
  let once :=
    snd (processGoogleEvent "acme" Cases.withdrawn Sample.elsewhere) in
  (forall n, dbError (env Sample.elsewhere) n = None)
  /\ (forall n, dbError (env (Cases.later 10 once)) n = None)
  /\ appointments (Cases.later 10 once) = appointments once
  /\ users (Cases.later 10 once) = users Sample.elsewhere
  /\ appointments once = [withStatus "cancelled" 1000000 Sample.orphan]
  /\ appointments
       (snd (processGoogleEvent "acme" Cases.withdrawn
               (Cases.later 10 once)))
     = [withStatus "cancelled" 1600000 Sample.orphan]
  /\ Forall2 (restamped 1600000) (appointments (Cases.later 10 once))
       (appointments
          (snd (processGoogleEvent "acme" Cases.withdrawn
                  (Cases.later 10 once)))).
Proof.
  cbv zeta.
  set (once := snd (processGoogleEvent "acme" Cases.withdrawn
                      Sample.elsewhere)).
  assert (H1 : forall n, dbError (env Sample.elsewhere) n = None)
    by (intros n; reflexivity).
  assert (H2 : forall n, dbError (env (Cases.later 10 once)) n = None)
    by (intros n; reflexivity).
  split; [exact H1|]. split; [exact H2|]. do 4 (split; [reflexivity|]).
  exact (proj1 (proj2
    (pull_again_adds_nothing "acme" Cases.withdrawn Sample.elsewhere
       (Cases.later 10 once) H1 H2 eq_refl eq_refl))).
Defined.

Lemma other_tenants_are_untouched_witness :
  (forall r r',
      In r (appointments Cases.shared) -> In r' (appointments Cases.shared) ->
      a_company_id r = "acme"%string -> a_company_id r' <> "acme"%string ->
      a_id r <> a_id r')
  /\ (forall n r',
        In r' (appointments Cases.shared) ->
        a_company_id r' <> "acme"%string ->
        genId (env Cases.shared) n <> a_id r')
  /\ filter (fun r => negb (String.eqb (a_company_id r) "acme"))
       (appointments
          (snd (syncSingleIntegration Sample.service Sample.integration
                  Cases.shared)))
     = [Cases.neighbour].
Proof.
  assert (H1 : forall r r',
             In r (appointments Cases.shared) ->
             In r' (appointments Cases.shared) ->
             a_company_id r = "acme"%string ->
             a_company_id r' <> "acme"%string ->
             a_id r <> a_id r').
  { intros r r' [<-|[<-|[]]] [<-|[<-|[]]] Hc Hc'; simpl in *;
      congruence. }
  assert (H2 : forall n r',
             In r' (appointments Cases.shared) ->
             a_company_id r' <> "acme"%string ->
             genId (env Cases.shared) n <> a_id r').
  { intros n r' [<-|[<-|[]]] Hc; simpl in *; congruence. }
  split; [exact H1|]. split; [exact H2|].
  exact (other_tenants_are_untouched Sample.service Sample.integration
           Cases.shared H1 H2).
Defined.

Lemma push_tries_every_selected_appointment_witness :
  Healthy Cases.unpushed
  /\ 1 <= retryAttempts Sample.service
  /\ selectUnsynced "acme" "primary" (appointments Cases.unpushed)
     = [Cases.pending]
  /\ exists counts,
       List.length counts = 1%nat
       /\ Forall (fun n => (1 <= n <= 3)%nat) counts
       /\ insertions
            (snd (syncLocalAppointmentsToGoogle Sample.service
                    Sample.integration "token-0" Cases.unpushed))
          = insertions Cases.unpushed
            ++ repeated ["appt-2"%string] counts.
Proof.
  assert (H : Healthy Cases.unpushed) by (apply sample_healthy; lia).
  assert (Hr : 1 <= retryAttempts Sample.service) by (simpl; lia).
  split; [exact H|]. split; [exact Hr|]. split; [reflexivity|].
  destruct (push_tries_every_selected_appointment Sample.service
              Sample.integration "token-0" Cases.unpushed H Hr)
    as (_ & Hp & _).
  exact (Hp eq_refl).
Defined.

